(** * dace/graph/nxutil.py: traversal and rewriting primitives on ordered graphs

    A shallow embedding of the functions of [dace/graph/nxutil.py] and the
    properties that the specification states about them.

    Conventions of the embedding:
    - a Python object used as a graph node is its identity, a natural number;
    - a generator is the finite list of the values it yields, in order;
    - a [while stack:] loop is a function recursive on a fuel argument; it
      returns [None] only when the fuel runs out, and the theorems show that
      enough fuel always exists;
    - a function that mutates the graph takes the graph and returns the new
      one.  *)

From Stdlib Require Import List ZArith Lia Bool Arith Permutation.
From Stdlib Require Ascii String.
Import ListNotations.

Local Open Scope Z_scope.

(** ** Nodes that can be searched: [evaluate()] and [children_iter()] *)

(** The two methods that [depth_limited_search] and [depth_limited_dfs_iter]
    call on a node.  [evaluate()] returns a number and [children_iter()] a
    generator, taken here as the list of children it produces. *)
Class SearchNode (N : Type) : Type := {
  evaluate : N -> Z;
  children_iter : N -> list N
}.

Module nxutil_search.
Section Search.
Context {N : Type} `{SearchNode N}.

(** A stack entry [(node, cur_depth, children)]; [children] is what is left
    of the generator of [node]. *)
Definition frame : Type := (N * Z * list N)%type.

(** The local variables of [depth_limited_search], and the list of nodes on
    which [evaluate()] was called so far, oldest call first. *)
Record search_state : Type := mk_search_state {
  candidate : N;
  candidate_value : Z;
  evaluated : list N
}.

(** The body of the [try] block for one [child]: evaluate it and keep it as
    the candidate when its value is strictly greater. *)
Definition consider (st : search_state) (child : N) : search_state :=
  let child_val := evaluate child in
  if child_val >? candidate_value st
  then mk_search_state child child_val (evaluated st ++ [child])
  else mk_search_state (candidate st) (candidate_value st)
                       (evaluated st ++ [child]).

(** [while stack:] of [depth_limited_search].  The top of the stack
    ([stack[-1]]) is the head of the list. *)
Fixpoint search_loop (fuel : nat) (depth : Z) (stack : list frame)
         (st : search_state) : option search_state :=
  match stack with
  | [] => Some st
  | (node, cur_depth, children) :: rest =>
      match fuel with
      | O => None
      | S fuel' =>
          match children with
          | [] => (* StopIteration: stack.pop() *)
              search_loop fuel' depth rest st
          | child :: children' =>
              let st' := consider st child in
              if cur_depth <? depth - 1
              then search_loop fuel' depth
                     ((child, cur_depth + 1, children_iter child)
                        :: (node, cur_depth, children') :: rest) st'
              else search_loop fuel' depth
                     ((node, cur_depth, children') :: rest) st'
          end
      end
  end.

(** [depth_limited_search(source, depth)], with the log of [evaluate()]
    calls. *)
Definition depth_limited_search_run (fuel : nat) (source : N) (depth : Z)
  : option search_state :=
  let value := evaluate source in
  if depth =? 0 then Some (mk_search_state source value [source])
  else search_loop fuel depth [(source, 0, children_iter source)]
                   (mk_search_state source value [source]).

(** The value returned: [(candidate, candidate_value)]. *)
Definition depth_limited_search (fuel : nat) (source : N) (depth : Z)
  : option (N * Z) :=
  option_map (fun st => (candidate st, candidate_value st))
             (depth_limited_search_run fuel source depth).

(** The nodes on which [evaluate()] was called, in call order. *)
Definition depth_limited_search_evals (fuel : nat) (source : N) (depth : Z)
  : option (list N) :=
  option_map evaluated (depth_limited_search_run fuel source depth).

(** [while stack:] of [depth_limited_dfs_iter]; [out] is what was yielded
    so far. *)
Fixpoint dfs_iter_loop (fuel : nat) (depth : Z) (stack : list frame)
         (out : list N) : option (list N) :=
  match stack with
  | [] => Some out
  | (node, cur_depth, children) :: rest =>
      match fuel with
      | O => None
      | S fuel' =>
          match children with
          | [] => dfs_iter_loop fuel' depth rest out
          | child :: children' =>
              let out' := out ++ [child] in
              if cur_depth <? depth - 1
              then dfs_iter_loop fuel' depth
                     ((child, cur_depth + 1, children_iter child)
                        :: (node, cur_depth, children') :: rest) out'
              else dfs_iter_loop fuel' depth
                     ((node, cur_depth, children') :: rest) out'
          end
      end
  end.

(** [depth_limited_dfs_iter(source, depth)]: the list of yielded nodes. *)
Definition depth_limited_dfs_iter (fuel : nat) (source : N) (depth : Z)
  : option (list N) :=
  if depth =? 0 then Some [source]
  else dfs_iter_loop fuel depth [(source, 0, children_iter source)] [].

(** *** What the specification speaks of *)

(** [reach k n m]: [m] is reachable from [n] within [k] edges of the
    children relation. *)
Inductive reach : nat -> N -> N -> Prop :=
| reach_here : forall k n, reach k n n
| reach_step : forall k n c m,
    In c (children_iter n) -> reach k c m -> reach (S k) n m.

(** The occurrences of nodes strictly below [n], down to [k] edges, in the
    order of a depth-first expansion of the children. *)
Fixpoint walk (k : nat) (n : N) : list N :=
  match k with
  | O => []
  | S k' => flat_map (fun c => c :: walk k' c) (children_iter n)
  end.

(** What the children left in one stack entry still contribute. *)
Definition below (k : nat) (children : list N) : list N :=
  flat_map (fun c => c :: walk k c) children.

End Search.
End nxutil_search.

(** *** Two small search spaces *)

(** A node with two children that share one child:
    [0 -> 1, 0 -> 2, 1 -> 3, 2 -> 3]. *)
Definition diamond : SearchNode nat := {|
  evaluate := fun n =>
    match n with 0%nat => 5 | 1%nat => 7 | 2%nat => 7 | _ => 2 end;
  children_iter := fun n =>
    match n with
    | 0%nat => [1%nat; 2%nat]
    | 1%nat => [3%nat]
    | 2%nat => [3%nat]
    | _ => []
    end
|}.


(** ** The ordered graph of [dace.graph.graph]

    The classes [OrderedDiGraph] and [OrderedMultiDiConnectorGraph], and the
    edge classes, are imported by [nxutil.py] and are not part of it. *)
Module gr.

(** Modelled from the spec: the node of a graph, "an opaque identity". *)
Definition Node : Type := nat.

(** Modelled from the spec: the connector of an edge end, a name, or
    [None]. *)
Definition Conn : Type := option String.string.

(** Modelled from the spec: the payload of an edge, opaque, or [None] for an
    untyped edge. *)
Definition Data : Type := option nat.

(** Modelled from the spec: the two edge classes, the plain [Edge] of a
    path or control graph, [(src, dst, data)], and the
    [MultiConnectorEdge] of a dataflow graph,
    [(src, src_conn, dst, dst_conn, data)]. *)
Inductive edge : Type :=
| Edge (src dst : Node) (data : Data)
| MultiConnectorEdge (src : Node) (src_conn : Conn) (dst : Node)
                     (dst_conn : Conn) (data : Data).

(** Modelled from the spec: [e.src]. *)
Definition src (e : edge) : Node :=
  match e with
  | Edge s _ _ => s
  | MultiConnectorEdge s _ _ _ _ => s
  end.

(** Modelled from the spec: [e.dst]. *)
Definition dst (e : edge) : Node :=
  match e with
  | Edge _ d _ => d
  | MultiConnectorEdge _ _ d _ _ => d
  end.

(** Modelled from the spec: [e.data]. *)
Definition data (e : edge) : Data :=
  match e with
  | Edge _ _ x => x
  | MultiConnectorEdge _ _ _ _ x => x
  end.

(** Modelled from the spec: [e.src_conn]; a plain edge has no such
    attribute, which is [None] here at the outer level. *)
Definition src_conn (e : edge) : option Conn :=
  match e with
  | Edge _ _ _ => None
  | MultiConnectorEdge _ c _ _ _ => Some c
  end.

(** Modelled from the spec: [e.dst_conn], as [src_conn]. *)
Definition dst_conn (e : edge) : option Conn :=
  match e with
  | Edge _ _ _ => None
  | MultiConnectorEdge _ _ _ c _ => Some c
  end.

Definition edge_eq_dec (e1 e2 : edge) : {e1 = e2} + {e1 <> e2}.
Proof.
  repeat decide equality; apply Ascii.ascii_dec.
Defined.

(** Modelled from the spec: a graph, its nodes and its edges, each in
    insertion order. *)
Record graph : Type := mk_graph {
  nodes : list Node;
  edges : list edge
}.

(** Membership in a Python [set] or in the nodes of a graph. *)
Definition mem (n : Node) (s : list Node) : bool :=
  existsb (Nat.eqb n) s.

(** Modelled from the spec: [graph.in_edges(n)], the edges whose destination
    is [n], in insertion order. *)
Definition in_edges (g : graph) (n : Node) : list edge :=
  filter (fun e => Nat.eqb (dst e) n) (edges g).

(** Modelled from the spec: [graph.out_edges(n)]. *)
Definition out_edges (g : graph) (n : Node) : list edge :=
  filter (fun e => Nat.eqb (src e) n) (edges g).

(** Modelled from the spec: [graph.edges_between(a, b)]. *)
Definition edges_between (g : graph) (a b : Node) : list edge :=
  filter (fun e => Nat.eqb (src e) a && Nat.eqb (dst e) b) (edges g).

(** Modelled from the spec: [graph.in_degree(n)]. *)
Definition in_degree (g : graph) (n : Node) : nat :=
  length (in_edges g n).

(** Modelled from the spec: [graph.out_degree(n)]. *)
Definition out_degree (g : graph) (n : Node) : nat :=
  length (out_edges g n).

(** Modelled from the spec: [graph.neighbors(n)], the successors of [n],
    one for each out-edge. *)
Definition neighbors (g : graph) (n : Node) : list Node :=
  map dst (out_edges g n).

(** Modelled from the spec: [graph.predecessors(n)], one for each
    in-edge. *)
Definition predecessors (g : graph) (n : Node) : list Node :=
  map src (in_edges g n).

(** Modelled from the spec: [graph.add_node(n)]; a node that is in the
    graph already is not added a second time. *)
Definition add_node (g : graph) (n : Node) : graph :=
  if mem n (nodes g) then g
  else mk_graph (nodes g ++ [n]) (edges g).

(** Modelled from the spec: [graph.add_nodes_from(ns)]. *)
Definition add_nodes_from (g : graph) (ns : list Node) : graph :=
  fold_left add_node ns g.

(** Modelled from the spec: [graph.add_edge(src, dst, data)] and
    [graph.add_edge(src, src_conn, dst, dst_conn, data)], the arguments
    given as the edge they make.  The edge comes last in the order of
    edges; an end that is not yet a node of the graph becomes one. *)
Definition add_edge (g : graph) (e : edge) : graph :=
  let g' := add_node (add_node g (src e)) (dst e) in
  mk_graph (nodes g') (edges g ++ [e]).

Fixpoint remove_first (e : edge) (l : list edge) : list edge :=
  match l with
  | [] => []
  | x :: l' => if edge_eq_dec e x then l' else x :: remove_first e l'
  end.

(** Modelled from the spec: [graph.remove_edge(e)].  The edge object is
    found by its value; of several equal edges the oldest goes. *)
Definition remove_edge (g : graph) (e : edge) : graph :=
  mk_graph (nodes g) (remove_first e (edges g)).

(** Modelled from the spec: [graph.remove_node(n)], which takes the edges
    at [n] with it. *)
Definition remove_node (g : graph) (n : Node) : graph :=
  mk_graph (filter (fun m => negb (Nat.eqb m n)) (nodes g))
           (filter (fun e => negb (Nat.eqb (src e) n)
                             && negb (Nat.eqb (dst e) n)) (edges g)).

(** Modelled from the spec: [graph.remove_nodes_from(ns)]. *)
Definition remove_nodes_from (g : graph) (ns : list Node) : graph :=
  fold_left remove_node ns g.

End gr.

(** ** [dfs_topological_sort] *)
Module nxutil_dfs.
Import gr.

(** The [sources] argument when it is given: one node, or an iterable of
    nodes. *)
Inductive Sources : Type :=
| SourceNode (n : Node)
| SourceList (l : list Node).

(** The [nodes] that the outer [for] loop runs over. *)
Definition start_nodes (G : graph) (sources : option Sources) : list Node :=
  match sources with
  | None => nodes G
  | Some (SourceList l) => l
  | Some (SourceNode n) => [n]
  end.

(** [condition is None or condition(parent, child)]. *)
Definition condition_holds (condition : option (Node -> Node -> bool))
           (parent child : Node) : bool :=
  match condition with
  | None => true
  | Some c => c parent child
  end.

(** The [for pred in G.predecessors(child)] loop: [skip] is set when some
    predecessor is not in [visited]. *)
Definition skip (G : graph) (visited : list Node) (child : Node) : bool :=
  existsb (fun pred => negb (mem pred visited)) (predecessors G child).

(** [while stack:].  An entry is [(parent, children)], with what is left
    of [iter(G.neighbors(parent))]; [out] is what was yielded so far. *)
Fixpoint dfs_loop (fuel : nat) (G : graph)
         (condition : option (Node -> Node -> bool))
         (stack : list (Node * list Node))
         (visited out : list Node) : option (list Node * list Node) :=
  match stack with
  | [] => Some (visited, out)
  | (parent, children) :: rest =>
      match fuel with
      | O => None
      | S fuel' =>
          match children with
          | [] => dfs_loop fuel' G condition rest visited out
          | child :: children' =>
              let stack' := (parent, children') :: rest in
              if mem child visited
              then dfs_loop fuel' G condition stack' visited out
              else if skip G visited child
              then dfs_loop fuel' G condition stack' visited out
              else
                let visited' := child :: visited in
                if condition_holds condition parent child
                then dfs_loop fuel' G condition
                       ((child, neighbors G child) :: stack')
                       visited' (out ++ [child])
                else dfs_loop fuel' G condition stack' visited' out
          end
      end
  end.

(** [for start in nodes:]. *)
Fixpoint dfs_starts (fuel : nat) (G : graph)
         (condition : option (Node -> Node -> bool))
         (starts visited out : list Node) : option (list Node) :=
  match starts with
  | [] => Some out
  | start :: starts' =>
      if mem start visited
      then dfs_starts fuel G condition starts' visited out
      else
        match dfs_loop fuel G condition [(start, neighbors G start)]
                       (start :: visited) (out ++ [start]) with
        | None => None
        | Some (visited', out') =>
            dfs_starts fuel G condition starts' visited' out'
        end
  end.

(** [dfs_topological_sort(G, sources, condition)]: the list of the nodes
    it yields. *)
Definition dfs_topological_sort (fuel : nat) (G : graph)
           (sources : option Sources)
           (condition : option (Node -> Node -> bool))
  : option (list Node) :=
  dfs_starts fuel G condition (start_nodes G sources) [] [].

End nxutil_dfs.

(** ** Redirecting edges and replacing a subgraph *)
Module nxutil_edit.
Import gr.

(** The edge that [change_edge_dest] inserts for [e]. *)
Definition with_dst (e : edge) (node_b : Node) : edge :=
  match e with
  | MultiConnectorEdge s sc _ dc d => MultiConnectorEdge s sc node_b dc d
  | Edge s _ d => Edge s node_b d
  end.

(** The edge that [change_edge_src] inserts for [e]. *)
Definition with_src (e : edge) (node_b : Node) : edge :=
  match e with
  | MultiConnectorEdge _ sc t dc d => MultiConnectorEdge node_b sc t dc d
  | Edge _ t d => Edge node_b t d
  end.

(** [change_edge_dest(graph, node_a, node_b)]. *)
Definition change_edge_dest (graph : gr.graph) (node_a node_b : Node)
  : gr.graph :=
  let edges := in_edges graph node_a in
  fold_left (fun g e => add_edge (remove_edge g e) (with_dst e node_b))
            edges graph.

(** [change_edge_src(graph, node_a, node_b)]. *)
Definition change_edge_src (graph : gr.graph) (node_a node_b : Node)
  : gr.graph :=
  let edges := out_edges graph node_a in
  fold_left (fun g e => add_edge (remove_edge g e) (with_src e node_b))
            edges graph.

(** [find_source_nodes(graph)]. *)
Definition find_source_nodes (graph : gr.graph) : list Node :=
  filter (fun n => Nat.eqb (in_degree graph n) 0) (nodes graph).

(** [find_sink_nodes(graph)]. *)
Definition find_sink_nodes (graph : gr.graph) : list Node :=
  filter (fun n => Nat.eqb (out_degree graph n) 0) (nodes graph).

(** Steps 5 to 8 of [replace_subgraph], once the four nodes are found. *)
Definition splice (graph old new : gr.graph)
           (old_source old_sink new_source new_sink : Node) : gr.graph :=
  let g1 := add_nodes_from graph (nodes new) in
  let g2 := fold_left add_edge (edges new) g1 in
  let g3 := change_edge_dest g2 old_source new_source in
  let g4 := change_edge_src g3 old_sink new_sink in
  remove_nodes_from g4 (nodes old).

(** [replace_subgraph(graph, old, new)]: the value returned and the graph
    afterwards. *)
Definition replace_subgraph (graph old new : gr.graph) : bool * gr.graph :=
  match find_source_nodes old with
  | [old_source] =>
      match find_sink_nodes old with
      | [old_sink] =>
          match find_source_nodes new with
          | [new_source] =>
              match find_sink_nodes new with
              | [new_sink] =>
                  (true, splice graph old new
                                old_source old_sink new_source new_sink)
              | _ => (false, graph)
              end
          | _ => (false, graph)
          end
      | _ => (false, graph)
      end
  | _ => (false, graph)
  end.

End nxutil_edit.

(** ** [node_path_graph] and the graphs of the examples *)
Module nxutil_path.
Import gr.

(** Step 4 of [node_path_graph]: an edge with no payload from each node to
    the next. *)
Fixpoint add_path_edges (path : graph) (input_nodes : list Node) : graph :=
  match input_nodes with
  | a :: (b :: _) as rest => add_path_edges (add_edge path (Edge a b None)) rest
  | _ => path
  end.

(** [node_path_graph(input_nodes)]. *)
Definition node_path_graph (input_nodes : list Node) : graph :=
  add_path_edges (add_nodes_from (mk_graph [] []) input_nodes) input_nodes.

End nxutil_path.

Module examples.
Import gr nxutil_path.

(** [0 -> 1]. *)
Definition two_path : graph := node_path_graph [0; 1]%nat.

(** [0 -> 1] and back, [1 -> 0]. *)
Definition two_cycle : graph :=
  add_edge (node_path_graph [0; 1]%nat) (Edge 1%nat 0%nat None).

(** [0 -> 1 -> 2] with a second way into 2, [0 -> 2]. *)
Definition triangle : graph :=
  add_edge (node_path_graph [0; 1; 2]%nat) (Edge 0%nat 2%nat None).

(** [0 -> 1 -> 2 -> 3]. *)
Definition four_path : graph := node_path_graph [0; 1; 2; 3]%nat.

(** Two nodes and no edge: two sources and two sinks. *)
Definition two_nodes : graph := mk_graph [5; 6]%nat [].

End examples.

(** *** A graph whose nodes are not listed in the order of its edges

    Node 1 was added first, then node 0, then the edge [0 -> 1]. *)
Module late_source.
Import gr.

Definition graph : gr.graph :=
  add_edge (add_nodes_from (mk_graph [] []) [1; 0]%nat)
           (Edge 0%nat 1%nat None).

End late_source.

(** ** Maps and [merge_maps] *)

(** The classes [Map], [MapEntry] and [MapExit] of [dace.graph.nodes] are
    imported by [nxutil.py] and are not part of it. *)
Module dace_nodes.
Section Nodes.
Variables Params Ranges : Type.

(** Modelled from the spec: the descriptor of a scope, [dace.graph.nodes.Map],
    with the attributes listed for a scope node; the scheduling kind and the
    debug information are opaque. *)
Record Map : Type := mk_Map {
  label : String.string;
  params : Params;
  range : Ranges;
  schedule : nat;
  unroll : bool;
  is_async : bool;
  flatten : bool;
  debuginfo : option nat
}.

(** Modelled from the spec: a [MapEntry] or [MapExit] object: its identity
    as a node, its [map] and its two connector sets. *)
Record MapNode : Type := mk_MapNode {
  ident : gr.Node;
  map : Map;
  in_connectors : list String.string;
  out_connectors : list String.string
}.

End Nodes.
End dace_nodes.

Module nxutil_merge.
Import gr nxutil_edit.
Import String.

(** What a Python statement of [merge_maps] can raise. *)
Inductive exn : Type := AttributeError | TypeError | IndexError.

Inductive result (A : Type) : Type :=
| Ok (a : A)
| Raise (x : exn).
Arguments Ok {A} a.
Arguments Raise {A} x.

Definition bind {A B : Type} (r : result A) (k : A -> result B)
  : result B :=
  match r with
  | Ok a => k a
  | Raise x => Raise x
  end.

Notation "x <- r ;; k" := (bind r (fun x => k))
  (at level 61, r at next level, right associativity).

(** A [for] loop over a list whose body can raise. *)
Fixpoint for_each {A S : Type} (body : S -> A -> result S) (l : list A)
         (s : S) : result S :=
  match l with
  | [] => Ok s
  | a :: l' => s' <- body s a ;; for_each body l' s'
  end.

(** [e.src_conn] and [e.dst_conn]: a plain edge has no such attribute. *)
Definition get_src_conn (e : edge) : result Conn :=
  match src_conn e with
  | Some c => Ok c
  | None => Raise AttributeError
  end.

Definition get_dst_conn (e : edge) : result Conn :=
  match dst_conn e with
  | Some c => Ok c
  | None => Raise AttributeError
  end.

(** [conn[n:]]; slicing [None] is a [TypeError]. *)
Fixpoint string_drop (n : nat) (s : String.string) : String.string :=
  match n, s with
  | O, _ => s
  | S n', String.String _ s' => string_drop n' s'
  | S _, String.EmptyString => String.EmptyString
  end.

Definition slice_from (n : nat) (conn : Conn) : result String.string :=
  match conn with
  | Some name => Ok (string_drop n name)
  | None => Raise TypeError
  end.

(** [c == name] for a connector [c], a name or [None]. *)
Definition conn_is (name : String.string) (c : Conn) : bool :=
  match c with
  | Some s => String.eqb s name
  | None => false
  end.

(** [[e for e in inner if e.attr == name][0]]: every edge of [inner] is
    asked for its attribute, then the first match is taken. *)
Definition first_match (attr : edge -> option Conn) (name : String.string)
           (inner : list edge) : result edge :=
  if forallb (fun e => match attr e with Some _ => true | None => false end)
             inner
  then
    match filter (fun e => match attr e with
                           | Some c => conn_is name c
                           | None => false
                           end) inner with
    | inner_edge :: _ => Ok inner_edge
    | [] => Raise IndexError
    end
  else Raise AttributeError.

(** The body of the loop "Redirect inner in edges". *)
Definition redirect_inner_in (merged_entry : Node)
           (inner_in_edges : list edge) (graph : gr.graph) (edge : gr.edge)
  : result gr.graph :=
  edge_dst_conn <- get_dst_conn edge ;;
  in_conn_num <- slice_from 3 edge_dst_conn ;;
  let out_conn := String.append "OUT_"%string in_conn_num in
  inner_edge <- first_match src_conn out_conn inner_in_edges ;;
  let graph := remove_edge graph edge in
  let graph := remove_edge graph inner_edge in
  edge_src_conn <- get_src_conn edge ;;
  inner_dst_conn <- get_dst_conn inner_edge ;;
  Ok (add_edge graph
        (MultiConnectorEdge merged_entry edge_src_conn (dst inner_edge)
                            inner_dst_conn (data inner_edge))).

(** The body of the loop "Redirect inner out edges". *)
Definition redirect_inner_out (merged_exit : Node)
           (inner_out_edges : list edge) (graph : gr.graph) (edge : gr.edge)
  : result gr.graph :=
  edge_src_conn <- get_src_conn edge ;;
  out_conn_num <- slice_from 4 edge_src_conn ;;
  let in_conn := String.append "IN_"%string out_conn_num in
  inner_edge <- first_match dst_conn in_conn inner_out_edges ;;
  let graph := remove_edge graph edge in
  let graph := remove_edge graph inner_edge in
  inner_src_conn <- get_src_conn inner_edge ;;
  edge_dst_conn <- get_dst_conn edge ;;
  Ok (add_edge graph
        (MultiConnectorEdge (src inner_edge) inner_src_conn merged_exit
                            edge_dst_conn (data inner_edge))).

Section MergeMaps.
Variables Params Ranges : Type.

Abbreviation Map := (dace_nodes.Map Params Ranges).
Abbreviation MapNode := (dace_nodes.MapNode Params Ranges).

(** The map that [merge_maps] builds. *)
Definition merged_map_of (outer_map inner_map : Map)
           (param_merge : Params -> Params -> Params)
           (range_merge : Ranges -> Ranges -> Ranges) : Map :=
  dace_nodes.mk_Map _ _
    (String.append "_merged_"%string
       (String.append (dace_nodes.label _ _ outer_map)
          (String.append "_"%string (dace_nodes.label _ _ inner_map))))
    (param_merge (dace_nodes.params _ _ outer_map)
                 (dace_nodes.params _ _ inner_map))
    (range_merge (dace_nodes.range _ _ outer_map)
                 (dace_nodes.range _ _ inner_map))
    (dace_nodes.schedule _ _ outer_map)
    (dace_nodes.unroll _ _ outer_map)
    (dace_nodes.is_async _ _ outer_map)
    (dace_nodes.flatten _ _ outer_map)
    (dace_nodes.debuginfo _ _ outer_map).

(** [merge_maps(graph, outer_map_entry, outer_map_exit, inner_map_entry,
    inner_map_exit, param_merge, range_merge)].  [entry_id] and [exit_id]
    are the identities of the two objects that [MapEntry(merged_map)] and
    [MapExit(merged_map)] create.  The result is the graph afterwards and
    the pair returned. *)
Definition merge_maps (graph : gr.graph)
           (outer_map_entry outer_map_exit
            inner_map_entry inner_map_exit : MapNode)
           (param_merge : Params -> Params -> Params)
           (range_merge : Ranges -> Ranges -> Ranges)
           (entry_id exit_id : Node)
  : result (gr.graph * (MapNode * MapNode)) :=
  let outer_map := dace_nodes.map _ _ outer_map_entry in
  let inner_map := dace_nodes.map _ _ inner_map_entry in
  let merged_map :=
    merged_map_of outer_map inner_map param_merge range_merge in
  let merged_entry :=
    dace_nodes.mk_MapNode _ _ entry_id merged_map
      (dace_nodes.in_connectors _ _ outer_map_entry)
      (dace_nodes.out_connectors _ _ outer_map_entry) in
  let merged_exit :=
    dace_nodes.mk_MapNode _ _ exit_id merged_map
      (dace_nodes.in_connectors _ _ outer_map_exit)
      (dace_nodes.out_connectors _ _ outer_map_exit) in
  let oe := dace_nodes.ident _ _ outer_map_entry in
  let ox := dace_nodes.ident _ _ outer_map_exit in
  let ie := dace_nodes.ident _ _ inner_map_entry in
  let ix := dace_nodes.ident _ _ inner_map_exit in
  let graph := add_nodes_from graph [entry_id; exit_id] in
  let inner_in_edges := out_edges graph ie in
  graph <- for_each (redirect_inner_in entry_id inner_in_edges)
                    (edges_between graph oe ie) graph ;;
  let inner_out_edges := in_edges graph ix in
  graph <- for_each (redirect_inner_out exit_id inner_out_edges)
                    (edges_between graph ix ox) graph ;;
  let graph := change_edge_dest graph oe entry_id in
  let graph := change_edge_src graph ox exit_id in
  let graph := remove_nodes_from graph [oe; ox; ie; ix] in
  Ok (graph, (merged_entry, merged_exit)).

End MergeMaps.
End nxutil_merge.

(** *** Two nested maps

    An array node 0 feeds the outer entry 1, the inner entry 2 and a tasklet
    3; the result leaves through the inner exit 4 and the outer exit 5 into
    the array node 6.  Each entry and exit passes its data from [IN_0] to
    [OUT_0].  The outer map has the parameter [i] over [0:N], the inner map
    [j] over [0:M]. *)
Module nested_maps.
Import gr.
Import (notations) String.
Local Open Scope string_scope.

Definition graph : gr.graph :=
  mk_graph [0; 1; 2; 3; 4; 5; 6]%nat
    [ MultiConnectorEdge 0%nat None 1%nat (Some "IN_0") (Some 10%nat);
      MultiConnectorEdge 1%nat (Some "OUT_0") 2%nat (Some "IN_0")
                         (Some 11%nat);
      MultiConnectorEdge 2%nat (Some "OUT_0") 3%nat (Some "in")
                         (Some 12%nat);
      MultiConnectorEdge 3%nat (Some "out") 4%nat (Some "IN_0")
                         (Some 13%nat);
      MultiConnectorEdge 4%nat (Some "OUT_0") 5%nat (Some "IN_0")
                         (Some 14%nat);
      MultiConnectorEdge 5%nat (Some "OUT_0") 6%nat None (Some 15%nat) ].

Definition Params : Type := list String.string.
Definition Ranges : Type := list (String.string * String.string).

Definition outer_map : dace_nodes.Map Params Ranges :=
  dace_nodes.mk_Map _ _ "outer" ["i"] [("0", "N")] 1%nat false false false
                    None.

Definition inner_map : dace_nodes.Map Params Ranges :=
  dace_nodes.mk_Map _ _ "inner" ["j"] [("0", "M")] 2%nat true false false
                    None.

Definition outer_map_entry : dace_nodes.MapNode Params Ranges :=
  dace_nodes.mk_MapNode _ _ 1%nat outer_map ["IN_0"] ["OUT_0"].

Definition outer_map_exit : dace_nodes.MapNode Params Ranges :=
  dace_nodes.mk_MapNode _ _ 5%nat outer_map ["IN_0"] ["OUT_0"].

Definition inner_map_entry : dace_nodes.MapNode Params Ranges :=
  dace_nodes.mk_MapNode _ _ 2%nat inner_map ["IN_0"] ["OUT_0"].

Definition inner_map_exit : dace_nodes.MapNode Params Ranges :=
  dace_nodes.mk_MapNode _ _ 4%nat inner_map ["IN_0"] ["OUT_0"].

(** The default [param_merge], [p1 + p2]. *)
Definition param_merge (p1 p2 : Params) : Params := (p1 ++ p2)%list.

(** The default [range_merge], the ranges of [r1] and then those of [r2]. *)
Definition range_merge (r1 r2 : Ranges) : Ranges := (r1 ++ r2)%list.

(** The graph after the two maps are merged into the new entry 7 and the
    new exit 8. *)
Definition merged_graph : gr.graph :=
  mk_graph [0; 3; 6; 7; 8]%nat
    [ MultiConnectorEdge 7%nat (Some "OUT_0") 3%nat (Some "in")
                         (Some 12%nat);
      MultiConnectorEdge 3%nat (Some "out") 8%nat (Some "IN_0")
                         (Some 13%nat);
      MultiConnectorEdge 0%nat None 7%nat (Some "IN_0") (Some 10%nat);
      MultiConnectorEdge 8%nat (Some "OUT_0") 6%nat None (Some 15%nat) ].

End nested_maps.

(** *** Two nested maps whose connectors do not match

    The graph of [nested_maps], except that the inner entry passes its data
    on from [OUT_1]: the edge from the outer entry into [IN_0] of the inner
    entry has no edge out of [OUT_0]. *)
Module mismatched_maps.
Import gr.
Import (notations) String.
Local Open Scope string_scope.

Definition graph : gr.graph :=
  mk_graph [0; 1; 2; 3; 4; 5; 6]%nat
    [ MultiConnectorEdge 0%nat None 1%nat (Some "IN_0") (Some 10%nat);
      MultiConnectorEdge 1%nat (Some "OUT_0") 2%nat (Some "IN_0")
                         (Some 11%nat);
      MultiConnectorEdge 2%nat (Some "OUT_1") 3%nat (Some "in")
                         (Some 12%nat);
      MultiConnectorEdge 3%nat (Some "out") 4%nat (Some "IN_0")
                         (Some 13%nat);
      MultiConnectorEdge 4%nat (Some "OUT_0") 5%nat (Some "IN_0")
                         (Some 14%nat);
      MultiConnectorEdge 5%nat (Some "OUT_0") 6%nat None (Some 15%nat) ].

End mismatched_maps.

(** * Notions used in the statements and in the proofs *)

(** ** For the depth-limited search *)

Section SearchNotions.
Import nxutil_search.
Context {N : Type} `{SearchNode N}.

(** Levels still to be expanded below the children of a stack entry at
    [cur_depth]. *)
Definition levels_left (depth cur_depth : Z) : nat :=
  Z.to_nat (depth - 1 - cur_depth).

(** The order in which [depth_limited_search] sees the nodes: the source,
    then the occurrences below it. *)
Definition seen_order (depth : Z) (source : N) : list N :=
  source :: walk (Z.to_nat depth) source.

(** [c] is the first of the nodes in [seen] that has the greatest value. *)
Definition first_best (seen : list N) (c : N) : Prop :=
  exists l1 l2 : list N,
    seen = l1 ++ c :: l2
    /\ (forall x, In x l1 -> evaluate x < evaluate c)
    /\ (forall x, In x l2 -> evaluate x <= evaluate c).

(** What the loop of [depth_limited_search] keeps true of its variables. *)
Definition search_inv (st : search_state) : Prop :=
  candidate_value st = evaluate (candidate st)
  /\ first_best (evaluated st) (candidate st).

End SearchNotions.

(** ** For [dfs_topological_sort] *)

Section DfsNotions.
Import gr.
Variable G : graph.

(** Every node that can become a child. *)
Definition targets : list Node := nodup Nat.eq_dec (map dst (edges G)).

(** The iterations that a stack entry for [n] can take. *)
Definition weight (n : Node) : nat := S (length (neighbors G n)).

Fixpoint total_weight (l : list Node) : nat :=
  match l with
  | [] => O
  | u :: l' => (weight u + total_weight l')%nat
  end.

(** What the nodes of [U] not yet visited can still cost. *)
Definition unvisited_weight (U visited : list Node) : nat :=
  total_weight (filter (fun u => negb (mem u visited)) U).

(** What the entries on the stack can still cost. *)
Fixpoint stack_weight (stack : list (Node * list Node)) : nat :=
  match stack with
  | [] => O
  | entry :: rest => (S (length (snd entry)) + stack_weight rest)%nat
  end.

(** Fuel that is enough for [dfs_topological_sort] on [G]. *)
Definition dfs_fuel : nat :=
  (S (length (edges G)) + total_weight targets)%nat.

(** No node was yielded twice, and every yielded node is in [visited]. *)
Definition yields_once (visited out : list Node) : Prop :=
  NoDup out /\ incl out visited.

(** Every node in [out], other than the nodes of [starts], comes after all
    of its predecessors. *)
Definition preds_first (starts out : list Node) : Prop :=
  forall pre n post, out = pre ++ n :: post ->
    In n starts \/ forall p, In p (predecessors G n) -> In p pre.

(** Without a [condition] every visited node was yielded. *)
Definition gated (starts visited out : list Node) : Prop :=
  incl visited out /\ preds_first starts out.

End DfsNotions.

(** ** For the edits of the graph *)

Section EditNotions.
Import gr nxutil_edit.

(** The loop shared by [change_edge_dest] and [change_edge_src]: each edge
    of the list is removed, then its replacement is inserted. *)
Definition redirect (f : edge -> edge) (L : list edge) (g : graph) : graph :=
  fold_left (fun g e => add_edge (remove_edge g e) (f e)) L g.

(** Neither end of [e] is in [O]. *)
Definition outside (O : list Node) (e : edge) : bool :=
  negb (mem (src e) O) && negb (mem (dst e) O).

(** Both ends of [e] are in [O]. *)
Definition inside (O : list Node) (e : edge) : bool :=
  mem (src e) O && mem (dst e) O.

(** The edges after [change_edge_dest] and after [change_edge_src]. *)
Definition redirected_dst (a b : Node) (E : list edge) : list edge :=
  filter (fun e => negb (Nat.eqb (dst e) a)) E
  ++ map (fun e => with_dst e b) (filter (fun e => Nat.eqb (dst e) a) E).

Definition redirected_src (a b : Node) (E : list edge) : list edge :=
  filter (fun e => negb (Nat.eqb (src e) a)) E
  ++ map (fun e => with_src e b) (filter (fun e => Nat.eqb (src e) a) E).

(** All nodes of [g] and all ends of its edges satisfy [S]. *)
Definition within (S : Node -> Prop) (g : graph) : Prop :=
  (forall n, In n (nodes g) -> S n)
  /\ (forall e, In e (edges g) -> S (src e) /\ S (dst e)).

(** A graph all of whose edges join nodes of the graph. *)
Definition closed (g : graph) : Prop :=
  forall e, In e (edges g) -> In (src e) (nodes g) /\ In (dst e) (nodes g).

(** What [change_edge_dest] and [change_edge_src] do to one edge. *)
Definition move_dst (a b : Node) (e : edge) : edge :=
  if Nat.eqb (dst e) a then with_dst e b else e.

Definition move_src (a b : Node) (e : edge) : edge :=
  if Nat.eqb (src e) a then with_src e b else e.

(** The edges after steps 6 to 8 of [replace_subgraph], edge by edge. *)
Definition pass (O : list Node) (a b c d : Node) (E : list edge)
  : list edge :=
  filter (outside O) (map (fun e => move_src c d (move_dst a b e)) E).

(** An edge of a dataflow graph, with connector attributes. *)
Definition is_connector_edge (e : edge) : bool :=
  match e with
  | MultiConnectorEdge _ _ _ _ _ => true
  | Edge _ _ _ => false
  end.

(** What the first loop of [merge_maps] keeps true, for the second loop to
    rely on: the edges from the inner to the outer exit are untouched, and
    every connector of the inner exit that had an edge still has one. *)
Definition exit_side_kept (ix ox : Node) (graph g : gr.graph) : Prop :=
  (forall e, In e (edges g) -> is_connector_edge e = true)
  /\ edges_between g ix ox = edges_between graph ix ox
  /\ (forall e, In e (in_edges graph ix) ->
                exists e', In e' (in_edges g ix)
                           /\ dst_conn e' = dst_conn e).

End EditNotions.

(** ** For the further properties of [dfs_topological_sort] *)

Section DfsMoreNotions.
Import gr nxutil_dfs.
Variable G : graph.
Variable condition : option (Node -> Node -> bool).

(** Every node in [out], other than the nodes of [starts], comes after a
    node of which it is a neighbor and from which the [condition] lets it
    be entered. *)
Definition descends (starts out : list Node) : Prop :=
  forall pre n post, out = pre ++ n :: post ->
    In n starts
    \/ exists p, In p pre /\ In n (neighbors G p)
                 /\ condition_holds condition p n = true.

(** The parent of every stack entry was yielded, and the children left in
    the entry are neighbors of the parent. *)
Definition stack_sound (stack : list (Node * list Node))
           (out : list Node) : Prop :=
  forall entry, In entry stack ->
    In (fst entry) out /\ incl (snd entry) (neighbors G (fst entry)).

(** Every neighbor of a visited node is visited, or waits for a predecessor
    that is not visited, or is still to come in an entry of the stack. *)
Definition examined (stack : list (Node * list Node))
           (visited : list Node) : Prop :=
  forall p v, In p visited -> In v (neighbors G p) ->
    In v visited
    \/ (exists q, In q (predecessors G v) /\ ~ In q visited)
    \/ (exists entry, In entry stack /\ In v (snd entry)).

(** [rank] grows along every edge of the graph, so the graph has no
    cycle. *)
Definition acyclic_by (rank : Node -> nat) : Prop :=
  forall e, In e (edges G) -> (rank (src e) < rank (dst e))%nat.

End DfsMoreNotions.

(** ** For the further properties of the edits *)

Section EditMoreNotions.
Import gr.

(** The edges of the path through the nodes of a list: one edge, with no
    payload, from each node to the next. *)
Fixpoint consecutive (l : list Node) : list edge :=
  match l with
  | a :: (b :: _) as rest => Edge a b None :: consecutive rest
  | _ => []
  end.

End EditMoreNotions.

(** * Properties *)

(** ** Depth-limited search and enumeration *)

Section SearchFacts.
Import nxutil_search.
Context {N : Type} `{SearchNode N}.

Lemma levels_left_stop (depth cur_depth : Z) :
  (cur_depth <? depth - 1) = false -> levels_left depth cur_depth = O.
Proof.
  intros Hlt. apply Z.ltb_ge in Hlt. unfold levels_left. lia.
Qed.

Lemma levels_left_go (depth cur_depth : Z) :
  (cur_depth <? depth - 1) = true ->
  levels_left depth cur_depth = S (levels_left depth (cur_depth + 1)).
Proof.
  intros Hlt. apply Z.ltb_lt in Hlt. unfold levels_left.
  replace (depth - 1 - cur_depth) with (Z.succ (depth - 1 - (cur_depth + 1)))
    by lia.
  rewrite Z2Nat.inj_succ by lia. reflexivity.
Qed.

Lemma below_cons (k : nat) (c : N) (cs : list N) :
  below k (c :: cs) = c :: walk k c ++ below k cs.
Proof. reflexivity. Qed.

Lemma walk_succ (k : nat) (n : N) :
  walk (S k) n = below k (children_iter n).
Proof. reflexivity. Qed.

(** One stack entry is worked off in finitely many iterations, and what it
    does to the state is a fold of [consider] over the occurrences below
    it. *)
Lemma search_loop_entry (depth : Z) (k : nat) :
  forall (cur_depth : Z) (children : list N) (node : N)
         (rest : list frame) (st : search_state),
    levels_left depth cur_depth = k ->
    exists f : nat, forall fuel : nat,
      search_loop (f + fuel) depth ((node, cur_depth, children) :: rest) st
      = search_loop fuel depth rest
          (fold_left consider (below k children) st).
Proof.
  induction k as [|k IHk]; intros cur_depth children;
    induction children as [|c cs IHcs]; intros node rest st Hk.
  - exists 1%nat. intros fuel. reflexivity.
  - destruct (IHcs node rest (consider st c) Hk) as [f Hf].
    exists (S f). intros fuel. cbn [Nat.add search_loop].
    destruct (cur_depth <? depth - 1) eqn:Hlt.
    + apply levels_left_go in Hlt. congruence.
    + rewrite Hf. reflexivity.
  - exists 1%nat. intros fuel. reflexivity.
  - destruct (cur_depth <? depth - 1) eqn:Hlt.
    2:{ apply levels_left_stop in Hlt. congruence. }
    pose proof (levels_left_go _ _ Hlt) as Hgo.
    assert (Hk' : levels_left depth (cur_depth + 1) = k) by congruence.
    destruct (IHcs node rest
                (fold_left consider (walk (S k) c) (consider st c)) Hk)
      as [f2 Hf2].
    destruct (IHk (cur_depth + 1) (children_iter c) c
                ((node, cur_depth, cs) :: rest) (consider st c) Hk')
      as [f1 Hf1].
    exists (S (f1 + f2)). intros fuel. cbn [Nat.add search_loop].
    rewrite Hlt. rewrite <- Nat.add_assoc, Hf1, Hf2.
    rewrite below_cons. cbn [fold_left]. rewrite fold_left_app.
    reflexivity.
Qed.

Lemma search_loop_empty (fuel : nat) (depth : Z) (st : search_state) :
  search_loop fuel depth [] st = Some st.
Proof. destruct fuel; reflexivity. Qed.

Lemma depth_limited_search_run_eq (source : N) (depth : Z) :
  0 <= depth ->
  exists f : nat, forall fuel : nat, (f <= fuel)%nat ->
    depth_limited_search_run fuel source depth
    = Some (fold_left consider (walk (Z.to_nat depth) source)
              (mk_search_state source (evaluate source) [source])).
Proof.
  intros Hd. unfold depth_limited_search_run.
  destruct (depth =? 0) eqn:H0.
  - apply Z.eqb_eq in H0. subst depth. exists O. intros fuel _.
    reflexivity.
  - apply Z.eqb_neq in H0.
    destruct (search_loop_entry depth (levels_left depth 0) 0
                (children_iter source) source []
                (mk_search_state source (evaluate source) [source])
                eq_refl) as [f Hf].
    exists f. intros fuel Hfuel.
    replace fuel with (f + (fuel - f))%nat by lia.
    rewrite Hf, search_loop_empty.
    replace (Z.to_nat depth) with (S (levels_left depth 0)).
    + reflexivity.
    + unfold levels_left. lia.
Qed.

End SearchFacts.

Section SearchResults.
Import nxutil_search.
Context {N : Type} `{SearchNode N}.

Lemma dfs_iter_loop_entry (depth : Z) (k : nat) :
  forall (cur_depth : Z) (children : list N) (node : N)
         (rest : list frame) (out : list N),
    levels_left depth cur_depth = k ->
    exists f : nat, forall fuel : nat,
      dfs_iter_loop (f + fuel) depth ((node, cur_depth, children) :: rest)
                    out
      = dfs_iter_loop fuel depth rest (out ++ below k children).
Proof.
  induction k as [|k IHk]; intros cur_depth children;
    induction children as [|c cs IHcs]; intros node rest out Hk.
  - exists 1%nat. intros fuel. cbn. now rewrite app_nil_r.
  - destruct (IHcs node rest (out ++ [c]) Hk) as [f Hf].
    exists (S f). intros fuel. cbn [Nat.add dfs_iter_loop].
    destruct (cur_depth <? depth - 1) eqn:Hlt.
    + apply levels_left_go in Hlt. congruence.
    + rewrite Hf, below_cons, <- app_assoc. reflexivity.
  - exists 1%nat. intros fuel. cbn. now rewrite app_nil_r.
  - destruct (cur_depth <? depth - 1) eqn:Hlt.
    2:{ apply levels_left_stop in Hlt. congruence. }
    pose proof (levels_left_go _ _ Hlt) as Hgo.
    assert (Hk' : levels_left depth (cur_depth + 1) = k) by congruence.
    destruct (IHcs node rest ((out ++ [c]) ++ walk (S k) c) Hk)
      as [f2 Hf2].
    destruct (IHk (cur_depth + 1) (children_iter c) c
                ((node, cur_depth, cs) :: rest) (out ++ [c]) Hk')
      as [f1 Hf1].
    exists (S (f1 + f2)). intros fuel. cbn [Nat.add dfs_iter_loop].
    rewrite Hlt. rewrite <- Nat.add_assoc, Hf1, <- walk_succ, Hf2.
    rewrite below_cons. rewrite <- !app_assoc. reflexivity.
Qed.

Lemma dfs_iter_loop_empty (fuel : nat) (depth : Z) (out : list N) :
  dfs_iter_loop fuel depth [] out = Some out.
Proof. destruct fuel; reflexivity. Qed.

(** For a depth other than 0 the generator yields the occurrences strictly
    below the source, and not the source. *)
Lemma depth_limited_dfs_iter_below (source : N) (depth : Z) :
  0 < depth ->
  exists f : nat, forall fuel : nat, (f <= fuel)%nat ->
    depth_limited_dfs_iter fuel source depth
    = Some (walk (Z.to_nat depth) source).
Proof.
  intros Hd. unfold depth_limited_dfs_iter.
  destruct (depth =? 0) eqn:H0; [apply Z.eqb_eq in H0; lia|].
  destruct (dfs_iter_loop_entry depth (levels_left depth 0) 0
              (children_iter source) source [] [] eq_refl) as [f Hf].
  exists f. intros fuel Hfuel.
  replace fuel with (f + (fuel - f))%nat by lia.
  rewrite Hf, dfs_iter_loop_empty.
  replace (Z.to_nat depth) with (S (levels_left depth 0))
    by (unfold levels_left; lia).
  reflexivity.
Qed.

(** [m] occurs in the expansion to [k] levels exactly when it is reachable
    within [k] edges. *)
Lemma in_walk_reach (k : nat) :
  forall n m : N, In m (n :: walk k n) <-> reach k n m.
Proof.
  induction k as [|k IHk]; intros n m; split.
  - intros [->|[]]. constructor.
  - intros Hr. inversion Hr; subst. now left.
  - intros [->|Hin]; [constructor|].
    cbn in Hin. apply in_flat_map in Hin as [c [Hc Hin]].
    apply reach_step with c; [assumption|]. now apply IHk.
  - intros Hr. inversion Hr as [|k' n' c m' Hc Hr']; subst.
    + now left.
    + right. cbn. apply in_flat_map. exists c. split; [assumption|].
      now apply IHk.
Qed.

Lemma consider_inv (st : search_state) (child : N) :
  search_inv st -> search_inv (consider st child).
Proof.
  intros [Hv (l1 & l2 & Hseen & Hlt & Hle)]. unfold consider.
  destruct (evaluate child >? candidate_value st) eqn:Hgt; cbn.
  - apply Z.gtb_lt in Hgt. split; [reflexivity|].
    exists (evaluated st), []. cbn. repeat split; [|intros x []].
    intros x Hx. rewrite Hseen in Hx. apply in_app_or in Hx.
    destruct Hx as [Hx|[Heq|Hx]].
    + specialize (Hlt x Hx). lia.
    + rewrite <- Heq. lia.
    + specialize (Hle x Hx). lia.
  - assert (evaluate child <= candidate_value st)
      by (destruct (Z.gtb_spec (evaluate child) (candidate_value st));
          [discriminate|lia]).
    split; [assumption|].
    exists l1, (l2 ++ [child]). repeat split.
    + rewrite Hseen, <- app_assoc. reflexivity.
    + assumption.
    + intros x Hx. apply in_app_or in Hx. destruct Hx as [Hx|[Heq|[]]].
      * now apply Hle.
      * rewrite <- Heq. cbn. lia.
Qed.

Lemma fold_consider_inv (l : list N) :
  forall st, search_inv st -> search_inv (fold_left consider l st).
Proof.
  induction l as [|c l IH]; intros st Hst; cbn; [assumption|].
  apply IH. now apply consider_inv.
Qed.

Lemma consider_evaluated (st : search_state) (child : N) :
  evaluated (consider st child) = evaluated st ++ [child].
Proof. unfold consider. now destruct (_ >? _). Qed.

Lemma fold_consider_evaluated (l : list N) :
  forall st, evaluated (fold_left consider l st) = evaluated st ++ l.
Proof.
  induction l as [|c l IH]; intros st; cbn.
  - now rewrite app_nil_r.
  - rewrite IH, consider_evaluated, <- app_assoc. reflexivity.
Qed.

Lemma search_inv_init (source : N) :
  search_inv (mk_search_state source (evaluate source) [source]).
Proof.
  split; [reflexivity|]. exists [], []. cbn.
  repeat split; intros x [].
Qed.


(** C7. [depth_limited_search(n, 0)] returns [(n, n.evaluate())]; for a
    depth [d >= 0] the search returns, given enough fuel, a node reachable
    within [d] edges together with its value, that value is at least the
    value of every node reachable within [d] edges (so it is the maximum
    over them), and the node is the first one with that value in the order
    in which the nodes are seen. *)
Theorem depth_limited_search_maximum (source : N) (d : Z) (Hd : 0 <= d) :
  (forall fuel : nat,
      depth_limited_search fuel source 0 = Some (source, evaluate source))
  /\ exists f : nat, forall fuel : nat, (f <= fuel)%nat ->
       exists cand : N,
         depth_limited_search fuel source d = Some (cand, evaluate cand)
         /\ reach (Z.to_nat d) source cand
         /\ (forall n, reach (Z.to_nat d) source n ->
                       evaluate n <= evaluate cand)
         /\ first_best (seen_order d source) cand.
Proof.
  split; [reflexivity|].
  destruct (depth_limited_search_run_eq source d Hd) as [f Hf].
  exists f. intros fuel Hfuel. unfold depth_limited_search.
  rewrite (Hf fuel Hfuel). cbn [option_map].
  set (st := fold_left consider _ _).
  assert (Hinv : search_inv st)
    by (apply fold_consider_inv, search_inv_init).
  assert (Hev : evaluated st = seen_order d source)
    by (unfold st; rewrite fold_consider_evaluated; reflexivity).
  destruct Hinv as [Hv Hbest]. rewrite Hev in Hbest.
  exists (candidate st). rewrite Hv.
  destruct Hbest as (l1 & l2 & Hseen & Hlt & Hle) eqn:E. clear E.
  repeat split.
  - apply in_walk_reach. fold (seen_order d source). rewrite Hseen.
    apply in_elt.
  - intros n Hn. apply in_walk_reach in Hn.
    fold (seen_order d source) in Hn. rewrite Hseen in Hn.
    apply in_app_or in Hn. destruct Hn as [Hn|[Hn|Hn]].
    + specialize (Hlt n Hn). lia.
    + subst n. lia.
    + now apply Hle.
  - exists l1, l2. repeat split; assumption.
Qed.


End SearchResults.

Ltac nodup_nat :=
  repeat (apply NoDup_cons; [cbn; intuition discriminate|]); apply NoDup_nil.

Lemma depth_limited_search_maximum_witness :
  0 <= 2
  /\ ((forall fuel : nat,
          @nxutil_search.depth_limited_search nat diamond fuel 0%nat 0
          = Some (0%nat, 5))
      /\ exists f : nat, forall fuel : nat, (f <= fuel)%nat ->
           exists cand : nat,
             @nxutil_search.depth_limited_search nat diamond fuel 0%nat 2
             = Some (cand, @evaluate nat diamond cand)
             /\ @nxutil_search.reach nat diamond 2 0%nat cand
             /\ (forall n, @nxutil_search.reach nat diamond 2 0%nat n ->
                           @evaluate nat diamond n
                           <= @evaluate nat diamond cand)
             /\ @first_best nat diamond
                  (@seen_order nat diamond 2 0%nat) cand).
Proof.
  split; [lia|].
  apply (@depth_limited_search_maximum nat diamond 0%nat 2). lia.
Defined.

(** On the diamond the search to depth 2 returns node 1, the first of the
    two nodes of value 7. *)
Example depth_limited_search_diamond :
  @nxutil_search.depth_limited_search nat diamond 10 0%nat 2
  = Some (1%nat, 7).
Proof. reflexivity. Qed.



(** C8 at a failing input.  With depth 1 the generator yields the two
    children of node 0 and never node 0 itself, although node 0 is reachable
    from itself within 1 edge (with depth 0 it is yielded). *)
Lemma depth_limited_dfs_iter_omits_source :
  @nxutil_search.depth_limited_dfs_iter nat diamond 10 0%nat 1
  = Some [1; 2]%nat
  /\ @nxutil_search.reach nat diamond 1 0%nat 0%nat
  /\ ~ In 0%nat [1; 2]%nat
  /\ @nxutil_search.depth_limited_dfs_iter nat diamond 10 0%nat 0
     = Some [0%nat].
Proof.
  split; [reflexivity|]. split; [constructor|].
  split; [cbn; intuition discriminate|reflexivity].
Qed.

(** ** The graph *)

Section GraphFacts.
Import gr.

Lemma mem_In (n : Node) (s : list Node) : mem n s = true <-> In n s.
Proof.
  unfold mem. rewrite existsb_exists. split.
  - intros [x [Hx Heq]]. apply Nat.eqb_eq in Heq. now subst.
  - intros Hn. exists n. split; [assumption|apply Nat.eqb_refl].
Qed.

Lemma mem_not_In (n : Node) (s : list Node) : mem n s = false <-> ~ In n s.
Proof.
  rewrite <- mem_In. destruct (mem n s); split; intros; congruence.
Qed.

Lemma mem_cons (n c : Node) (s : list Node) :
  mem n (c :: s) = Nat.eqb n c || mem n s.
Proof. reflexivity. Qed.

Lemma neighbors_dst (G : graph) (n c : Node) :
  In c (neighbors G n) -> In c (map dst (edges G)).
Proof.
  unfold neighbors, out_edges. intros Hc.
  apply in_map_iff in Hc as [e [He Hin]]. apply filter_In in Hin as [Hin _].
  apply in_map_iff. now exists e.
Qed.

Lemma neighbors_length (G : graph) (n : Node) :
  (length (neighbors G n) <= length (edges G))%nat.
Proof.
  unfold neighbors, out_edges. rewrite length_map. apply filter_length_le.
Qed.

End GraphFacts.

(** ** [dfs_topological_sort] *)

Section DfsFacts.
Import gr nxutil_dfs.
Variable G : graph.
Variable condition : option (Node -> Node -> bool).

(** *** Termination *)

Lemma unvisited_weight_visit (c : Node) (visited U : list Node) :
  (unvisited_weight G U (c :: visited) <= unvisited_weight G U visited)%nat.
Proof.
  unfold unvisited_weight. induction U as [|u U IH]; [cbn; lia|].
  cbn [filter]. rewrite mem_cons.
  destruct (Nat.eqb u c), (mem u visited); cbn [orb negb total_weight]; lia.
Qed.

Lemma unvisited_weight_all (visited U : list Node) :
  (unvisited_weight G U visited <= total_weight G U)%nat.
Proof.
  unfold unvisited_weight. induction U as [|u U IH]; [cbn; lia|].
  cbn [filter].
  destruct (mem u visited); cbn [negb total_weight]; lia.
Qed.

Lemma unvisited_weight_push (c : Node) (visited U : list Node) :
  NoDup U -> In c U -> mem c visited = false ->
  (unvisited_weight G U (c :: visited) + weight G c
   <= unvisited_weight G U visited)%nat.
Proof.
  intros Hnd. induction Hnd as [|u U Hu Hnd IH]; intros Hin Hc;
    [destruct Hin|].
  pose proof (unvisited_weight_visit c visited U) as Hle.
  unfold unvisited_weight in *. cbn [filter]. rewrite mem_cons.
  destruct (Nat.eqb_spec u c) as [->|Hne].
  - rewrite Hc. cbn [orb negb total_weight]. lia.
  - destruct Hin as [Heq|Hin]; [congruence|].
    specialize (IH Hin Hc).
    destruct (mem u visited); cbn [orb negb total_weight]; lia.
Qed.

Lemma dfs_loop_total (fuel : nat) :
  forall (stack : list (Node * list Node)) (visited out : list Node),
    (forall entry, In entry stack -> incl (snd entry) (targets G)) ->
    (stack_weight stack + unvisited_weight G (targets G) visited
     <= fuel)%nat ->
    exists r, dfs_loop fuel G condition stack visited out = Some r.
Proof.
  assert (Hnd : NoDup (targets G)) by apply NoDup_nodup.
  assert (Hcl : forall n, incl (neighbors G n) (targets G)).
  { intros n c Hc. apply nodup_In. eapply neighbors_dst; eassumption. }
  induction fuel as [|fuel IH]; intros stack visited out Hst Hw.
  - destruct stack as [|[parent children] rest]; [now eexists|].
    cbn in Hw. lia.
  - destruct stack as [|[parent children] rest]; [now eexists|].
    cbn [stack_weight snd] in Hw.
    destruct children as [|child children'].
    + cbn. apply IH.
      * intros entry He. apply Hst. now right.
      * cbn in Hw. lia.
    + assert (Hst' : forall entry,
                 In entry ((parent, children') :: rest) ->
                 incl (snd entry) (targets G)).
      { intros entry [<-|He].
        - cbn. intros x Hx. apply (Hst (parent, child :: children'));
            [now left|now right].
        - apply Hst. now right. }
      assert (Hchild : In child (targets G)).
      { apply (Hst (parent, child :: children')); now left. }
      cbn [dfs_loop]. cbn [length] in Hw.
      destruct (mem child visited) eqn:Hvis.
      { apply IH; [assumption|]. cbn [stack_weight snd]. lia. }
      destruct (skip G visited child).
      { apply IH; [assumption|]. cbn [stack_weight snd]. lia. }
      destruct (condition_holds condition parent child).
      * apply IH.
        -- intros entry [<-|He]; [apply Hcl|now apply Hst'].
        -- pose proof (unvisited_weight_push child visited (targets G)
                         Hnd Hchild Hvis) as Hpush.
           unfold weight in Hpush. cbn [stack_weight snd]. lia.
      * apply IH; [assumption|].
        pose proof (unvisited_weight_visit child visited (targets G)).
        cbn [stack_weight snd]. lia.
Qed.

Lemma dfs_starts_total (fuel : nat) :
  (dfs_fuel G <= fuel)%nat ->
  forall starts visited out,
    exists r, dfs_starts fuel G condition starts visited out = Some r.
Proof.
  intros Hfuel. induction starts as [|start starts IH]; intros visited out;
    [now eexists|].
  cbn. destruct (mem start visited); [apply IH|].
  destruct (dfs_loop_total fuel [(start, neighbors G start)]
              (start :: visited) (out ++ [start])) as [[v o] Hr].
  - intros entry [<-|[]]. cbn. intros c Hc. apply nodup_In.
    eapply neighbors_dst; eassumption.
  - pose proof (unvisited_weight_all (start :: visited) (targets G)).
    pose proof (neighbors_length G start).
    unfold dfs_fuel in *. cbn [stack_weight snd]. lia.
  - rewrite Hr. apply IH.
Qed.

End DfsFacts.

Section DfsOrder.
Import gr nxutil_dfs.
Variable G : graph.

Lemma snoc_split (A : Type) (out pre post : list A) (c n : A) :
  out ++ [c] = pre ++ n :: post ->
  (post = [] /\ n = c /\ pre = out)
  \/ exists post', post = post' ++ [c] /\ out = pre ++ n :: post'.
Proof.
  intros Heq. destruct (exists_last (l := n :: post)) as [post' [x Hx]];
    [discriminate|].
  rewrite Hx, app_assoc in Heq. apply app_inj_tail in Heq as [Hout <-].
  destruct post' as [|y post'].
  - left. cbn in Hx. injection Hx as -> ->.
    rewrite app_nil_r in Hout. auto.
  - right. cbn in Hx. injection Hx as <- ->. now exists post'.
Qed.

(** *** No node is yielded twice *)

Lemma yields_once_yield (visited out : list Node) (n : Node) :
  yields_once visited out -> ~ In n visited ->
  yields_once (n :: visited) (out ++ [n]).
Proof.
  intros [Hnd Hincl] Hn. split.
  - apply NoDup_app.  repeat split.
    + assumption.
    + constructor; [intros []|constructor].
    + intros x Hx [<-|[]]. auto.
  - intros x Hx. apply in_app_or in Hx. destruct Hx as [Hx|[<-|[]]].
    + right. now apply Hincl.
    + now left.
Qed.

Lemma yields_once_mark (visited out : list Node) (n : Node) :
  yields_once visited out -> yields_once (n :: visited) out.
Proof.
  intros [Hnd Hincl]. split; [assumption|].
  intros x Hx. right. now apply Hincl.
Qed.

Lemma dfs_loop_yields_once (condition : option (Node -> Node -> bool))
      (fuel : nat) :
  forall stack visited out visited' out',
    dfs_loop fuel G condition stack visited out = Some (visited', out') ->
    yields_once visited out -> yields_once visited' out'.
Proof.
  induction fuel as [|fuel IH]; intros stack visited out visited' out' Hrun;
    destruct stack as [|[parent children] rest]; cbn in Hrun;
    try discriminate.
  - injection Hrun as <- <-. auto.
  - injection Hrun as <- <-. auto.
  - destruct children as [|child children']; [exact (IH _ _ _ _ _ Hrun)|].
    destruct (mem child visited) eqn:Hvis; [exact (IH _ _ _ _ _ Hrun)|].
    destruct (skip G visited child); [exact (IH _ _ _ _ _ Hrun)|].
    apply mem_not_In in Hvis.
    destruct (condition_holds condition parent child);
      intros Hinv; apply IH in Hrun; try assumption.
    + now apply yields_once_yield.
    + now apply yields_once_mark.
Qed.

Lemma dfs_starts_yields_once (condition : option (Node -> Node -> bool))
      (fuel : nat) :
  forall starts visited out out',
    dfs_starts fuel G condition starts visited out = Some out' ->
    yields_once visited out -> NoDup out'.
Proof.
  induction starts as [|start starts IH]; intros visited out out' Hrun Hinv;
    cbn in Hrun.
  - injection Hrun as <-. apply Hinv.
  - destruct (mem start visited) eqn:Hvis; [exact (IH _ _ _ Hrun Hinv)|].
    apply mem_not_In in Hvis.
    destruct (dfs_loop _ _ _ _ _ _) as [[v o]|] eqn:Hloop; [|discriminate].
    apply IH in Hrun; [assumption|].
    eapply dfs_loop_yields_once; [eassumption|].
    now apply yields_once_yield.
Qed.

(** *** Predecessors come first, when there is no [condition] *)

Lemma preds_first_yield (starts out : list Node) (c : Node) :
  preds_first G starts out ->
  (In c starts \/ forall p, In p (predecessors G c) -> In p out) ->
  preds_first G starts (out ++ [c]).
Proof.
  intros Hout Hc pre n post Heq.
  apply snoc_split in Heq as [(-> & -> & ->)|(post' & -> & ->)].
  - assumption.
  - now apply (Hout pre n post').
Qed.

Lemma skip_false (visited : list Node) (child : Node) :
  skip G visited child = false ->
  forall p, In p (predecessors G child) -> In p visited.
Proof.
  unfold skip. intros Hskip p Hp. apply mem_In.
  destruct (mem p visited) eqn:Hm; [reflexivity|].
  assert (Hex : existsb (fun pred => negb (mem pred visited))
                        (predecessors G child) = true).
  { apply existsb_exists. exists p. split; [assumption|]. now rewrite Hm. }
  congruence.
Qed.

Lemma dfs_loop_gated (starts : list Node) (fuel : nat) :
  forall stack visited out visited' out',
    dfs_loop fuel G None stack visited out = Some (visited', out') ->
    gated G starts visited out -> gated G starts visited' out'.
Proof.
  induction fuel as [|fuel IH]; intros stack visited out visited' out' Hrun;
    destruct stack as [|[parent children] rest]; cbn in Hrun;
    try discriminate.
  - injection Hrun as <- <-. auto.
  - injection Hrun as <- <-. auto.
  - destruct children as [|child children']; [exact (IH _ _ _ _ _ Hrun)|].
    destruct (mem child visited) eqn:Hvis; [exact (IH _ _ _ _ _ Hrun)|].
    destruct (skip G visited child) eqn:Hskip; [exact (IH _ _ _ _ _ Hrun)|].
    intros [Hincl Hpf]. apply IH in Hrun; [assumption|]. split.
    + intros x [<-|Hx]; apply in_or_app; [right; now left|left; auto].
    + apply preds_first_yield; [assumption|]. right. intros p Hp.
      apply Hincl. eapply skip_false; eassumption.
Qed.

Lemma dfs_starts_gated (starts0 : list Node) (fuel : nat) :
  forall starts visited out out',
    incl starts starts0 ->
    dfs_starts fuel G None starts visited out = Some out' ->
    gated G starts0 visited out -> preds_first G starts0 out'.
Proof.
  induction starts as [|start starts IH];
    intros visited out out' Hsub Hrun Hinv; cbn in Hrun.
  - injection Hrun as <-. apply Hinv.
  - assert (Hsub' : incl starts starts0)
      by (intros x Hx; apply Hsub; now right).
    destruct (mem start visited); [exact (IH _ _ _ Hsub' Hrun Hinv)|].
    destruct (dfs_loop _ _ _ _ _ _) as [[v o]|] eqn:Hloop; [|discriminate].
    apply IH in Hrun; [assumption|assumption|].
    eapply dfs_loop_gated; [eassumption|].
    destruct Hinv as [Hincl Hpf]. split.
    + intros x [<-|Hx]; apply in_or_app; [right; now left|left; auto].
    + apply preds_first_yield; [assumption|]. left. apply Hsub. now left.
Qed.

End DfsOrder.

Section DfsTheorems.
Import gr nxutil_dfs.

(** C10. For every graph, every [sources] argument and every [condition],
    [dfs_topological_sort] runs to its end and no node occurs twice in the
    sequence it yields. *)
Theorem dfs_topological_sort_no_repeat (G : graph)
        (sources : option Sources)
        (condition : option (Node -> Node -> bool)) :
  exists f : nat, forall fuel : nat, (f <= fuel)%nat ->
    exists out : list Node,
      dfs_topological_sort fuel G sources condition = Some out
      /\ NoDup out.
Proof.
  exists (dfs_fuel G). intros fuel Hfuel. unfold dfs_topological_sort.
  destruct (dfs_starts_total G condition fuel Hfuel
              (start_nodes G sources) [] []) as [out Hout].
  exists out. split; [assumption|].
  eapply dfs_starts_yields_once; [eassumption|].
  split; [constructor|intros x []].
Qed.

End DfsTheorems.


(** ** Redirecting edges *)

Section RedirectFacts.
Import gr nxutil_edit.

Lemma filter_first (A : Type) (P : A -> bool) (l : list A) :
  forall (e : A) (L : list A),
    filter P l = e :: L ->
    exists r1 r2, l = r1 ++ e :: r2 /\ filter P r1 = []
                  /\ filter P r2 = L /\ P e = true.
Proof.
  induction l as [|x l IH]; intros e L Hf; [discriminate|].
  cbn in Hf. destruct (P x) eqn:Hx.
  - injection Hf as -> HL. exists [], l. auto.
  - destruct (IH e L Hf) as (r1 & r2 & -> & H1 & H2 & He).
    exists (x :: r1), r2. cbn. rewrite Hx. auto.
Qed.

Lemma filter_none_not_in (A : Type) (P : A -> bool) (l : list A) (e : A) :
  filter P l = [] -> P e = true -> ~ In e l.
Proof.
  intros Hf He Hin.
  assert (Hin' : In e (filter P l)) by (apply filter_In; auto).
  rewrite Hf in Hin'. destruct Hin'.
Qed.

Lemma filter_none_neg (A : Type) (P : A -> bool) (l : list A) :
  filter P l = [] -> filter (fun x => negb (P x)) l = l.
Proof.
  induction l as [|x l IH]; [reflexivity|]. cbn.
  destruct (P x); [discriminate|]. intros Hf. cbn. now rewrite IH.
Qed.

Lemma remove_first_middle (e : edge) (r1 r2 : list edge) :
  ~ In e r1 -> remove_first e (r1 ++ e :: r2) = r1 ++ r2.
Proof.
  induction r1 as [|x r1 IH]; intros Hn; cbn.
  - destruct (edge_eq_dec e e); [reflexivity|congruence].
  - destruct (edge_eq_dec e x) as [->|Hne].
    + exfalso. apply Hn. now left.
    + rewrite IH; [reflexivity|]. intros Hin. apply Hn. now right.
Qed.

Lemma remove_first_absent (e : edge) (l : list edge) :
  ~ In e l -> remove_first e l = l.
Proof.
  induction l as [|x l IH]; intros Hn; cbn; [reflexivity|].
  destruct (edge_eq_dec e x) as [->|Hne].
  - exfalso. apply Hn. now left.
  - rewrite IH; [reflexivity|]. intros Hin. apply Hn. now right.
Qed.

Lemma redirect_edges (P : edge -> bool) (f : edge -> edge) :
  forall (L : list edge) (g : graph) (rem added : list edge),
    edges g = rem ++ added -> filter P rem = L ->
    edges (redirect f L g)
    = filter (fun e => negb (P e)) rem ++ added ++ map f L.
Proof.
  induction L as [|e L IH]; intros g rem added Hg HL.
  - cbn. rewrite app_nil_r, (filter_none_neg _ P rem HL). assumption.
  - destruct (filter_first _ P rem e L HL) as (r1 & r2 & -> & H1 & H2 & He).
    change (redirect f (e :: L) g)
      with (redirect f L (add_edge (remove_edge g e) (f e))).
    rewrite (IH (add_edge (remove_edge g e) (f e)) (r1 ++ r2)
                (added ++ [f e])).
    + rewrite !filter_app. cbn. rewrite He. cbn.
      rewrite <- !app_assoc. reflexivity.
    + cbn. rewrite Hg, <- app_assoc. cbn.
      rewrite remove_first_middle
        by (eapply filter_none_not_in; eassumption).
      rewrite <- !app_assoc. reflexivity.
    + rewrite filter_app, H1, H2. reflexivity.
Qed.

Lemma change_edge_dest_edges (graph : gr.graph) (node_a node_b : Node) :
  edges (change_edge_dest graph node_a node_b)
  = filter (fun e => negb (Nat.eqb (dst e) node_a)) (edges graph)
    ++ map (fun e => with_dst e node_b) (in_edges graph node_a).
Proof.
  unfold change_edge_dest.
  apply (redirect_edges (fun e => Nat.eqb (dst e) node_a)
           (fun e => with_dst e node_b) (in_edges graph node_a) graph
           (edges graph) []).
  - now rewrite app_nil_r.
  - reflexivity.
Qed.

Lemma change_edge_src_edges (graph : gr.graph) (node_a node_b : Node) :
  edges (change_edge_src graph node_a node_b)
  = filter (fun e => negb (Nat.eqb (src e) node_a)) (edges graph)
    ++ map (fun e => with_src e node_b) (out_edges graph node_a).
Proof.
  unfold change_edge_src.
  apply (redirect_edges (fun e => Nat.eqb (src e) node_a)
           (fun e => with_src e node_b) (out_edges graph node_a) graph
           (edges graph) []).
  - now rewrite app_nil_r.
  - reflexivity.
Qed.

Lemma with_dst_fields (e : edge) (b : Node) :
  src (with_dst e b) = src e /\ dst (with_dst e b) = b
  /\ src_conn (with_dst e b) = src_conn e
  /\ dst_conn (with_dst e b) = dst_conn e
  /\ data (with_dst e b) = data e.
Proof. destruct e; cbn; auto. Qed.

Lemma with_src_fields (e : edge) (b : Node) :
  src (with_src e b) = b /\ dst (with_src e b) = dst e
  /\ src_conn (with_src e b) = src_conn e
  /\ dst_conn (with_src e b) = dst_conn e
  /\ data (with_src e b) = data e.
Proof. destruct e; cbn; auto. Qed.

(** C6. [change_edge_dest] takes out every edge whose destination is
    [node_a] and puts in, for each, an edge to [node_b] with the same
    source, connectors and payload; the other edges stay as they are and
    the new edges come last.  Each edge is removed before its replacement
    is inserted.  Without an edge into [node_a] the graph does not change.
    [change_edge_src] does the same for the edges whose source is
    [node_a]. *)
Theorem change_edge_redirects (graph : gr.graph) (node_a node_b : Node) :
  (edges (change_edge_dest graph node_a node_b)
   = filter (fun e => negb (Nat.eqb (dst e) node_a)) (edges graph)
     ++ map (fun e => with_dst e node_b) (in_edges graph node_a)
   /\ (forall e, src (with_dst e node_b) = src e
                 /\ dst (with_dst e node_b) = node_b
                 /\ src_conn (with_dst e node_b) = src_conn e
                 /\ dst_conn (with_dst e node_b) = dst_conn e
                 /\ data (with_dst e node_b) = data e)
   /\ change_edge_dest graph node_a node_b
      = fold_left (fun g e => add_edge (remove_edge g e)
                                       (with_dst e node_b))
                  (in_edges graph node_a) graph
   /\ (in_edges graph node_a = [] ->
       change_edge_dest graph node_a node_b = graph))
  /\ (edges (change_edge_src graph node_a node_b)
      = filter (fun e => negb (Nat.eqb (src e) node_a)) (edges graph)
        ++ map (fun e => with_src e node_b) (out_edges graph node_a)
      /\ (forall e, src (with_src e node_b) = node_b
                    /\ dst (with_src e node_b) = dst e
                    /\ src_conn (with_src e node_b) = src_conn e
                    /\ dst_conn (with_src e node_b) = dst_conn e
                    /\ data (with_src e node_b) = data e)
      /\ change_edge_src graph node_a node_b
         = fold_left (fun g e => add_edge (remove_edge g e)
                                          (with_src e node_b))
                     (out_edges graph node_a) graph
      /\ (out_edges graph node_a = [] ->
          change_edge_src graph node_a node_b = graph)).
Proof.
  split; repeat split;
    try apply change_edge_dest_edges; try apply change_edge_src_edges;
    try apply with_dst_fields; try apply with_src_fields.
  - intros Hnone. unfold change_edge_dest. now rewrite Hnone.
  - intros Hnone. unfold change_edge_src. now rewrite Hnone.
Qed.

End RedirectFacts.

(** ** Replacing a subgraph *)

Section SpliceFacts.
Import gr nxutil_edit.

Lemma add_node_edges (g : graph) (n : Node) :
  edges (add_node g n) = edges g.
Proof. unfold add_node. now destruct (mem n (nodes g)). Qed.

Lemma add_node_nodes (g : graph) (n m : Node) :
  In m (nodes (add_node g n)) <-> In m (nodes g) \/ m = n.
Proof.
  unfold add_node. destruct (mem n (nodes g)) eqn:Hn; cbn.
  - apply mem_In in Hn. split; [auto|]. intros [?| ->]; assumption.
  - rewrite in_app_iff. cbn. intuition.
Qed.

Lemma add_nodes_from_edges (ns : list Node) :
  forall g, edges (add_nodes_from g ns) = edges g.
Proof.
  induction ns as [|n ns IH]; intros g; cbn; [reflexivity|].
  unfold add_nodes_from in IH. now rewrite IH, add_node_edges.
Qed.

Lemma add_nodes_from_nodes (ns : list Node) (m : Node) :
  forall g, In m (nodes (add_nodes_from g ns))
            <-> In m (nodes g) \/ In m ns.
Proof.
  induction ns as [|n ns IH]; intros g; cbn; [intuition|].
  unfold add_nodes_from in IH. rewrite IH, add_node_nodes. intuition.
Qed.

Lemma add_edge_nodes (g : graph) (e : edge) (m : Node) :
  In m (nodes (add_edge g e))
  <-> In m (nodes g) \/ m = src e \/ m = dst e.
Proof.
  unfold add_edge. cbn. rewrite !add_node_nodes. intuition.
Qed.

Lemma add_edges_edges (l : list edge) :
  forall g, edges (fold_left add_edge l g) = edges g ++ l.
Proof.
  induction l as [|e l IH]; intros g; cbn.
  - now rewrite app_nil_r.
  - rewrite IH. cbn. now rewrite <- app_assoc.
Qed.

Lemma add_edges_nodes (l : list edge) (m : Node) :
  forall g, In m (nodes (fold_left add_edge l g))
            <-> In m (nodes g)
                \/ exists e, In e l /\ (m = src e \/ m = dst e).
Proof.
  induction l as [|e l IH]; intros g; cbn.
  - split; [auto|]. intros [?|[e [[] _]]]. assumption.
  - rewrite IH, add_edge_nodes. split.
    + intros [[?|?]|[e' [? ?]]]; eauto.
    + intros [?|[e' [[<-|?] ?]]]; eauto.
Qed.

Lemma filter_twice (A : Type) (P Q : A -> bool) (l : list A) :
  filter Q (filter P l) = filter (fun x => P x && Q x) l.
Proof.
  induction l as [|x l IH]; cbn; [reflexivity|].
  destruct (P x); cbn; [destruct (Q x)|]; now rewrite IH.
Qed.

Lemma remove_nodes_from_edges (ns : list Node) :
  forall g, edges (remove_nodes_from g ns) = filter (outside ns) (edges g).
Proof.
  induction ns as [|n ns IH]; intros g.
  - cbn. symmetry. apply forallb_filter_id. apply forallb_forall.
    reflexivity.
  - change (remove_nodes_from g (n :: ns))
      with (remove_nodes_from (remove_node g n) ns).
    rewrite IH. unfold remove_node. cbn [edges]. rewrite filter_twice.
    apply filter_ext. intros e. unfold outside. rewrite !mem_cons.
    destruct (Nat.eqb (src e) n), (Nat.eqb (dst e) n),
      (mem (src e) ns), (mem (dst e) ns); reflexivity.
Qed.

Lemma remove_nodes_from_nodes (ns : list Node) :
  forall g, nodes (remove_nodes_from g ns)
            = filter (fun m => negb (mem m ns)) (nodes g).
Proof.
  induction ns as [|n ns IH]; intros g.
  - cbn. symmetry. apply forallb_filter_id. apply forallb_forall.
    reflexivity.
  - change (remove_nodes_from g (n :: ns))
      with (remove_nodes_from (remove_node g n) ns).
    rewrite IH. unfold remove_node. cbn [nodes]. rewrite filter_twice.
    apply filter_ext. intros m. rewrite mem_cons.
    destruct (Nat.eqb m n), (mem m ns); reflexivity.
Qed.

Lemma splice_edges (graph old new : gr.graph)
      (old_source old_sink new_source new_sink : Node) :
  edges (splice graph old new old_source old_sink new_source new_sink)
  = filter (outside (nodes old))
      (redirected_src old_sink new_sink
         (redirected_dst old_source new_source
            (edges graph ++ edges new))).
Proof.
  unfold splice. rewrite remove_nodes_from_edges.
  rewrite change_edge_src_edges, change_edge_dest_edges.
  unfold out_edges, in_edges.
  rewrite change_edge_dest_edges. unfold in_edges.
  rewrite add_edges_edges, add_nodes_from_edges. reflexivity.
Qed.

Lemma redirected_dst_other (a b : Node) (E : list edge) (e : edge) :
  In e E -> dst e <> a -> In e (redirected_dst a b E).
Proof.
  intros He Hd. apply in_or_app. left. apply filter_In. split; [assumption|].
  now apply negb_true_iff, Nat.eqb_neq.
Qed.

Lemma redirected_dst_moved (a b : Node) (E : list edge) (e : edge) :
  In e E -> dst e = a -> In (with_dst e b) (redirected_dst a b E).
Proof.
  intros He Hd. apply in_or_app. right.
  apply (in_map (fun e => with_dst e b)), filter_In.
  split; [assumption|]. now apply Nat.eqb_eq.
Qed.

Lemma redirected_src_other (a b : Node) (E : list edge) (e : edge) :
  In e E -> src e <> a -> In e (redirected_src a b E).
Proof.
  intros He Hd. apply in_or_app. left. apply filter_In. split; [assumption|].
  now apply negb_true_iff, Nat.eqb_neq.
Qed.

Lemma redirected_src_moved (a b : Node) (E : list edge) (e : edge) :
  In e E -> src e = a -> In (with_src e b) (redirected_src a b E).
Proof.
  intros He Hd. apply in_or_app. right.
  apply (in_map (fun e => with_src e b)), filter_In.
  split; [assumption|]. now apply Nat.eqb_eq.
Qed.

Lemma outside_true (O : list Node) (e : edge) :
  outside O e = true <-> ~ In (src e) O /\ ~ In (dst e) O.
Proof.
  unfold outside. rewrite andb_true_iff, !negb_true_iff, !mem_not_In.
  reflexivity.
Qed.

Lemma find_source_nodes_In (g : graph) (n : Node) :
  In n (find_source_nodes g)
  <-> In n (nodes g) /\ forall e, In e (edges g) -> dst e <> n.
Proof.
  unfold find_source_nodes, in_degree, in_edges. rewrite filter_In.
  rewrite Nat.eqb_eq, length_zero_iff_nil. split; intros [Hn H0];
    (split; [assumption|]).
  - intros e He Hd.
    assert (Hin : In e (filter (fun e => Nat.eqb (dst e) n) (edges g)))
      by (apply filter_In; split; [assumption|now apply Nat.eqb_eq]).
    rewrite H0 in Hin. destruct Hin.
  - destruct (filter _ _) as [|e l] eqn:Hf; [reflexivity|].
    assert (Hin : In e (filter (fun e => Nat.eqb (dst e) n) (edges g)))
      by (rewrite Hf; now left).
    apply filter_In in Hin as [He Hd]. apply Nat.eqb_eq in Hd.
    now destruct (H0 e He).
Qed.

Lemma find_sink_nodes_In (g : graph) (n : Node) :
  In n (find_sink_nodes g)
  <-> In n (nodes g) /\ forall e, In e (edges g) -> src e <> n.
Proof.
  unfold find_sink_nodes, out_degree, out_edges. rewrite filter_In.
  rewrite Nat.eqb_eq, length_zero_iff_nil. split; intros [Hn H0];
    (split; [assumption|]).
  - intros e He Hd.
    assert (Hin : In e (filter (fun e => Nat.eqb (src e) n) (edges g)))
      by (apply filter_In; split; [assumption|now apply Nat.eqb_eq]).
    rewrite H0 in Hin. destruct Hin.
  - destruct (filter _ _) as [|e l] eqn:Hf; [reflexivity|].
    assert (Hin : In e (filter (fun e => Nat.eqb (src e) n) (edges g)))
      by (rewrite Hf; now left).
    apply filter_In in Hin as [He Hd]. apply Nat.eqb_eq in Hd.
    now destruct (H0 e He).
Qed.

End SpliceFacts.

Section SpliceNodes.
Import gr nxutil_edit.

Lemma remove_first_In (e x : edge) (l : list edge) :
  In x (remove_first e l) -> In x l.
Proof.
  induction l as [|y l IH]; cbn; [auto|].
  destruct (edge_eq_dec e y); [auto|]. intros [?|?]; auto.
Qed.

Lemma redirect_nodes_mono (f : edge -> edge) (L : list edge) (n : Node) :
  forall g, In n (nodes g) -> In n (nodes (redirect f L g)).
Proof.
  induction L as [|e L IH]; intros g Hn; [assumption|].
  apply IH. apply add_edge_nodes. now left.
Qed.

Lemma within_add_edge (S : Node -> Prop) (g : graph) (e : edge) :
  within S g -> S (src e) -> S (dst e) -> within S (add_edge g e).
Proof.
  intros [Hn He] Hs Hd. split.
  - intros n Hin. apply add_edge_nodes in Hin as [?|[->| ->]]; auto.
  - intros x Hx. cbn in Hx. apply in_app_or in Hx as [?|[<-|[]]]; auto.
Qed.

Lemma within_remove_edge (S : Node -> Prop) (g : graph) (e : edge) :
  within S g -> within S (remove_edge g e).
Proof.
  intros [Hn He]. split; [exact Hn|].
  intros x Hx. apply He. cbn in Hx. eapply remove_first_In; eassumption.
Qed.

Lemma within_redirect (S : Node -> Prop) (f : edge -> edge)
      (L : list edge) :
  forall g, within S g ->
            (forall e, In e L -> S (src (f e)) /\ S (dst (f e))) ->
            within S (redirect f L g).
Proof.
  induction L as [|e L IH]; intros g Hg HL; [assumption|].
  change (redirect f (e :: L) g)
    with (redirect f L (add_edge (remove_edge g e) (f e))).
  apply IH.
  - apply within_add_edge; [now apply within_remove_edge| |];
      apply (HL e); now left.
  - intros x Hx. apply HL. now right.
Qed.

Lemma within_change_edge_dest (S : Node -> Prop) (g : graph) (a b : Node) :
  within S g -> S b -> within S (change_edge_dest g a b).
Proof.
  intros Hg Hb. apply within_redirect; [assumption|].
  intros e He. apply filter_In in He as [He _].
  destruct (with_dst_fields e b) as (-> & -> & _).
  split; [now apply Hg|assumption].
Qed.

Lemma within_change_edge_src (S : Node -> Prop) (g : graph) (a b : Node) :
  within S g -> S b -> within S (change_edge_src g a b).
Proof.
  intros Hg Hb. apply within_redirect; [assumption|].
  intros e He. apply filter_In in He as [He _].
  destruct (with_src_fields e b) as (-> & -> & _).
  split; [assumption|now apply Hg].
Qed.

Lemma within_add_nodes_from (S : Node -> Prop) (ns : list Node) :
  forall g, within S g -> (forall n, In n ns -> S n) ->
            within S (add_nodes_from g ns).
Proof.
  intros g [Hn He] Hns. split.
  - intros n Hin. apply add_nodes_from_nodes in Hin as [?|?]; auto.
  - intros e Hin. rewrite add_nodes_from_edges in Hin. auto.
Qed.

Lemma within_add_edges (S : Node -> Prop) (l : list edge) :
  forall g, within S g ->
            (forall e, In e l -> S (src e) /\ S (dst e)) ->
            within S (fold_left add_edge l g).
Proof.
  induction l as [|e l IH]; intros g Hg Hl; [assumption|].
  cbn [fold_left]. apply IH.
  - apply within_add_edge; [assumption| |]; apply (Hl e); now left.
  - intros x Hx. apply Hl. now right.
Qed.

Lemma splice_nodes_lower (graph old new : gr.graph)
      (os ok ns nk n : Node) :
  (In n (nodes graph) \/ In n (nodes new)) -> ~ In n (nodes old) ->
  In n (nodes (splice graph old new os ok ns nk)).
Proof.
  intros Hn Hold. unfold splice. rewrite remove_nodes_from_nodes.
  apply filter_In. split; [|now apply negb_true_iff, mem_not_In].
  unfold change_edge_src, change_edge_dest.
  apply redirect_nodes_mono, redirect_nodes_mono, add_edges_nodes.
  left. now apply add_nodes_from_nodes.
Qed.

Lemma splice_nodes_upper (graph old new : gr.graph)
      (os ok ns nk n : Node) :
  closed graph -> closed new -> In ns (nodes new) -> In nk (nodes new) ->
  In n (nodes (splice graph old new os ok ns nk)) ->
  (In n (nodes graph) \/ In n (nodes new)) /\ ~ In n (nodes old).
Proof.
  intros Hg Hnew Hns Hnk Hn. unfold splice in Hn.
  rewrite remove_nodes_from_nodes in Hn. apply filter_In in Hn as [Hn Ho].
  apply negb_true_iff, mem_not_In in Ho. split; [|assumption].
  set (S := fun m => In m (nodes graph) \/ In m (nodes new)).
  assert (Hw : within S (change_edge_src
                           (change_edge_dest
                              (fold_left add_edge (edges new)
                                 (add_nodes_from graph (nodes new)))
                              os ns) ok nk)).
  { apply within_change_edge_src; [|right; assumption].
    apply within_change_edge_dest; [|right; assumption].
    apply within_add_edges.
    - apply within_add_nodes_from.
      + split; [intros m Hm; now left|].
        intros e He. destruct (Hg e He). split; now left.
      + intros m Hm. now right.
    - intros e He. destruct (Hnew e He). split; now right. }
  now apply Hw.
Qed.

Lemma splice_nodes_old (graph old new : gr.graph) (os ok ns nk n : Node) :
  In n (nodes old) -> ~ In n (nodes (splice graph old new os ok ns nk)).
Proof.
  intros Hold Hn. unfold splice in Hn.
  rewrite remove_nodes_from_nodes in Hn. apply filter_In in Hn as [_ Ho].
  apply negb_true_iff, mem_not_In in Ho. contradiction.
Qed.

End SpliceNodes.

Section ReplaceSubgraph.
Import gr nxutil_edit.

(** C3. When [old] or [new] does not have exactly one node of in-degree 0,
    or does not have exactly one node of out-degree 0,
    [replace_subgraph] returns [False] and the graph is as it was. *)
Theorem replace_subgraph_rejects (graph old new : gr.graph)
        (Hbad : length (find_source_nodes old) <> 1%nat
                \/ length (find_sink_nodes old) <> 1%nat
                \/ length (find_source_nodes new) <> 1%nat
                \/ length (find_sink_nodes new) <> 1%nat) :
  replace_subgraph graph old new = (false, graph).
Proof.
  unfold replace_subgraph.
  destruct (find_source_nodes old) as [|a [|? ?]]; try reflexivity.
  destruct (find_sink_nodes old) as [|b [|? ?]]; try reflexivity.
  destruct (find_source_nodes new) as [|c [|? ?]]; try reflexivity.
  destruct (find_sink_nodes new) as [|d [|? ?]]; try reflexivity.
  cbn in Hbad. intuition congruence.
Qed.

Lemma replace_subgraph_accepts (graph old new : gr.graph)
      (os ok ns nk : Node) :
  find_source_nodes old = [os] -> find_sink_nodes old = [ok] ->
  find_source_nodes new = [ns] -> find_sink_nodes new = [nk] ->
  replace_subgraph graph old new
  = (true, splice graph old new os ok ns nk).
Proof.
  intros Hos Hok Hns Hnk. unfold replace_subgraph.
  now rewrite Hos, Hok, Hns, Hnk.
Qed.

Lemma unique_source_In (g : graph) (n : Node) :
  find_source_nodes g = [n] -> In n (nodes g).
Proof.
  intros H. apply (find_source_nodes_In g n). rewrite H. now left.
Qed.

Lemma unique_sink_In (g : graph) (n : Node) :
  find_sink_nodes g = [n] -> In n (nodes g).
Proof.
  intros H. apply (find_sink_nodes_In g n). rewrite H. now left.
Qed.

(** C2, as the code has it.  Let [old] and [new] each have one source and
    one sink, and let no node of [new] and no end of an edge of [new] be a
    node of [old].  Then [replace_subgraph] returns [True], and in the
    graph afterwards: all nodes and edges of [new] are present; for every
    former edge into the source of [old] from a node outside [old] there is
    the edge into the source of [new] with the same source, connectors and
    payload; for every former edge out of the sink of [old] to a node
    outside [old] there is the edge out of the sink of [new]; no node of
    [old] is left and no edge ends at one; and every former edge that
    touches no node of [old] is still there.  That the redirected edges
    are there shows that they were redirected before the nodes of [old]
    were removed. *)
Theorem replace_subgraph_splices (graph old new : gr.graph)
        (os ok ns nk : Node)
        (Hos : find_source_nodes old = [os])
        (Hok : find_sink_nodes old = [ok])
        (Hns : find_source_nodes new = [ns])
        (Hnk : find_sink_nodes new = [nk])
        (Hnodes : forall n, In n (nodes new) -> ~ In n (nodes old))
        (Hedges : forall e, In e (edges new) ->
                            ~ In (src e) (nodes old)
                            /\ ~ In (dst e) (nodes old)) :
  exists graph' : gr.graph,
    replace_subgraph graph old new = (true, graph')
    /\ (forall n, In n (nodes new) -> In n (nodes graph'))
    /\ (forall e, In e (edges new) -> In e (edges graph'))
    /\ (forall e, In e (edges graph) -> dst e = os ->
                  ~ In (src e) (nodes old) ->
                  In (with_dst e ns) (edges graph'))
    /\ (forall e, In e (edges graph) -> src e = ok ->
                  ~ In (dst e) (nodes old) ->
                  In (with_src e nk) (edges graph'))
    /\ (forall n, In n (nodes old) ->
                  ~ In n (nodes graph')
                  /\ forall e, In e (edges graph') ->
                               src e <> n /\ dst e <> n)
    /\ (forall e, In e (edges graph) ->
                  ~ In (src e) (nodes old) -> ~ In (dst e) (nodes old) ->
                  In e (edges graph')).
Proof.
  exists (splice graph old new os ok ns nk).
  split; [now apply replace_subgraph_accepts|].
  pose proof (unique_source_In _ _ Hos) as Hos_in.
  pose proof (unique_sink_In _ _ Hok) as Hok_in.
  pose proof (unique_source_In _ _ Hns) as Hns_in.
  pose proof (unique_sink_In _ _ Hnk) as Hnk_in.
  assert (Hns_out : ~ In ns (nodes old)) by now apply Hnodes.
  assert (Hnk_out : ~ In nk (nodes old)) by now apply Hnodes.
  assert (Hkeep : forall e,
             In e (edges graph ++ edges new) ->
             ~ In (src e) (nodes old) -> ~ In (dst e) (nodes old) ->
             In e (edges (splice graph old new os ok ns nk))).
  { intros e He Hs Hd. rewrite splice_edges. apply filter_In.
    split; [|now apply outside_true].
    apply redirected_src_other; [|congruence].
    apply redirected_dst_other; [assumption|congruence]. }
  repeat split.
  - intros n Hn. apply splice_nodes_lower; auto.
  - intros e He. destruct (Hedges e He). apply Hkeep; auto.
    apply in_or_app. now right.
  - intros e He Hd Hs. rewrite splice_edges. apply filter_In.
    destruct (with_dst_fields e ns) as (Hsrc & Hdst & _).
    split; [|apply outside_true; rewrite Hsrc, Hdst; auto].
    apply redirected_src_other; [|rewrite Hsrc; congruence].
    apply redirected_dst_moved; [|assumption].
    apply in_or_app. now left.
  - intros e He Hs Hd. rewrite splice_edges. apply filter_In.
    destruct (with_src_fields e nk) as (Hsrc & Hdst & _).
    split; [|apply outside_true; rewrite Hsrc, Hdst; auto].
    apply redirected_src_moved; [|assumption].
    apply redirected_dst_other; [|congruence].
    apply in_or_app. now left.
  - now apply splice_nodes_old.
  - rewrite splice_edges in H0. apply filter_In in H0 as [_ Ho].
    apply outside_true in Ho. destruct Ho. congruence.
  - rewrite splice_edges in H0. apply filter_In in H0 as [_ Ho].
    apply outside_true in Ho. destruct Ho. congruence.
  - intros e He Hs Hd. apply Hkeep; auto. apply in_or_app. now left.
Qed.

End ReplaceSubgraph.

(** ** Replacing a subgraph and putting it back *)

Section RoundTripFacts.
Import gr nxutil_edit.

Lemma perm_filter (A : Type) (P : A -> bool) (l l' : list A) :
  Permutation l l' -> Permutation (filter P l) (filter P l').
Proof.
  induction 1 as [|x l l' Hp IH|x y l|l l' l'' H1 IH1 H2 IH2]; cbn.
  - constructor.
  - destruct (P x); [now constructor|assumption].
  - destruct (P x), (P y); try reflexivity. constructor.
  - now transitivity (filter P l').
Qed.

Lemma perm_partition (A : Type) (P : A -> bool) (l : list A) :
  Permutation (filter (fun x => negb (P x)) l ++ filter P l) l.
Proof.
  induction l as [|x l IH]; cbn; [constructor|].
  destruct (P x); cbn.
  - symmetry. apply Permutation_cons_app. now symmetry.
  - now constructor.
Qed.

Lemma perm_moved (A : Type) (P : A -> bool) (f : A -> A) (l : list A) :
  Permutation (filter (fun x => negb (P x)) l ++ map f (filter P l))
              (map (fun x => if P x then f x else x) l).
Proof.
  induction l as [|x l IH]; cbn; [constructor|].
  destruct (P x); cbn.
  - symmetry. apply Permutation_cons_app. now symmetry.
  - now constructor.
Qed.

Lemma splice_edges_pass (graph old new : gr.graph) (os ok ns nk : Node) :
  Permutation (edges (splice graph old new os ok ns nk))
              (pass (nodes old) os ns ok nk (edges graph ++ edges new)).
Proof.
  rewrite splice_edges. unfold pass. apply perm_filter.
  unfold redirected_src.
  rewrite (perm_moved _ (fun e => Nat.eqb (src e) ok)
             (fun e => with_src e nk)).
  rewrite <- map_map with (f := move_dst os ns) (g := move_src ok nk).
  apply Permutation_map. unfold redirected_dst.
  apply (perm_moved _ (fun e => Nat.eqb (dst e) os)
           (fun e => with_dst e ns)).
Qed.

Lemma pass_app (O : list Node) (a b c d : Node) (l1 l2 : list edge) :
  pass O a b c d (l1 ++ l2) = pass O a b c d l1 ++ pass O a b c d l2.
Proof. unfold pass. now rewrite map_app, filter_app. Qed.

Lemma pass_perm (O : list Node) (a b c d : Node) (l1 l2 : list edge) :
  Permutation l1 l2 -> Permutation (pass O a b c d l1) (pass O a b c d l2).
Proof. intros Hp. unfold pass. now apply perm_filter, Permutation_map. Qed.

Lemma move_dst_eq (a b : Node) (e : edge) :
  dst e = a -> move_dst a b e = with_dst e b.
Proof. intros <-. unfold move_dst. now rewrite Nat.eqb_refl. Qed.

Lemma move_dst_ne (a b : Node) (e : edge) :
  dst e <> a -> move_dst a b e = e.
Proof.
  intros Hne. unfold move_dst. apply Nat.eqb_neq in Hne. now rewrite Hne.
Qed.

Lemma move_src_eq (a b : Node) (e : edge) :
  src e = a -> move_src a b e = with_src e b.
Proof. intros <-. unfold move_src. now rewrite Nat.eqb_refl. Qed.

Lemma move_src_ne (a b : Node) (e : edge) :
  src e <> a -> move_src a b e = e.
Proof.
  intros Hne. unfold move_src. apply Nat.eqb_neq in Hne. now rewrite Hne.
Qed.

Lemma with_dst_back (e : edge) (b : Node) :
  with_dst (with_dst e b) (dst e) = e.
Proof. now destruct e. Qed.

Lemma with_src_back (e : edge) (b : Node) :
  with_src (with_src e b) (src e) = e.
Proof. now destruct e. Qed.

(** *** All operations keep a graph closed *)

Lemma closed_add_node (g : graph) (n : Node) :
  closed g -> closed (add_node g n).
Proof.
  intros Hg e He. rewrite add_node_edges in He.
  destruct (Hg e He). split; apply add_node_nodes; now left.
Qed.

Lemma closed_add_edge (g : graph) (e : edge) :
  closed g -> closed (add_edge g e).
Proof.
  intros Hg x Hx. cbn in Hx. apply in_app_or in Hx as [Hx|[<-|[]]].
  - destruct (Hg x Hx). split; apply add_edge_nodes; now left.
  - split; apply add_edge_nodes; auto.
Qed.

Lemma closed_remove_edge (g : graph) (e : edge) :
  closed g -> closed (remove_edge g e).
Proof.
  intros Hg x Hx. cbn in Hx. apply remove_first_In in Hx. now apply Hg.
Qed.

Lemma closed_redirect (f : edge -> edge) (L : list edge) :
  forall g, closed g -> closed (redirect f L g).
Proof.
  induction L as [|e L IH]; intros g Hg; [assumption|].
  apply IH, closed_add_edge, closed_remove_edge, Hg.
Qed.

Lemma closed_add_nodes_from (ns : list Node) :
  forall g, closed g -> closed (add_nodes_from g ns).
Proof.
  induction ns as [|n ns IH]; intros g Hg; [assumption|].
  apply IH, closed_add_node, Hg.
Qed.

Lemma closed_add_edges (l : list edge) :
  forall g, closed g -> closed (fold_left add_edge l g).
Proof.
  induction l as [|e l IH]; intros g Hg; [assumption|].
  apply IH, closed_add_edge, Hg.
Qed.

Lemma closed_remove_nodes_from (ns : list Node) (g : graph) :
  closed g -> closed (remove_nodes_from g ns).
Proof.
  intros Hg e He. rewrite remove_nodes_from_edges in He.
  apply filter_In in He as [He Ho]. apply outside_true in Ho as [Hs Hd].
  destruct (Hg e He). rewrite remove_nodes_from_nodes.
  split; apply filter_In; split; try assumption;
    now apply negb_true_iff, mem_not_In.
Qed.

Lemma closed_splice (graph old new : gr.graph) (os ok ns nk : Node) :
  closed graph -> closed (splice graph old new os ok ns nk).
Proof.
  intros Hg. unfold splice, change_edge_src, change_edge_dest.
  apply closed_remove_nodes_from.
  apply (closed_redirect (fun e => with_src e nk)).
  apply (closed_redirect (fun e => with_dst e ns)).
  now apply closed_add_edges, closed_add_nodes_from.
Qed.

End RoundTripFacts.

Section RoundTrip.
Import gr nxutil_edit.

Lemma outside_intro (O : list Node) (e : edge) :
  ~ In (src e) O -> ~ In (dst e) O -> outside O e = true.
Proof. intros. now apply outside_true. Qed.

Lemma outside_src_in (O : list Node) (e : edge) :
  In (src e) O -> outside O e = false.
Proof.
  intros Hs. unfold outside. apply mem_In in Hs. now rewrite Hs.
Qed.

Lemma outside_dst_in (O : list Node) (e : edge) :
  In (dst e) O -> outside O e = false.
Proof.
  intros Hd. unfold outside. apply mem_In in Hd. rewrite Hd.
  apply andb_false_r.
Qed.

Lemma inside_intro (O : list Node) (e : edge) :
  In (src e) O -> In (dst e) O -> inside O e = true.
Proof.
  intros Hs Hd. unfold inside. apply mem_In in Hs, Hd. now rewrite Hs, Hd.
Qed.

Lemma inside_src_out (O : list Node) (e : edge) :
  ~ In (src e) O -> inside O e = false.
Proof.
  intros Hs. unfold inside. apply mem_not_In in Hs. now rewrite Hs.
Qed.

Lemma inside_dst_out (O : list Node) (e : edge) :
  ~ In (dst e) O -> inside O e = false.
Proof.
  intros Hd. unfold inside. apply mem_not_In in Hd. rewrite Hd.
  apply andb_false_r.
Qed.

Lemma pass_one (O : list Node) (a b c d : Node) (e : edge) :
  pass O a b c d [e]
  = if outside O (move_src c d (move_dst a b e))
    then [move_src c d (move_dst a b e)] else [].
Proof. reflexivity. Qed.

Lemma pass_cons (O : list Node) (a b c d : Node) (e : edge)
      (l : list edge) :
  pass O a b c d (e :: l) = pass O a b c d [e] ++ pass O a b c d l.
Proof. apply (pass_app O a b c d [e] l). Qed.

Variables graph old new : gr.graph.
Variables os ok ns nk : Node.

Hypothesis Hos : find_source_nodes old = [os].
Hypothesis Hok : find_sink_nodes old = [ok].
Hypothesis Hns : find_source_nodes new = [ns].
Hypothesis Hnk : find_sink_nodes new = [nk].
Hypothesis Hgraph : closed graph.
Hypothesis Hold : closed old.
Hypothesis Hnew : closed new.
Hypothesis Hsub : incl (nodes old) (nodes graph).
Hypothesis Hfresh : forall n, In n (nodes new) -> ~ In n (nodes graph).
Hypothesis Hinner :
  Permutation (filter (inside (nodes old)) (edges graph)) (edges old).
Hypothesis Hin : forall e,
    In e (edges graph) ->
    ~ In (src e) (nodes old) -> In (dst e) (nodes old) -> dst e = os.
Hypothesis Hout : forall e,
    In e (edges graph) ->
    In (src e) (nodes old) -> ~ In (dst e) (nodes old) -> src e = ok.

Let os_in : In os (nodes old) := unique_source_In _ _ Hos.
Let ok_in : In ok (nodes old) := unique_sink_In _ _ Hok.
Let ns_in : In ns (nodes new) := unique_source_In _ _ Hns.
Let nk_in : In nk (nodes new) := unique_sink_In _ _ Hnk.

Lemma no_edge_into_source (g : gr.graph) (n : Node) (e : edge) :
  find_source_nodes g = [n] -> In e (edges g) -> dst e <> n.
Proof.
  intros H He.
  assert (Hn : In n (find_source_nodes g)) by (rewrite H; now left).
  apply find_source_nodes_In in Hn as [_ Hn]. now apply Hn.
Qed.

Lemma no_edge_out_of_sink (g : gr.graph) (n : Node) (e : edge) :
  find_sink_nodes g = [n] -> In e (edges g) -> src e <> n.
Proof.
  intros H He.
  assert (Hn : In n (find_sink_nodes g)) by (rewrite H; now left).
  apply find_sink_nodes_In in Hn as [_ Hn]. now apply Hn.
Qed.

Lemma old_not_new (n : Node) : In n (nodes old) -> ~ In n (nodes new).
Proof. intros Ho Hn. apply (Hfresh n Hn). now apply Hsub. Qed.

Lemma graph_not_new (n : Node) : In n (nodes graph) -> ~ In n (nodes new).
Proof. intros Hg Hn. now apply (Hfresh n Hn). Qed.

Lemma new_not_old (n : Node) : In n (nodes new) -> ~ In n (nodes old).
Proof. intros Hn Ho. now apply (old_not_new n). Qed.

Lemma not_old_source (n : Node) : ~ In n (nodes old) -> n <> os.
Proof. intros Hn ->. now apply Hn. Qed.

Lemma not_old_sink (n : Node) : ~ In n (nodes old) -> n <> ok.
Proof. intros Hn ->. now apply Hn. Qed.

(** An edge of the graph: gone after the two replacements if it was inside
    [old], back as it was otherwise. *)
Lemma round_graph_edge (e : edge) :
  In e (edges graph) ->
  pass (nodes new) ns os nk ok (pass (nodes old) os ns ok nk [e])
  = if inside (nodes old) e then [] else [e].
Proof.
  intros He. destruct (Hgraph e He) as [Hsg Hdg].
  pose proof (graph_not_new _ Hsg) as Hsn.
  pose proof (graph_not_new _ Hdg) as Hdn.
  assert (Hdns : dst e <> ns) by (intros Heq; apply Hdn; now rewrite Heq).
  assert (Hsnk : src e <> nk) by (intros Heq; apply Hsn; now rewrite Heq).
  rewrite pass_one.
  destruct (in_dec Nat.eq_dec (src e) (nodes old)) as [Hs|Hs],
           (in_dec Nat.eq_dec (dst e) (nodes old)) as [Hd|Hd].
  - rewrite (inside_intro _ _ Hs Hd).
    assert (Heo : In e (edges old)).
    { apply (Permutation_in _ Hinner), filter_In.
      split; [assumption|now apply inside_intro]. }
    rewrite (move_dst_ne os ns e)
      by (eapply no_edge_into_source; eassumption).
    rewrite (move_src_ne ok nk e)
      by (eapply no_edge_out_of_sink; eassumption).
    now rewrite (outside_src_in _ _ Hs).
  - rewrite (inside_dst_out _ _ Hd).
    rewrite (move_dst_ne os ns e) by now apply not_old_source.
    pose proof (Hout e He Hs Hd) as Hsrc.
    rewrite (move_src_eq ok nk e Hsrc).
    destruct (with_src_fields e nk) as (Hs' & Hd' & _).
    rewrite outside_intro
      by (rewrite ?Hs', ?Hd'; auto using new_not_old).
    rewrite pass_one.
    rewrite (move_dst_ne ns os) by (rewrite Hd'; assumption).
    rewrite (move_src_eq nk ok) by assumption.
    rewrite <- Hsrc, with_src_back.
    now rewrite outside_intro.
  - rewrite (inside_src_out _ _ Hs).
    pose proof (Hin e He Hs Hd) as Hdst.
    rewrite (move_dst_eq os ns e Hdst).
    destruct (with_dst_fields e ns) as (Hs' & Hd' & _).
    rewrite (move_src_ne ok nk)
      by (rewrite Hs'; now apply not_old_sink).
    rewrite outside_intro
      by (rewrite ?Hs', ?Hd'; auto using new_not_old).
    rewrite pass_one.
    rewrite (move_dst_eq ns os) by assumption.
    rewrite <- Hdst, with_dst_back.
    rewrite (move_src_ne nk ok) by assumption.
    now rewrite outside_intro.
  - rewrite (inside_src_out _ _ Hs).
    rewrite (move_dst_ne os ns e) by now apply not_old_source.
    rewrite (move_src_ne ok nk e) by now apply not_old_sink.
    rewrite outside_intro by assumption.
    rewrite pass_one.
    rewrite (move_dst_ne ns os e) by assumption.
    rewrite (move_src_ne nk ok e) by assumption.
    now rewrite outside_intro.
Qed.

Lemma round_graph_edges (l : list edge) :
  incl l (edges graph) ->
  pass (nodes new) ns os nk ok (pass (nodes old) os ns ok nk l)
  = filter (fun e => negb (inside (nodes old) e)) l.
Proof.
  induction l as [|e l IH]; intros Hl; [reflexivity|].
  rewrite pass_cons, pass_app, round_graph_edge, IH.
  - cbn [filter]. now destruct (inside (nodes old) e).
  - intros x Hx. apply Hl. now right.
  - apply Hl. now left.
Qed.

(** An edge of [new]: put in by the first replacement, taken out by the
    second. *)
Lemma round_new_edges (l : list edge) :
  incl l (edges new) ->
  pass (nodes new) ns os nk ok (pass (nodes old) os ns ok nk l) = [].
Proof.
  induction l as [|e l IH]; intros Hl; [reflexivity|].
  assert (He : In e (edges new)) by (apply Hl; now left).
  destruct (Hnew e He) as [Hs Hd].
  rewrite pass_cons, pass_app, IH by (intros x Hx; apply Hl; now right).
  rewrite app_nil_r, pass_one.
  rewrite (move_dst_ne os ns e)
    by (apply not_old_source; auto using new_not_old).
  rewrite (move_src_ne ok nk e)
    by (apply not_old_sink; auto using new_not_old).
  rewrite outside_intro by auto using new_not_old.
  rewrite pass_one.
  rewrite (move_dst_ne ns os e)
    by (eapply no_edge_into_source; eassumption).
  rewrite (move_src_ne nk ok e)
    by (eapply no_edge_out_of_sink; eassumption).
  now rewrite (outside_src_in _ _ Hs).
Qed.

(** An edge of [old]: put in by the second replacement. *)
Lemma round_old_edges (l : list edge) :
  incl l (edges old) -> pass (nodes new) ns os nk ok l = l.
Proof.
  induction l as [|e l IH]; intros Hl; [reflexivity|].
  assert (He : In e (edges old)) by (apply Hl; now left).
  destruct (Hold e He) as [Hs Hd].
  rewrite pass_cons, IH by (intros x Hx; apply Hl; now right).
  rewrite pass_one.
  rewrite (move_dst_ne ns os e)
    by (intros Heq; apply (old_not_new _ Hd); now rewrite Heq).
  rewrite (move_src_ne nk ok e)
    by (intros Heq; apply (old_not_new _ Hs); now rewrite Heq).
  now rewrite outside_intro by auto using old_not_new.
Qed.

End RoundTrip.

Section RoundTripTheorem.
Import gr nxutil_edit.

(** C4, as the code has it.  Let [old] and [new] each have one source and
    one sink; let the graph, [old] and [new] be closed (every edge joins
    nodes of its graph); let the nodes of [old] be nodes of the graph and
    no node of [new] be one; let the edges of the graph between nodes of
    [old] be the edges of [old]; and let every other edge of the graph at
    a node of [old] come from outside into the source of [old] or go from
    the sink of [old] to the outside.  Then replacing [old] by [new] and
    then [new] by [old] succeeds both times and gives back the edges of
    the graph, in some order, and its nodes. *)
Theorem replace_subgraph_round_trip (graph old new : gr.graph)
        (os ok ns nk : Node)
        (Hos : find_source_nodes old = [os])
        (Hok : find_sink_nodes old = [ok])
        (Hns : find_source_nodes new = [ns])
        (Hnk : find_sink_nodes new = [nk])
        (Hgraph : closed graph) (Hold : closed old) (Hnew : closed new)
        (Hsub : incl (nodes old) (nodes graph))
        (Hfresh : forall n, In n (nodes new) -> ~ In n (nodes graph))
        (Hinner : Permutation (filter (inside (nodes old)) (edges graph))
                              (edges old))
        (Hin : forall e, In e (edges graph) ->
                         ~ In (src e) (nodes old) ->
                         In (dst e) (nodes old) -> dst e = os)
        (Hout : forall e, In e (edges graph) ->
                          In (src e) (nodes old) ->
                          ~ In (dst e) (nodes old) -> src e = ok) :
  exists g1 g2 : gr.graph,
    replace_subgraph graph old new = (true, g1)
    /\ replace_subgraph g1 new old = (true, g2)
    /\ Permutation (edges g2) (edges graph)
    /\ forall n, In n (nodes g2) <-> In n (nodes graph).
Proof.
  pose proof (unique_source_In _ _ Hos) as os_in.
  pose proof (unique_sink_In _ _ Hok) as ok_in.
  pose proof (unique_source_In _ _ Hns) as ns_in.
  pose proof (unique_sink_In _ _ Hnk) as nk_in.
  exists (splice graph old new os ok ns nk).
  exists (splice (splice graph old new os ok ns nk) new old ns nk os ok).
  split; [now apply replace_subgraph_accepts|].
  split; [now apply replace_subgraph_accepts|]. split.
  - rewrite splice_edges_pass.
    rewrite (pass_perm _ _ _ _ _ _ _
               (Permutation_app_tail (edges old)
                  (splice_edges_pass graph old new os ok ns nk))).
    rewrite !pass_app.
    rewrite (round_graph_edges graph old new os ok ns nk)
      by first [assumption | apply incl_refl].
    rewrite (round_new_edges graph old new os ok ns nk)
      by first [assumption | apply incl_refl].
    rewrite (round_old_edges graph old new os ok ns nk)
      by first [assumption | apply incl_refl].
    rewrite app_nil_r, <- Hinner. apply perm_partition.
  - intros n. split.
    + intros Hn.
      apply splice_nodes_upper in Hn as [[Hn|Hn] Hnn];
        auto using closed_splice.
      apply splice_nodes_upper in Hn as [[Hn|Hn] Hno]; auto.
      contradiction.
    + intros Hn.
      assert (Hnn : ~ In n (nodes new))
        by (intros Hnew'; now apply (Hfresh n)).
      apply splice_nodes_lower; [|assumption].
      destruct (in_dec Nat.eq_dec n (nodes old)) as [Ho|Ho]; [now right|].
      left. apply splice_nodes_lower; auto.
Qed.

End RoundTripTheorem.


(** ** The properties on the example graphs *)

Section Checks.
Import gr nxutil_edit nxutil_path nxutil_dfs examples.

Ltac each_of H := cbn in H; repeat (destruct H as [<-|H]); [..|destruct H].

Ltac not_among := cbn; intuition discriminate.

(** C1 does not hold of the code.  The graph [0 -> 1] is acyclic; with the
    sources [1; 0] node 1 is yielded first, before its predecessor 0: the
    outer loop yields a start node without the look at its predecessors
    that a child gets. *)
Lemma dfs_topological_sort_start_unchecked :
  (forall e, In e (edges two_path) -> (src e < dst e)%nat)
  /\ dfs_topological_sort 20 two_path (Some (SourceList [1; 0]%nat)) None
     = Some [1; 0]%nat
  /\ In 0%nat (predecessors two_path 1%nat)
  /\ ~ (forall pre n post,
           [1; 0]%nat = pre ++ n :: post ->
           forall p, In p (predecessors two_path n) -> In p pre).
Proof.
  split; [intros e He; each_of He; cbn; lia|].
  split; [reflexivity|]. split; [now left|].
  intros Hall. apply (Hall [] 1%nat [0%nat] eq_refl 0%nat). now left.
Qed.

(** The same happens without [sources], when the nodes of the graph are
    not listed in the order of its edges: node 1, added first, is yielded
    before its predecessor 0. *)
Example dfs_topological_sort_late_source :
  nodes late_source.graph = [1; 0]%nat
  /\ edges late_source.graph = [Edge 0%nat 1%nat None]
  /\ dfs_topological_sort 20 late_source.graph None None
     = Some [1; 0]%nat
  /\ In 0%nat (predecessors late_source.graph 1%nat).
Proof. repeat split; now left. Qed.

(** On the same graph with the source 0 the order is [0; 1]. *)
Example dfs_topological_sort_two_path :
  dfs_topological_sort 20 two_path (Some (SourceNode 0%nat)) None
  = Some [0; 1]%nat.
Proof. reflexivity. Qed.

(** The path graph through three nodes has the two edges of the path, and
    the order from its first node is the path. *)
Example node_path_graph_three :
  node_path_graph [0; 1; 2]%nat
  = mk_graph [0; 1; 2]%nat [Edge 0%nat 1%nat None; Edge 1%nat 2%nat None]
  /\ dfs_topological_sort 20 (node_path_graph [0; 1; 2]%nat)
                          (Some (SourceNode 0%nat)) None
     = Some [0; 1; 2]%nat.
Proof. split; reflexivity. Qed.

(** The path [0 -> 1 -> 2 -> 3] without sources. *)
Example dfs_topological_sort_four_path :
  dfs_topological_sort 20 four_path None None = Some [0; 1; 2; 3]%nat.
Proof. reflexivity. Qed.

Lemma replace_subgraph_rejects_witness :
  (length (find_source_nodes two_nodes) <> 1%nat
   \/ length (find_sink_nodes two_nodes) <> 1%nat
   \/ length (find_source_nodes (node_path_graph [7%nat])) <> 1%nat
   \/ length (find_sink_nodes (node_path_graph [7%nat])) <> 1%nat)
  /\ replace_subgraph four_path two_nodes (node_path_graph [7%nat])
     = (false, four_path).
Proof.
  assert (Hbad : length (find_source_nodes two_nodes) <> 1%nat
                 \/ length (find_sink_nodes two_nodes) <> 1%nat
                 \/ length (find_source_nodes (node_path_graph [7%nat]))
                    <> 1%nat
                 \/ length (find_sink_nodes (node_path_graph [7%nat]))
                    <> 1%nat)
    by (left; cbn; discriminate).
  split; [exact Hbad|].
  exact (replace_subgraph_rejects four_path two_nodes
           (node_path_graph [7%nat]) Hbad).
Defined.

(** C2, as stated, fails.  In the graph [0 -> 1 -> 0] with [old] the path
    [0 -> 1] and [new] the single node 2, the edge [1 -> 0] into the source
    of [old] does not keep its source: it ends as the loop [2 -> 2].  And
    with [new] the same graph as [old], here the single node 1 of the graph
    [0 -> 1], [True] is returned and the node of [new] is not in the graph
    afterwards. *)
Lemma replace_subgraph_loses_boundary :
  (find_source_nodes two_path = [0%nat]
   /\ find_sink_nodes two_path = [1%nat]
   /\ find_source_nodes (node_path_graph [2%nat]) = [2%nat]
   /\ find_sink_nodes (node_path_graph [2%nat]) = [2%nat]
   /\ replace_subgraph two_cycle two_path (node_path_graph [2%nat])
      = (true, mk_graph [2%nat] [Edge 2%nat 2%nat None])
   /\ In (Edge 1%nat 0%nat None) (in_edges two_cycle 0%nat)
   /\ ~ In (with_dst (Edge 1%nat 0%nat None) 2%nat)
           [Edge 2%nat 2%nat None])
  /\ (find_source_nodes (node_path_graph [1%nat]) = [1%nat]
      /\ find_sink_nodes (node_path_graph [1%nat]) = [1%nat]
      /\ replace_subgraph two_path (node_path_graph [1%nat])
                          (node_path_graph [1%nat])
         = (true, mk_graph [0%nat] [])
      /\ In 1%nat (nodes (node_path_graph [1%nat]))
      /\ ~ In 1%nat [0%nat]).
Proof.
  split.
  - repeat (split; [reflexivity|]). split; [now left|].
    cbn. intros [H|[]]. discriminate.
  - repeat (split; [reflexivity|]). split; [now left|].
    cbn. intros [H|[]]. discriminate.
Qed.

Lemma replace_subgraph_splices_witness :
  find_source_nodes (node_path_graph [1; 2]%nat) = [1%nat]
  /\ find_sink_nodes (node_path_graph [1; 2]%nat) = [2%nat]
  /\ find_source_nodes (node_path_graph [7; 8; 9]%nat) = [7%nat]
  /\ find_sink_nodes (node_path_graph [7; 8; 9]%nat) = [9%nat]
  /\ exists graph' : gr.graph,
       replace_subgraph four_path (node_path_graph [1; 2]%nat)
                        (node_path_graph [7; 8; 9]%nat) = (true, graph')
       /\ In (Edge 0%nat 7%nat None) (edges graph')
       /\ In (Edge 9%nat 3%nat None) (edges graph').
Proof.
  repeat (split; [reflexivity|]).
  destruct (replace_subgraph_splices four_path
              (node_path_graph [1; 2]%nat) (node_path_graph [7; 8; 9]%nat)
              1%nat 2%nat 7%nat 9%nat eq_refl eq_refl eq_refl eq_refl)
    as (graph' & Hret & _ & _ & Hinto & Hfrom & _).
  - intros n Hn. each_of Hn; not_among.
  - intros e He. each_of He; split; not_among.
  - exists graph'. split; [exact Hret|]. split.
    + apply (Hinto (Edge 0%nat 1%nat None)); [now left|reflexivity|].
      not_among.
    + apply (Hfrom (Edge 2%nat 3%nat None));
        [right; right; now left|reflexivity|]. not_among.
Defined.

(** C4, as stated, fails.  In the graph [0 -> 1 -> 2] with the edge
    [0 -> 2], replace the path [1 -> 2] by the single node 3 and then the
    node 3 by the path [1 -> 2]: both calls return [True], and the edge
    [0 -> 2] is lost. *)
Lemma replace_subgraph_round_trip_loses_edge :
  exists g1 g2 : gr.graph,
    replace_subgraph triangle (node_path_graph [1; 2]%nat)
                     (node_path_graph [3%nat]) = (true, g1)
    /\ replace_subgraph g1 (node_path_graph [3%nat])
                        (node_path_graph [1; 2]%nat) = (true, g2)
    /\ In (Edge 0%nat 2%nat None) (edges triangle)
    /\ ~ In (Edge 0%nat 2%nat None) (edges g2)
    /\ ~ Permutation (edges g2) (edges triangle).
Proof.
  eexists. eexists. split; [reflexivity|]. split; [reflexivity|].
  split; [right; right; now left|].
  assert (Hlost : ~ In (Edge 0%nat 2%nat None)
                       [Edge 1%nat 2%nat None; Edge 0%nat 1%nat None])
    by not_among.
  split; [exact Hlost|].
  intros Hp. apply Hlost. apply (Permutation_in _ (Permutation_sym Hp)).
  right; right; now left.
Qed.

Lemma replace_subgraph_round_trip_witness :
  exists g1 g2 : gr.graph,
    replace_subgraph four_path (node_path_graph [1; 2]%nat)
                     (node_path_graph [7; 8; 9]%nat) = (true, g1)
    /\ replace_subgraph g1 (node_path_graph [7; 8; 9]%nat)
                        (node_path_graph [1; 2]%nat) = (true, g2)
    /\ Permutation (edges g2) (edges four_path)
    /\ forall n, In n (nodes g2) <-> In n (nodes four_path).
Proof.
  apply (replace_subgraph_round_trip four_path
           (node_path_graph [1; 2]%nat) (node_path_graph [7; 8; 9]%nat)
           1%nat 2%nat 7%nat 9%nat eq_refl eq_refl eq_refl eq_refl).
  - intros e He. each_of He; split; cbn; auto.
  - intros e He. each_of He; split; cbn; auto.
  - intros e He. each_of He; split; cbn; auto.
  - intros n Hn. each_of Hn; cbn; auto.
  - intros n Hn. each_of Hn; not_among.
  - vm_compute. apply Permutation_refl.
  - intros e He Hs Hd. each_of He; try reflexivity; exfalso.
    + apply Hs. now left.
    + cbn in Hd. intuition discriminate.
  - intros e He Hs Hd. each_of He; try reflexivity; exfalso.
    + cbn in Hs. intuition discriminate.
    + apply Hd. right. now left.
Defined.

End Checks.

(** ** [merge_maps] *)

Section MergeLoops.
Import gr nxutil_edit nxutil_merge.
Import (notations) String.

Lemma filter_remove_first (P : edge -> bool) (x : edge) (l : list edge) :
  P x = false -> filter P (remove_first x l) = filter P l.
Proof.
  intros Hx. induction l as [|y l IH]; cbn; [reflexivity|].
  destruct (edge_eq_dec x y) as [<-|Hne]; cbn.
  - now rewrite Hx.
  - now rewrite IH.
Qed.

Lemma remove_first_other (x y : edge) (l : list edge) :
  In x l -> x <> y -> In x (remove_first y l).
Proof.
  intros Hin Hne. induction l as [|z l IH]; cbn; [destruct Hin|].
  destruct (edge_eq_dec y z) as [<-|Hyz].
  - destruct Hin as [Heq|Hin]; [congruence|assumption].
  - destruct Hin as [Heq|Hin]; [now left|right; auto].
Qed.

Lemma for_each_inv (A S : Type) (body : S -> A -> result S)
      (Inv : S -> Prop) (l : list A) :
  (forall s a, In a l -> Inv s -> exists s', body s a = Ok s' /\ Inv s') ->
  forall s, Inv s -> exists s', for_each body l s = Ok s' /\ Inv s'.
Proof.
  induction l as [|a l IH]; intros Hbody s Hs; cbn.
  - now exists s.
  - destruct (Hbody s a (or_introl eq_refl) Hs) as [s1 [-> Hs1]]. cbn.
    apply IH; [|assumption]. intros s2 b Hb. apply Hbody. now right.
Qed.

Lemma first_match_ok (attr : edge -> option Conn) (name : String.string)
      (inner : list edge) :
  (forall e, In e inner -> attr e <> None) ->
  (exists e, In e inner /\ attr e = Some (Some name)) ->
  exists e', first_match attr name inner = Ok e'
             /\ In e' inner /\ attr e' = Some (Some name).
Proof.
  intros Hall [e [He Hattr]]. unfold first_match.
  assert (Hfa : forallb (fun e => match attr e with
                                  | Some _ => true
                                  | None => false
                                  end) inner = true).
  { apply forallb_forall. intros x Hx. specialize (Hall x Hx).
    now destruct (attr x). }
  rewrite Hfa.
  destruct (filter _ inner) as [|e' l] eqn:Hf.
  - assert (Hin : In e (filter (fun e => match attr e with
                                         | Some c => conn_is name c
                                         | None => false
                                         end) inner)).
    { apply filter_In. split; [assumption|]. rewrite Hattr. cbn.
      apply String.eqb_refl. }
    rewrite Hf in Hin. destruct Hin.
  - exists e'. split; [reflexivity|].
    assert (Hin : In e' (filter (fun e => match attr e with
                                          | Some c => conn_is name c
                                          | None => false
                                          end) inner))
      by (rewrite Hf; now left).
    apply filter_In in Hin as [Hin Hc]. split; [assumption|].
    destruct (attr e') as [[s|]|]; try discriminate.
    cbn in Hc. apply String.eqb_eq in Hc. now subst.
Qed.

Lemma connector_edge_attrs (e : edge) :
  is_connector_edge e = true ->
  exists sc dc, src_conn e = Some sc /\ dst_conn e = Some dc.
Proof. destruct e; [discriminate|]. intros _. cbn. eauto. Qed.

(** What one round of the first loop does, when the edge has its match. *)
Lemma redirect_inner_in_ok (merged_entry : Node)
      (inner_in_edges : list edge) (graph : gr.graph) (edge : gr.edge)
      (name : String.string) :
  (forall e, In e inner_in_edges -> is_connector_edge e = true) ->
  is_connector_edge edge = true ->
  dst_conn edge = Some (Some name) ->
  (exists e, In e inner_in_edges
             /\ src_conn e
                = Some (Some (String.append "OUT_" (string_drop 3 name)))) ->
  exists inner_edge new_edge,
    redirect_inner_in merged_entry inner_in_edges graph edge
    = Ok (add_edge (remove_edge (remove_edge graph edge) inner_edge)
                   new_edge)
    /\ In inner_edge inner_in_edges
    /\ is_connector_edge new_edge = true
    /\ src new_edge = merged_entry
    /\ dst new_edge = dst inner_edge
    /\ dst_conn new_edge = dst_conn inner_edge.
Proof.
  intros Hall Hedge Hdc Hex.
  destruct (first_match_ok src_conn
              (String.append "OUT_" (string_drop 3 name)) inner_in_edges)
    as (ie & Hfm & Hie & _); [|exact Hex|].
  { intros e He. destruct (connector_edge_attrs e (Hall e He))
      as (sc & dc & -> & _). discriminate. }
  destruct (connector_edge_attrs edge Hedge) as (esc & edc & Hesc & Hedc).
  destruct (connector_edge_attrs ie (Hall ie Hie)) as (isc & idc & _ & Hidc).
  exists ie, (MultiConnectorEdge merged_entry esc (dst ie) idc (data ie)).
  split; [|cbn; auto].
  unfold redirect_inner_in, get_dst_conn, get_src_conn.
  rewrite Hdc. cbn [bind slice_from]. rewrite Hfm. cbn [bind].
  rewrite Hesc, Hidc. reflexivity.
Qed.

Lemma redirect_inner_out_ok (merged_exit : Node)
      (inner_out_edges : list edge) (graph : gr.graph) (edge : gr.edge)
      (name : String.string) :
  (forall e, In e inner_out_edges -> is_connector_edge e = true) ->
  is_connector_edge edge = true ->
  src_conn edge = Some (Some name) ->
  (exists e, In e inner_out_edges
             /\ dst_conn e
                = Some (Some (String.append "IN_" (string_drop 4 name)))) ->
  exists graph',
    redirect_inner_out merged_exit inner_out_edges graph edge = Ok graph'.
Proof.
  intros Hall Hedge Hsc Hex.
  destruct (first_match_ok dst_conn
              (String.append "IN_" (string_drop 4 name)) inner_out_edges)
    as (ie & Hfm & Hie & _); [|exact Hex|].
  { intros e He. destruct (connector_edge_attrs e (Hall e He))
      as (sc & dc & _ & ->). discriminate. }
  destruct (connector_edge_attrs edge Hedge) as (esc & edc & Hesc & Hedc).
  destruct (connector_edge_attrs ie (Hall ie Hie)) as (isc & idc & Hisc & _).
  eexists.
  unfold redirect_inner_out, get_dst_conn, get_src_conn.
  rewrite Hsc. cbn [bind slice_from]. rewrite Hfm. cbn [bind].
  rewrite Hisc, Hedc. reflexivity.
Qed.

End MergeLoops.

Section MergeMapsFacts.
Import gr nxutil_edit nxutil_merge.
Import (notations) String.

Variables Params Ranges : Type.
Variable graph : gr.graph.
Variables outer_map_entry outer_map_exit
          inner_map_entry inner_map_exit : dace_nodes.MapNode Params Ranges.
Variable param_merge : Params -> Params -> Params.
Variable range_merge : Ranges -> Ranges -> Ranges.
Variables entry_id exit_id : Node.

Let oe : Node := dace_nodes.ident _ _ outer_map_entry.
Let ox : Node := dace_nodes.ident _ _ outer_map_exit.
Let ie : Node := dace_nodes.ident _ _ inner_map_entry.
Let ix : Node := dace_nodes.ident _ _ inner_map_exit.

Lemma exit_side_kept_step (g : gr.graph) (edge inner_edge new_edge : edge) :
  ix <> src edge -> ix <> dst edge -> ix <> src inner_edge ->
  ix <> src new_edge ->
  is_connector_edge new_edge = true ->
  dst new_edge = dst inner_edge ->
  dst_conn new_edge = dst_conn inner_edge ->
  exit_side_kept ix ox graph g ->
  exit_side_kept ix ox graph
    (add_edge (remove_edge (remove_edge g edge) inner_edge) new_edge).
Proof.
  intros Hse Hde Hsi Hsn Hcn Hdn Hdcn (Hc & Hb & Hk).
  assert (Hnot : forall x, ix <> src x ->
                   Nat.eqb (src x) ix && Nat.eqb (dst x) ox = false).
  { intros x Hx. apply andb_false_iff. left. apply Nat.eqb_neq. auto. }
  repeat split.
  - intros e He. cbn in He. apply in_app_or in He as [He|[<-|[]]].
    + apply Hc. eapply remove_first_In, remove_first_In. eassumption.
    + assumption.
  - unfold edges_between in *. cbn [edges add_edge remove_edge].
    rewrite filter_app. cbn [filter]. rewrite (Hnot new_edge Hsn).
    rewrite app_nil_r, !filter_remove_first by auto. assumption.
  - intros e He. destruct (Hk e He) as (e' & He' & Hdc).
    unfold in_edges in *. cbn [edges add_edge remove_edge].
    apply filter_In in He' as [He' Hd']. apply Nat.eqb_eq in Hd'.
    destruct (edge_eq_dec e' inner_edge) as [->|Hne].
    + exists new_edge. split; [|congruence].
      apply filter_In. split; [apply in_or_app; right; now left|].
      apply Nat.eqb_eq. congruence.
    + exists e'. split; [|assumption].
      apply filter_In. split; [|now apply Nat.eqb_eq].
      apply in_or_app. left.
      apply remove_first_other; [|assumption].
      apply remove_first_other; [assumption|]. congruence.
Qed.

Hypothesis Hconnector :
  forall e, In e (edges graph) -> is_connector_edge e = true.
Hypothesis Hin : forall edge,
    In edge (edges_between graph oe ie) ->
    exists name,
      dst_conn edge = Some (Some name)
      /\ exists inner, In inner (out_edges graph ie)
                       /\ src_conn inner
                          = Some (Some (String.append "OUT_"
                                          (string_drop 3 name))).
Hypothesis Hout : forall edge,
    In edge (edges_between graph ix ox) ->
    exists name,
      src_conn edge = Some (Some name)
      /\ exists inner, In inner (in_edges graph ix)
                       /\ dst_conn inner
                          = Some (Some (String.append "IN_"
                                          (string_drop 4 name))).
Hypothesis Hexit : ix <> oe /\ ix <> ie /\ ix <> entry_id.

Lemma merge_maps_loops :
  let g0 := add_nodes_from graph [entry_id; exit_id] in
  exists g1 g2,
    for_each (redirect_inner_in entry_id (out_edges g0 ie))
             (edges_between g0 oe ie) g0 = Ok g1
    /\ for_each (redirect_inner_out exit_id (in_edges g1 ix))
                (edges_between g1 ix ox) g1 = Ok g2.
Proof.
  intros g0. destruct Hexit as (Hoe & Hie & Hid).
  assert (Hg0 : edges g0 = edges graph) by apply add_nodes_from_edges.
  assert (Hkept0 : exit_side_kept ix ox graph g0).
  { unfold exit_side_kept, edges_between, in_edges. rewrite Hg0.
    repeat split; eauto. }
  destruct (for_each_inv _ _
              (redirect_inner_in entry_id (out_edges g0 ie))
              (exit_side_kept ix ox graph) (edges_between g0 oe ie))
    with (s := g0) as (g1 & Hg1 & Hkept1); [|assumption|].
  { intros g edge Hedge Hkept.
    unfold edges_between, out_edges in *. rewrite Hg0 in *.
    destruct (Hin edge Hedge) as (name & Hdc & Hinner).
    apply filter_In in Hedge as [Hedge Hends].
    apply andb_true_iff in Hends as [Hs Hd].
    apply Nat.eqb_eq in Hs, Hd.
    destruct (redirect_inner_in_ok entry_id
                (filter (fun e => Nat.eqb (src e) ie) (edges graph))
                g edge name)
      as (inner_edge & new_edge & Hrun & Hi & Hcn & Hsn & Hdn & Hdcn);
      auto.
    { intros e He. apply filter_In in He as [He _]. auto. }
    exists (add_edge (remove_edge (remove_edge g edge) inner_edge)
                     new_edge).
    split; [exact Hrun|].
    apply filter_In in Hi as [_ Hsi]. apply Nat.eqb_eq in Hsi.
    apply exit_side_kept_step; auto; congruence. }
  exists g1. destruct Hkept1 as (Hc1 & Hb1 & Hk1).
  destruct (for_each_inv _ _
              (redirect_inner_out exit_id (in_edges g1 ix))
              (fun _ => True) (edges_between g1 ix ox))
    with (s := g1) as (g2 & Hg2 & _); [|exact I|].
  { intros g edge Hedge _. rewrite Hb1 in Hedge.
    destruct (Hout edge Hedge) as (name & Hsc & inner & Hinner & Hdc).
    destruct (Hk1 inner Hinner) as (inner' & Hinner' & Hdc').
    destruct (redirect_inner_out_ok exit_id (in_edges g1 ix) g edge name)
      as (g' & Hrun); auto.
    - intros e He. apply filter_In in He as [He _]. auto.
    - apply Hconnector. unfold edges_between in Hedge.
      now apply filter_In in Hedge as [Hedge _].
    - exists inner'. split; [assumption|congruence].
    - now exists g'. }
  exists g2. split; assumption.
Qed.

End MergeMapsFacts.

Section MergeMapsTheorem.
Import gr nxutil_edit nxutil_merge.
Import (notations) String.

(** C5. For two nested maps in a dataflow graph in which every edge between
    the outer and the inner entry has its matching edge out of the inner
    entry (an edge into [IN_k] has an edge out of [OUT_k]), and every edge
    between the inner and the outer exit its matching edge into the inner
    exit, [merge_maps] returns a new entry and exit that share one map; the
    parameters and the range of that map are [param_merge] and
    [range_merge] of those of the outer and the inner map; its schedule and
    its flags [unroll], [is_async] and [flatten] are those of the outer
    map; the connectors of the new entry and exit are those of the outer
    entry and exit; and afterwards the four old entry and exit nodes are
    not in the graph and no edge of the graph starts or ends at one of
    them. *)
Theorem merge_maps_fuses (Params Ranges : Type) (graph : gr.graph)
        (outer_map_entry outer_map_exit
         inner_map_entry inner_map_exit : dace_nodes.MapNode Params Ranges)
        (param_merge : Params -> Params -> Params)
        (range_merge : Ranges -> Ranges -> Ranges)
        (entry_id exit_id : Node)
        (Hconnector : forall e, In e (edges graph) ->
                                is_connector_edge e = true)
        (Hin : forall edge,
            In edge (edges_between graph
                       (dace_nodes.ident _ _ outer_map_entry)
                       (dace_nodes.ident _ _ inner_map_entry)) ->
            exists name,
              dst_conn edge = Some (Some name)
              /\ exists inner,
                   In inner (out_edges graph
                               (dace_nodes.ident _ _ inner_map_entry))
                   /\ src_conn inner
                      = Some (Some (String.append "OUT_"
                                      (string_drop 3 name))))
        (Hout : forall edge,
            In edge (edges_between graph
                       (dace_nodes.ident _ _ inner_map_exit)
                       (dace_nodes.ident _ _ outer_map_exit)) ->
            exists name,
              src_conn edge = Some (Some name)
              /\ exists inner,
                   In inner (in_edges graph
                               (dace_nodes.ident _ _ inner_map_exit))
                   /\ dst_conn inner
                      = Some (Some (String.append "IN_"
                                      (string_drop 4 name))))
        (Hexit : dace_nodes.ident _ _ inner_map_exit
                 <> dace_nodes.ident _ _ outer_map_entry
                 /\ dace_nodes.ident _ _ inner_map_exit
                    <> dace_nodes.ident _ _ inner_map_entry
                 /\ dace_nodes.ident _ _ inner_map_exit <> entry_id) :
  exists (graph' : gr.graph)
         (merged_entry merged_exit : dace_nodes.MapNode Params Ranges),
    merge_maps Params Ranges graph outer_map_entry outer_map_exit
               inner_map_entry inner_map_exit param_merge range_merge
               entry_id exit_id
    = Ok (graph', (merged_entry, merged_exit))
    /\ (let merged_map := dace_nodes.map _ _ merged_entry in
        let outer_map := dace_nodes.map _ _ outer_map_entry in
        let inner_map := dace_nodes.map _ _ inner_map_entry in
        dace_nodes.map _ _ merged_exit = merged_map
        /\ dace_nodes.params _ _ merged_map
           = param_merge (dace_nodes.params _ _ outer_map)
                         (dace_nodes.params _ _ inner_map)
        /\ dace_nodes.range _ _ merged_map
           = range_merge (dace_nodes.range _ _ outer_map)
                         (dace_nodes.range _ _ inner_map)
        /\ dace_nodes.schedule _ _ merged_map
           = dace_nodes.schedule _ _ outer_map
        /\ dace_nodes.unroll _ _ merged_map
           = dace_nodes.unroll _ _ outer_map
        /\ dace_nodes.is_async _ _ merged_map
           = dace_nodes.is_async _ _ outer_map
        /\ dace_nodes.flatten _ _ merged_map
           = dace_nodes.flatten _ _ outer_map)
    /\ dace_nodes.in_connectors _ _ merged_entry
       = dace_nodes.in_connectors _ _ outer_map_entry
    /\ dace_nodes.out_connectors _ _ merged_entry
       = dace_nodes.out_connectors _ _ outer_map_entry
    /\ dace_nodes.in_connectors _ _ merged_exit
       = dace_nodes.in_connectors _ _ outer_map_exit
    /\ dace_nodes.out_connectors _ _ merged_exit
       = dace_nodes.out_connectors _ _ outer_map_exit
    /\ forall n, In n [dace_nodes.ident _ _ outer_map_entry;
                       dace_nodes.ident _ _ outer_map_exit;
                       dace_nodes.ident _ _ inner_map_entry;
                       dace_nodes.ident _ _ inner_map_exit] ->
                 ~ In n (nodes graph')
                 /\ forall e, In e (edges graph') ->
                              src e <> n /\ dst e <> n.
Proof.
  destruct (merge_maps_loops Params Ranges graph
              outer_map_entry outer_map_exit inner_map_entry inner_map_exit
              entry_id exit_id Hconnector Hin Hout Hexit)
    as (g1 & g2 & Hg1 & Hg2).
  set (oe := dace_nodes.ident _ _ outer_map_entry) in *.
  set (ox := dace_nodes.ident _ _ outer_map_exit) in *.
  set (ie := dace_nodes.ident _ _ inner_map_entry) in *.
  set (ix := dace_nodes.ident _ _ inner_map_exit) in *.
  remember (change_edge_src (change_edge_dest g2 oe entry_id) ox exit_id)
    as g4 eqn:Hg4.
  exists (remove_nodes_from g4 [oe; ox; ie; ix]).
  eexists. eexists. split.
  - unfold merge_maps. fold oe ox ie ix. rewrite Hg1. cbn [bind].
    rewrite Hg2. cbn [bind]. rewrite <- Hg4. reflexivity.
  - split; [cbv zeta; repeat split; reflexivity|].
    repeat (split; [reflexivity|]). intros n Hn. split.
    + rewrite remove_nodes_from_nodes. intros Hn'.
      apply filter_In in Hn' as [_ Hn']. apply negb_true_iff in Hn'.
      apply mem_not_In in Hn'. contradiction.
    + intros e He. rewrite remove_nodes_from_edges in He.
      apply filter_In in He as [_ Ho]. apply outside_true in Ho.
      split; intros Heq; [apply (proj1 Ho)|apply (proj2 Ho)];
        now rewrite Heq.
Qed.

End MergeMapsTheorem.


Section MergeChecks.
Import gr nxutil_edit nxutil_merge.
Import (notations) String.

Ltac each_edge H := cbn in H; repeat (destruct H as [<-|H]); [..|destruct H].

(** The two nested maps of the example merge into one map over [i, j],
    and the data goes straight from the new entry to the tasklet and from
    the tasklet to the new exit. *)
Example merge_maps_nested :
  exists merged_entry merged_exit,
    merge_maps _ _ nested_maps.graph
               nested_maps.outer_map_entry nested_maps.outer_map_exit
               nested_maps.inner_map_entry nested_maps.inner_map_exit
               nested_maps.param_merge nested_maps.range_merge 7%nat 8%nat
    = Ok (nested_maps.merged_graph, (merged_entry, merged_exit))
    /\ dace_nodes.params _ _ (dace_nodes.map _ _ merged_entry)
       = ["i"; "j"]%string
    /\ dace_nodes.range _ _ (dace_nodes.map _ _ merged_entry)
       = [("0", "N"); ("0", "M")]%string.
Proof. eexists. eexists. split; [reflexivity|]. split; reflexivity. Qed.

Lemma merge_maps_fuses_witness :
  (forall e, In e (edges nested_maps.graph) -> is_connector_edge e = true)
  /\ (4 <> 1 /\ 4 <> 2 /\ 4 <> 7)%nat
  /\ exists graph' merged_entry merged_exit,
       merge_maps _ _ nested_maps.graph
                  nested_maps.outer_map_entry nested_maps.outer_map_exit
                  nested_maps.inner_map_entry nested_maps.inner_map_exit
                  nested_maps.param_merge nested_maps.range_merge
                  7%nat 8%nat
       = Ok (graph', (merged_entry, merged_exit))
       /\ dace_nodes.params _ _ (dace_nodes.map _ _ merged_entry)
          = nested_maps.param_merge ["i"%string] ["j"%string]
       /\ forall n, In n [1; 5; 2; 4]%nat ->
                    ~ In n (nodes graph')
                    /\ forall e, In e (edges graph') ->
                                 src e <> n /\ dst e <> n.
Proof.
  assert (Hconnector : forall e, In e (edges nested_maps.graph) ->
                                 is_connector_edge e = true)
    by (intros e He; each_edge He; reflexivity).
  assert (Hexit : (4 <> 1 /\ 4 <> 2 /\ 4 <> 7)%nat)
    by (repeat split; discriminate).
  split; [exact Hconnector|]. split; [exact Hexit|].
  destruct (merge_maps_fuses nested_maps.Params nested_maps.Ranges
              nested_maps.graph
              nested_maps.outer_map_entry nested_maps.outer_map_exit
              nested_maps.inner_map_entry nested_maps.inner_map_exit
              nested_maps.param_merge nested_maps.range_merge 7%nat 8%nat
              Hconnector)
    as (graph' & merged_entry & merged_exit & Hrun & Hmap & _ & _ & _ & _
        & Hgone).
  - intros edge Hedge. each_edge Hedge. exists "IN_0"%string.
    split; [reflexivity|].
    eexists. split; [left; reflexivity|reflexivity].
  - intros edge Hedge. each_edge Hedge. exists "OUT_0"%string.
    split; [reflexivity|].
    eexists. split; [left; reflexivity|reflexivity].
  - exact Hexit.
  - exists graph', merged_entry, merged_exit.
    split; [exact Hrun|]. split; [apply Hmap|exact Hgone].
Defined.

End MergeChecks.

(** * Further properties of the traversals *)

Section SearchMore.
Import nxutil_search.
Context {N : Type} `{SearchNode N}.

Lemma below_leaves (children : list N) : below 0 children = children.
Proof.
  induction children as [|c cs IH]; [reflexivity|].
  rewrite below_cons, IH. reflexivity.
Qed.

(** The state at the end of the search, for any depth other than 0. *)
Lemma depth_limited_search_run_any (source : N) (depth : Z) :
  depth <> 0 ->
  exists f : nat, forall fuel : nat, (f <= fuel)%nat ->
    depth_limited_search_run fuel source depth
    = Some (fold_left consider
              (below (levels_left depth 0) (children_iter source))
              (mk_search_state source (evaluate source) [source])).
Proof.
  intros H0. unfold depth_limited_search_run.
  destruct (depth =? 0) eqn:E; [apply Z.eqb_eq in E; contradiction|].
  destruct (search_loop_entry depth (levels_left depth 0) 0
              (children_iter source) source []
              (mk_search_state source (evaluate source) [source])
              eq_refl) as [f Hf].
  exists f. intros fuel Hfuel.
  replace fuel with (f + (fuel - f))%nat by lia.
  now rewrite Hf, search_loop_empty.
Qed.

Lemma depth_limited_dfs_iter_any (source : N) (depth : Z) :
  depth <> 0 ->
  exists f : nat, forall fuel : nat, (f <= fuel)%nat ->
    depth_limited_dfs_iter fuel source depth
    = Some (below (levels_left depth 0) (children_iter source)).
Proof.
  intros H0. unfold depth_limited_dfs_iter.
  destruct (depth =? 0) eqn:E; [apply Z.eqb_eq in E; contradiction|].
  destruct (dfs_iter_loop_entry depth (levels_left depth 0) 0
              (children_iter source) source [] [] eq_refl) as [f Hf].
  exists f. intros fuel Hfuel.
  replace fuel with (f + (fuel - f))%nat by lia.
  now rewrite Hf, dfs_iter_loop_empty.
Qed.

(** For a depth greater than 0, [depth_limited_dfs_iter] yields a node
    exactly when it can be reached from a child of the source within
    [depth - 1] edges: the nodes at 1 to [depth] edges from the source. *)
Theorem depth_limited_dfs_iter_yields (source : N) (depth : Z)
        (Hd : 0 < depth) :
  exists f : nat, forall fuel : nat, (f <= fuel)%nat ->
    exists out : list N,
      depth_limited_dfs_iter fuel source depth = Some out
      /\ forall m, In m out
                   <-> exists c, In c (children_iter source)
                                 /\ reach (Z.to_nat (depth - 1)) c m.
Proof.
  destruct (depth_limited_dfs_iter_any source depth) as [f Hf]; [lia|].
  exists f. intros fuel Hfuel. eexists. split; [now apply Hf|].
  intros m. unfold below. rewrite in_flat_map.
  unfold levels_left. replace (depth - 1 - 0) with (depth - 1) by lia.
  split; intros [c [Hc Hm]]; exists c; (split; [assumption|]);
    now apply in_walk_reach.
Qed.

(** The depth is only compared with the depth of a stack entry, so every
    depth below 2 other than 0, negative ones too, makes
    [depth_limited_dfs_iter] yield just the children of the source, and
    makes [depth_limited_search] return what it returns for depth 1. *)
Theorem depth_limited_shallow (source : N) (depth : Z)
        (H0 : depth <> 0) (H1 : depth <= 1) :
  exists f : nat, forall fuel : nat, (f <= fuel)%nat ->
    depth_limited_dfs_iter fuel source depth = Some (children_iter source)
    /\ depth_limited_search fuel source depth
       = depth_limited_search fuel source 1.
Proof.
  destruct (depth_limited_dfs_iter_any source depth H0) as [f1 Hf1].
  destruct (depth_limited_search_run_any source depth H0) as [f2 Hf2].
  destruct (depth_limited_search_run_any source 1) as [f3 Hf3]; [lia|].
  assert (Hl : levels_left depth 0 = O) by (unfold levels_left; lia).
  exists (f1 + f2 + f3)%nat. intros fuel Hfuel. split.
  - rewrite Hf1 by lia. now rewrite Hl, below_leaves.
  - unfold depth_limited_search. rewrite Hf2, Hf3 by lia.
    now rewrite Hl.
Qed.

(** [depth_limited_search] calls [evaluate()] on the source and then on
    the nodes that [depth_limited_dfs_iter] yields for the same depth, in
    the same order. *)
Theorem depth_limited_search_follows_iter (source : N) (depth : Z)
        (Hd : 0 < depth) :
  exists f : nat, forall fuel : nat, (f <= fuel)%nat ->
    exists out : list N,
      depth_limited_dfs_iter fuel source depth = Some out
      /\ depth_limited_search_evals fuel source depth
         = Some (source :: out).
Proof.
  destruct (depth_limited_dfs_iter_any source depth) as [f1 Hf1]; [lia|].
  destruct (depth_limited_search_run_any source depth) as [f2 Hf2]; [lia|].
  exists (f1 + f2)%nat. intros fuel Hfuel. eexists.
  split; [apply Hf1; lia|].
  unfold depth_limited_search_evals. rewrite Hf2 by lia.
  cbn [option_map]. now rewrite fold_consider_evaluated.
Qed.

Lemma reach_more (k : nat) (n m : N) :
  reach k n m -> forall k', (k <= k')%nat -> reach k' n m.
Proof.
  induction 1 as [k n|k n c m Hc Hr IH]; intros k' Hk; [constructor|].
  destruct k' as [|k']; [lia|].
  apply reach_step with c; [assumption|]. apply IH. lia.
Qed.

(** What the search returns for a depth that is not negative. *)
Lemma depth_limited_search_result (source : N) (d : Z) :
  0 <= d ->
  exists f : nat, forall fuel : nat, (f <= fuel)%nat ->
    exists cand : N,
      depth_limited_search fuel source d = Some (cand, evaluate cand)
      /\ first_best (seen_order d source) cand.
Proof.
  intros Hd. destruct (depth_limited_search_run_eq source d Hd) as [f Hf].
  exists f. intros fuel Hfuel. unfold depth_limited_search.
  rewrite (Hf fuel Hfuel). cbn [option_map].
  set (st := fold_left consider _ _).
  assert (Hinv : search_inv st)
    by (apply fold_consider_inv, search_inv_init).
  assert (Hev : evaluated st = seen_order d source)
    by (unfold st; rewrite fold_consider_evaluated; reflexivity).
  destruct Hinv as [Hv Hbest]. rewrite Hev in Hbest.
  exists (candidate st). now rewrite Hv.
Qed.

Lemma first_best_greatest (seen : list N) (c x : N) :
  first_best seen c -> In x seen -> evaluate x <= evaluate c.
Proof.
  intros (l1 & l2 & -> & Hlt & Hle) Hx.
  apply in_app_or in Hx. destruct Hx as [Hx|[Hx|Hx]].
  - specialize (Hlt x Hx). lia.
  - subst x. lia.
  - now apply Hle.
Qed.

Lemma first_best_In (seen : list N) (c : N) : first_best seen c -> In c seen.
Proof. intros (l1 & l2 & -> & _). apply in_elt. Qed.

(** A deeper search never returns a smaller value. *)
Theorem depth_limited_search_deeper (source : N) (d d' : Z)
        (Hd : 0 <= d) (Hd' : d <= d') :
  exists f : nat, forall fuel : nat, (f <= fuel)%nat ->
    exists (cand cand' : N) (value value' : Z),
      depth_limited_search fuel source d = Some (cand, value)
      /\ depth_limited_search fuel source d' = Some (cand', value')
      /\ value <= value'.
Proof.
  destruct (depth_limited_search_result source d Hd) as [f1 Hf1].
  destruct (depth_limited_search_result source d') as [f2 Hf2]; [lia|].
  exists (f1 + f2)%nat. intros fuel Hfuel.
  destruct (Hf1 fuel) as (c & Hc & Hb); [lia|].
  destruct (Hf2 fuel) as (c' & Hc' & Hb'); [lia|].
  exists c, c', (evaluate c), (evaluate c').
  split; [assumption|]. split; [assumption|].
  apply (first_best_greatest _ _ _ Hb').
  apply in_walk_reach. apply reach_more with (Z.to_nat d); [|lia].
  apply in_walk_reach. now apply first_best_In in Hb.
Qed.

(** The search returns the source itself unless it has seen a node whose
    value is strictly greater than that of the source. *)
Theorem depth_limited_search_keeps_source (source : N) (d : Z)
        (Hd : 0 <= d) :
  exists f : nat, forall fuel : nat, (f <= fuel)%nat ->
    exists cand : N,
      depth_limited_search fuel source d = Some (cand, evaluate cand)
      /\ (evaluate source < evaluate cand
          \/ (forall n, reach (Z.to_nat d) source n ->
                        evaluate n <= evaluate source)
             /\ depth_limited_search fuel source d
                = Some (source, evaluate source)).
Proof.
  destruct (depth_limited_search_result source d Hd) as [f Hf].
  exists f. intros fuel Hfuel.
  destruct (Hf fuel Hfuel) as (c & Hc & Hb).
  exists c. split; [assumption|].
  pose proof Hb as (l1 & l2 & Hseen & Hlt & Hle).
  destruct l1 as [|x l1].
  - right. cbn in Hseen. injection Hseen as Hsrc _. subst c.
    split; [|assumption]. intros n Hn.
    apply (first_best_greatest _ _ _ Hb). now apply in_walk_reach.
  - left. cbn in Hseen. injection Hseen as Hsrc _. subst x.
    apply Hlt. now left.
Qed.

End SearchMore.

Lemma depth_limited_dfs_iter_yields_witness :
  0 < 2
  /\ exists f : nat, forall fuel : nat, (f <= fuel)%nat ->
       exists out : list nat,
         @nxutil_search.depth_limited_dfs_iter nat diamond fuel 0%nat 2
         = Some out
         /\ forall m, In m out
              <-> exists c, In c (@children_iter nat diamond 0%nat)
                            /\ @nxutil_search.reach nat diamond
                                 (Z.to_nat (2 - 1)) c m.
Proof.
  split; [lia|].
  apply (@depth_limited_dfs_iter_yields nat diamond 0%nat 2). lia.
Defined.

Lemma depth_limited_shallow_witness :
  -3 <> 0 /\ -3 <= 1
  /\ exists f : nat, forall fuel : nat, (f <= fuel)%nat ->
       @nxutil_search.depth_limited_dfs_iter nat diamond fuel 0%nat (-3)
       = Some [1; 2]%nat
       /\ @nxutil_search.depth_limited_search nat diamond fuel 0%nat (-3)
          = @nxutil_search.depth_limited_search nat diamond fuel 0%nat 1.
Proof.
  split; [discriminate|]. split; [lia|].
  apply (@depth_limited_shallow nat diamond 0%nat (-3)); [discriminate|lia].
Defined.

Lemma depth_limited_search_follows_iter_witness :
  0 < 2
  /\ exists f : nat, forall fuel : nat, (f <= fuel)%nat ->
       exists out : list nat,
         @nxutil_search.depth_limited_dfs_iter nat diamond fuel 0%nat 2
         = Some out
         /\ @nxutil_search.depth_limited_search_evals nat diamond fuel
              0%nat 2
            = Some (0%nat :: out).
Proof.
  split; [lia|].
  apply (@depth_limited_search_follows_iter nat diamond 0%nat 2). lia.
Defined.

Lemma depth_limited_search_deeper_witness :
  0 <= 1 /\ 1 <= 2
  /\ exists f : nat, forall fuel : nat, (f <= fuel)%nat ->
       exists (cand cand' : nat) (value value' : Z),
         @nxutil_search.depth_limited_search nat diamond fuel 0%nat 1
         = Some (cand, value)
         /\ @nxutil_search.depth_limited_search nat diamond fuel 0%nat 2
            = Some (cand', value')
         /\ value <= value'.
Proof.
  split; [lia|]. split; [lia|].
  apply (@depth_limited_search_deeper nat diamond 0%nat 1 2); lia.
Defined.

Lemma depth_limited_search_keeps_source_witness :
  0 <= 2
  /\ exists f : nat, forall fuel : nat, (f <= fuel)%nat ->
       exists cand : nat,
         @nxutil_search.depth_limited_search nat diamond fuel 3%nat 2
         = Some (cand, @evaluate nat diamond cand)
         /\ (@evaluate nat diamond 3%nat < @evaluate nat diamond cand
             \/ (forall n, @nxutil_search.reach nat diamond (Z.to_nat 2)
                             3%nat n ->
                           @evaluate nat diamond n
                           <= @evaluate nat diamond 3%nat)
                /\ @nxutil_search.depth_limited_search nat diamond fuel
                     3%nat 2
                   = Some (3%nat, @evaluate nat diamond 3%nat)).
Proof.
  split; [lia|].
  apply (@depth_limited_search_keeps_source nat diamond 3%nat 2). lia.
Defined.

Section DfsMore.
Import gr nxutil_dfs nxutil_edit.
Variable G : graph.

Lemma predecessors_neighbors (q v : Node) :
  In q (predecessors G v) <-> In v (neighbors G q).
Proof.
  unfold predecessors, neighbors, in_edges, out_edges.
  rewrite !in_map_iff. split; intros [e [He Hin]];
    apply filter_In in Hin as [Hin Hend]; apply Nat.eqb_eq in Hend;
    exists e; (split; [congruence|]); apply filter_In;
    (split; [assumption|]); apply Nat.eqb_eq; congruence.
Qed.

Lemma skip_true (visited : list Node) (child : Node) :
  skip G visited child = true ->
  exists q, In q (predecessors G child) /\ ~ In q visited.
Proof.
  unfold skip. intros Hs. apply existsb_exists in Hs as [q [Hq Hm]].
  exists q. split; [assumption|]. apply mem_not_In.
  now apply negb_true_iff.
Qed.

(** *** Every yielded node descends from a start node *)

Lemma descends_yield (condition : option (Node -> Node -> bool))
      (starts out : list Node) (c : Node) :
  descends G condition starts out ->
  (In c starts
   \/ exists p, In p out /\ In c (neighbors G p)
                /\ condition_holds condition p c = true) ->
  descends G condition starts (out ++ [c]).
Proof.
  intros Hout Hc pre n post Heq.
  apply snoc_split in Heq as [(-> & -> & ->)|(post' & -> & ->)].
  - assumption.
  - now apply (Hout pre n post').
Qed.

Lemma stack_sound_next (stack : list (Node * list Node))
      (out : list Node) (parent child : Node) (children : list Node) :
  stack_sound G ((parent, child :: children) :: stack) out ->
  stack_sound G ((parent, children) :: stack) out.
Proof.
  intros Hs entry [<-|He].
  - destruct (Hs (parent, child :: children) (or_introl eq_refl))
      as [Hp Hc]. split; [assumption|].
    intros x Hx. apply Hc. now right.
  - apply Hs. now right.
Qed.

Lemma stack_sound_more (stack : list (Node * list Node))
      (out : list Node) (c : Node) :
  stack_sound G stack out -> stack_sound G stack (out ++ [c]).
Proof.
  intros Hs entry He. destruct (Hs entry He) as [Hp Hc].
  split; [apply in_or_app; now left|assumption].
Qed.

Lemma dfs_loop_descends (condition : option (Node -> Node -> bool))
      (starts : list Node) (fuel : nat) :
  forall stack visited out visited' out',
    dfs_loop fuel G condition stack visited out = Some (visited', out') ->
    stack_sound G stack out ->
    descends G condition starts out ->
    descends G condition starts out'.
Proof.
  induction fuel as [|fuel IH]; intros stack visited out visited' out' Hrun;
    destruct stack as [|[parent children] rest]; cbn in Hrun;
    try discriminate.
  - injection Hrun as <- <-. auto.
  - injection Hrun as <- <-. auto.
  - intros Hs Hd. destruct children as [|child children'].
    + apply (IH _ _ _ _ _ Hrun); [|assumption].
      intros entry He. apply Hs. now right.
    + pose proof (stack_sound_next _ _ _ _ _ Hs) as Hs'.
      destruct (mem child visited); [exact (IH _ _ _ _ _ Hrun Hs' Hd)|].
      destruct (skip G visited child); [exact (IH _ _ _ _ _ Hrun Hs' Hd)|].
      destruct (condition_holds condition parent child) eqn:Hcond;
        [|exact (IH _ _ _ _ _ Hrun Hs' Hd)].
      destruct (Hs (parent, child :: children') (or_introl eq_refl))
        as [Hp Hc]. cbn in Hp, Hc.
      apply (IH _ _ _ _ _ Hrun).
      * intros entry [<-|He].
        -- cbn. split; [apply in_or_app; right; now left|apply incl_refl].
        -- exact (stack_sound_more _ _ child Hs' entry He).
      * apply descends_yield; [assumption|]. right. exists parent.
        repeat split; [assumption|apply Hc; now left|assumption].
Qed.

Lemma dfs_starts_descends (condition : option (Node -> Node -> bool))
      (starts0 : list Node) (fuel : nat) :
  forall starts visited out out',
    incl starts starts0 ->
    dfs_starts fuel G condition starts visited out = Some out' ->
    descends G condition starts0 out ->
    descends G condition starts0 out'.
Proof.
  induction starts as [|start starts IH];
    intros visited out out' Hsub Hrun Hd; cbn in Hrun.
  - injection Hrun as <-. assumption.
  - assert (Hsub' : incl starts starts0)
      by (intros x Hx; apply Hsub; now right).
    destruct (mem start visited); [exact (IH _ _ _ Hsub' Hrun Hd)|].
    destruct (dfs_loop _ _ _ _ _ _) as [[v o]|] eqn:Hloop; [|discriminate].
    apply (IH _ _ _ Hsub' Hrun).
    eapply dfs_loop_descends; [eassumption| |].
    + intros entry [<-|[]]. cbn.
      split; [apply in_or_app; right; now left|apply incl_refl].
    + apply descends_yield; [assumption|]. left. apply Hsub. now left.
Qed.

(** *** The nodes that are yielded *)

Lemma dfs_loop_grows (condition : option (Node -> Node -> bool))
      (fuel : nat) :
  forall stack visited out visited' out',
    dfs_loop fuel G condition stack visited out = Some (visited', out') ->
    incl visited visited' /\ incl out out'.
Proof.
  induction fuel as [|fuel IH]; intros stack visited out visited' out' Hrun;
    destruct stack as [|[parent children] rest]; cbn in Hrun;
    try discriminate.
  - injection Hrun as <- <-. split; apply incl_refl.
  - injection Hrun as <- <-. split; apply incl_refl.
  - destruct children as [|child children']; [exact (IH _ _ _ _ _ Hrun)|].
    destruct (mem child visited); [exact (IH _ _ _ _ _ Hrun)|].
    destruct (skip G visited child); [exact (IH _ _ _ _ _ Hrun)|].
    destruct (condition_holds condition parent child);
      destruct (IH _ _ _ _ _ Hrun) as [Hv Ho]; split;
      intros x Hx; auto.
    + apply Hv. now right.
    + apply Ho, in_or_app. now left.
    + apply Hv. now right.
Qed.

Lemma dfs_loop_same (fuel : nat) :
  forall stack visited out visited' out',
    dfs_loop fuel G None stack visited out = Some (visited', out') ->
    incl visited out -> incl out visited ->
    incl visited' out' /\ incl out' visited'.
Proof.
  induction fuel as [|fuel IH]; intros stack visited out visited' out' Hrun;
    destruct stack as [|[parent children] rest]; cbn in Hrun;
    try discriminate.
  - injection Hrun as <- <-. auto.
  - injection Hrun as <- <-. auto.
  - destruct children as [|child children']; [exact (IH _ _ _ _ _ Hrun)|].
    destruct (mem child visited); [exact (IH _ _ _ _ _ Hrun)|].
    destruct (skip G visited child); [exact (IH _ _ _ _ _ Hrun)|].
    intros Hvo Hov. apply (IH _ _ _ _ _ Hrun).
    + intros x [<-|Hx]; apply in_or_app; [right; now left|left; auto].
    + intros x Hx. apply in_app_or in Hx as [Hx|[<-|[]]];
        [right; auto|now left].
Qed.

Lemma dfs_loop_inside (condition : option (Node -> Node -> bool))
      (S : Node -> Prop) (fuel : nat) :
  (forall n c, In c (neighbors G n) -> S c) ->
  forall stack visited out visited' out',
    dfs_loop fuel G condition stack visited out = Some (visited', out') ->
    (forall entry c, In entry stack -> In c (snd entry) -> S c) ->
    (forall x, In x out -> S x) ->
    forall x, In x out' -> S x.
Proof.
  intros Hcl.
  induction fuel as [|fuel IH]; intros stack visited out visited' out' Hrun;
    destruct stack as [|[parent children] rest]; cbn in Hrun;
    try discriminate.
  - injection Hrun as <- <-. auto.
  - injection Hrun as <- <-. auto.
  - intros Hst Hout.
    assert (Hrest : forall entry c, In entry rest -> In c (snd entry) -> S c)
      by (intros entry c He; apply Hst; now right).
    destruct children as [|child children'];
      [exact (IH _ _ _ _ _ Hrun Hrest Hout)|].
    assert (Hst' : forall entry c,
               In entry ((parent, children') :: rest) ->
               In c (snd entry) -> S c).
    { intros entry c [<-|He] Hc; [|now apply (Hrest entry)].
      apply (Hst (parent, child :: children')); [now left|now right]. }
    destruct (mem child visited); [exact (IH _ _ _ _ _ Hrun Hst' Hout)|].
    destruct (skip G visited child); [exact (IH _ _ _ _ _ Hrun Hst' Hout)|].
    destruct (condition_holds condition parent child);
      [|exact (IH _ _ _ _ _ Hrun Hst' Hout)].
    apply (IH _ _ _ _ _ Hrun).
    + intros entry c [<-|He] Hc; [now apply (Hcl child)|].
      now apply (Hst' entry).
    + intros x Hx. apply in_app_or in Hx as [Hx|[<-|[]]]; [auto|].
      apply (Hst (parent, child :: children')); now left.
Qed.

Lemma dfs_starts_inside (condition : option (Node -> Node -> bool))
      (S : Node -> Prop) (fuel : nat) :
  (forall n c, In c (neighbors G n) -> S c) ->
  forall starts visited out out',
    dfs_starts fuel G condition starts visited out = Some out' ->
    (forall s, In s starts -> S s) ->
    (forall x, In x out -> S x) ->
    forall x, In x out' -> S x.
Proof.
  intros Hcl.
  induction starts as [|start starts IH];
    intros visited out out' Hrun Hst Hout; cbn in Hrun.
  - injection Hrun as <-. assumption.
  - assert (Hst' : forall s, In s starts -> S s)
      by (intros s Hs; apply Hst; now right).
    destruct (mem start visited); [exact (IH _ _ _ Hrun Hst' Hout)|].
    destruct (dfs_loop _ _ _ _ _ _) as [[v o]|] eqn:Hloop; [|discriminate].
    apply (IH _ _ _ Hrun Hst').
    apply (dfs_loop_inside condition S fuel Hcl _ _ _ _ _ Hloop).
    + intros entry c [<-|[]] Hc. now apply (Hcl start).
    + intros x Hx. apply in_app_or in Hx as [Hx|[<-|[]]]; [auto|].
      apply Hst. now left.
Qed.

(** *** Every neighbor of a yielded node is looked at *)

Lemma examined_next (stack : list (Node * list Node))
      (visited : list Node) (parent child : Node) (children : list Node) :
  examined G ((parent, child :: children) :: stack) visited ->
  (In child visited
   \/ exists q, In q (predecessors G child) /\ ~ In q visited) ->
  examined G ((parent, children) :: stack) visited.
Proof.
  intros Hex Hchild p v Hp Hv.
  destruct (Hex p v Hp Hv) as [H1|[H2|[entry [[<-|He] Hin]]]]; auto.
  - cbn in Hin. destruct Hin as [<-|Hin].
    + destruct Hchild; auto.
    + right. right. exists (parent, children). split; [now left|assumption].
  - right. right. exists entry. split; [now right|assumption].
Qed.

Lemma examined_visit (stack : list (Node * list Node))
      (visited : list Node) (c : Node) :
  examined G stack visited ->
  examined G ((c, neighbors G c) :: stack) (c :: visited).
Proof.
  intros Hex p v Hp Hv.
  assert (Hnew : In v (neighbors G c) ->
                 In v (c :: visited)
                 \/ (exists q, In q (predecessors G v)
                               /\ ~ In q (c :: visited))
                 \/ (exists entry,
                        In entry ((c, neighbors G c) :: stack)
                        /\ In v (snd entry))).
  { intros Hvc. right. right. exists (c, neighbors G c).
    split; [now left|assumption]. }
  destruct Hp as [<-|Hp]; [now apply Hnew|].
  destruct (Hex p v Hp Hv) as [H1|[[q [Hq Hnq]]|[entry [He Hin]]]].
  - left. now right.
  - destruct (Nat.eq_dec q c) as [->|Hne].
    + apply Hnew. now apply predecessors_neighbors.
    + right. left. exists q. split; [assumption|].
      intros [Heq|Hin]; [congruence|contradiction].
  - right. right. exists entry. split; [now right|assumption].
Qed.

Lemma examined_pop (stack : list (Node * list Node))
      (visited : list Node) (parent : Node) :
  examined G ((parent, []) :: stack) visited -> examined G stack visited.
Proof.
  intros Hex p v Hp Hv.
  destruct (Hex p v Hp Hv) as [H1|[H2|[entry [[<-|He] Hin]]]]; auto.
  - destruct Hin.
  - right. right. now exists entry.
Qed.

Lemma examined_visit_head (stack : list (Node * list Node))
      (visited : list Node) (parent c : Node) (children : list Node) :
  examined G ((parent, c :: children) :: stack) visited ->
  examined G ((c, neighbors G c) :: (parent, children) :: stack)
           (c :: visited).
Proof.
  intros Hex p v Hp Hv.
  destruct (examined_visit ((parent, c :: children) :: stack) visited c Hex
              p v Hp Hv) as [H1|[H2|[entry [[<-|[<-|He]] Hin]]]]; auto.
  - right. right. exists (c, neighbors G c). split; [now left|assumption].
  - cbn in Hin. destruct Hin as [<-|Hin]; [left; now left|].
    right. right. exists (parent, children).
    split; [right; now left|assumption].
  - right. right. exists entry. split; [right; now right|assumption].
Qed.

Lemma dfs_loop_examined (fuel : nat) :
  forall stack visited out visited' out',
    dfs_loop fuel G None stack visited out = Some (visited', out') ->
    examined G stack visited -> examined G [] visited'.
Proof.
  induction fuel as [|fuel IH]; intros stack visited out visited' out' Hrun;
    destruct stack as [|[parent children] rest]; cbn in Hrun;
    try discriminate.
  - injection Hrun as <- <-. auto.
  - injection Hrun as <- <-. auto.
  - intros Hex. destruct children as [|child children'].
    + apply (IH _ _ _ _ _ Hrun). now apply examined_pop in Hex.
    + destruct (mem child visited) eqn:Hvis.
      { apply (IH _ _ _ _ _ Hrun). apply examined_next with child;
          [assumption|]. left. now apply mem_In. }
      destruct (skip G visited child) eqn:Hskip.
      { apply (IH _ _ _ _ _ Hrun). apply examined_next with child;
          [assumption|]. right. now apply skip_true. }
      apply (IH _ _ _ _ _ Hrun). now apply examined_visit_head.
Qed.

Lemma dfs_starts_examined (fuel : nat) :
  forall starts visited out out',
    dfs_starts fuel G None starts visited out = Some out' ->
    incl visited out -> incl out visited -> examined G [] visited ->
    incl out out'
    /\ (forall s, In s starts -> In s out')
    /\ (forall p v, In p out' -> In v (neighbors G p) ->
          In v out' \/ exists q, In q (predecessors G v) /\ ~ In q out').
Proof.
  induction starts as [|start starts IH];
    intros visited out out' Hrun Hvo Hov Hex; cbn in Hrun.
  - injection Hrun as <-. split; [apply incl_refl|].
    split; [intros s []|]. intros p v Hp Hv.
    destruct (Hex p v (Hov p Hp) Hv) as [H1|[[q [Hq Hnq]]|[entry [[] _]]]].
    + left. auto.
    + right. exists q. split; [assumption|]. intros Hin. auto.
  - destruct (mem start visited) eqn:Hvis.
    + destruct (IH _ _ _ Hrun Hvo Hov Hex) as (Hinc & Hst & Hnb).
      split; [assumption|]. split; [|assumption].
      intros s [<-|Hs]; [|auto]. apply Hinc, Hvo. now apply mem_In.
    + destruct (dfs_loop _ _ _ _ _ _) as [[v o]|] eqn:Hloop; [|discriminate].
      destruct (dfs_loop_grows _ _ _ _ _ _ _ Hloop) as [_ Hgrow].
      destruct (dfs_loop_same _ _ _ _ _ _ Hloop) as [Hvo' Hov'].
      { intros x [<-|Hx]; apply in_or_app; [right; now left|left; auto]. }
      { intros x Hx. apply in_app_or in Hx as [Hx|[<-|[]]];
          [right; auto|now left]. }
      assert (Hex' : examined G [] v).
      { apply (dfs_loop_examined _ _ _ _ _ _ Hloop).
        now apply examined_visit. }
      destruct (IH _ _ _ Hrun Hvo' Hov' Hex') as (Hinc & Hst & Hnb).
      split; [|split; [|assumption]].
      * intros x Hx. apply Hinc, Hgrow, in_or_app. now left.
      * intros s [<-|Hs]; [|auto].
        apply Hinc, Hgrow, in_or_app. right. now left.
Qed.

Lemma closed_neighbors (n c : Node) :
  closed G -> In c (neighbors G n) -> In c (nodes G).
Proof.
  intros Hcl Hc. apply neighbors_dst, in_map_iff in Hc as [e [<- He]].
  now apply Hcl.
Qed.

Lemma predecessors_edge (q v : Node) :
  In q (predecessors G v)
  <-> exists e, In e (edges G) /\ src e = q /\ dst e = v.
Proof.
  unfold predecessors, in_edges. rewrite in_map_iff. split.
  - intros [e [Hs He]]. apply filter_In in He as [He Hd].
    apply Nat.eqb_eq in Hd. now exists e.
  - intros [e (He & Hs & Hd)]. exists e. split; [assumption|].
    apply filter_In. split; [assumption|]. now apply Nat.eqb_eq.
Qed.

End DfsMore.

Section DfsMoreTheorems.
Import gr nxutil_dfs nxutil_edit.

(** Every node that [dfs_topological_sort] yields is a start node or comes
    after a yielded node of which it is a neighbor, and for which the
    [condition], when there is one, holds of the two: nothing is yielded
    that the walk did not reach from its start nodes. *)
Theorem dfs_topological_sort_descends (G : graph)
        (sources : option Sources)
        (condition : option (Node -> Node -> bool)) :
  exists f : nat, forall fuel : nat, (f <= fuel)%nat ->
    exists out : list Node,
      dfs_topological_sort fuel G sources condition = Some out
      /\ forall pre n post, out = pre ++ n :: post ->
           In n (start_nodes G sources)
           \/ exists p, In p pre /\ In n (neighbors G p)
                        /\ condition_holds condition p n = true.
Proof.
  exists (dfs_fuel G). intros fuel Hfuel. unfold dfs_topological_sort.
  destruct (dfs_starts_total G condition fuel Hfuel
              (start_nodes G sources) [] []) as [out Hout].
  exists out. split; [assumption|].
  eapply dfs_starts_descends; [apply incl_refl|eassumption|].
  intros pre n post Heq. destruct pre; discriminate.
Qed.

(** Without [sources] and without a [condition], on a graph whose edges
    join nodes of the graph, [dfs_topological_sort] yields every node of
    the graph exactly once, whether the graph has cycles or not. *)
Theorem dfs_topological_sort_covers (G : graph)
        (Hclosed : closed G) (Hnodes : NoDup (nodes G)) :
  exists f : nat, forall fuel : nat, (f <= fuel)%nat ->
    exists out : list Node,
      dfs_topological_sort fuel G None None = Some out
      /\ Permutation out (nodes G).
Proof.
  exists (dfs_fuel G). intros fuel Hfuel. unfold dfs_topological_sort.
  destruct (dfs_starts_total G None fuel Hfuel
              (start_nodes G None) [] []) as [out Hout].
  exists out. split; [assumption|].
  apply NoDup_Permutation; [|assumption|].
  - eapply dfs_starts_yields_once; [eassumption|].
    split; [constructor|intros x []].
  - intros x. split.
    + apply (dfs_starts_inside G None (fun n => In n (nodes G)) fuel
               (fun n c => closed_neighbors G n c Hclosed) _ _ _ _ Hout);
        [auto|intros y []].
    + destruct (dfs_starts_examined G fuel _ _ _ _ Hout) as (_ & Hst & _);
        [intros y []|intros y []|intros p v []|].
      apply Hst.
Qed.

(** On a graph without cycles whose edges join nodes of the graph, the
    walk from the nodes that [find_source_nodes] returns, without a
    [condition], is a topological sort: it yields every node of the graph
    exactly once, and the source of every edge before its destination. *)
Theorem dfs_topological_sort_sorts (G : graph) (rank : Node -> nat)
        (Hclosed : closed G) (Hnodes : NoDup (nodes G))
        (Hacyclic : acyclic_by G rank) :
  exists f : nat, forall fuel : nat, (f <= fuel)%nat ->
    exists out : list Node,
      dfs_topological_sort fuel G
        (Some (SourceList (find_source_nodes G))) None = Some out
      /\ Permutation out (nodes G)
      /\ forall e, In e (edges G) ->
           exists l1 l2 l3, out = l1 ++ src e :: l2 ++ dst e :: l3.
Proof.
  exists (dfs_fuel G). intros fuel Hfuel. unfold dfs_topological_sort.
  cbn [start_nodes].
  destruct (dfs_starts_total G None fuel Hfuel
              (find_source_nodes G) [] []) as [out Hout].
  exists out. split; [assumption|].
  destruct (dfs_starts_examined G fuel _ _ _ _ Hout) as (_ & Hst & Hnb);
    [intros y []|intros y []|intros p v []|].
  assert (Hall : forall k n, (rank n < k)%nat -> In n (nodes G) ->
                             In n out).
  { induction k as [|k IHk]; intros n Hk Hn; [lia|].
    destruct (predecessors G n) as [|q l] eqn:Hpred.
    - apply Hst, find_source_nodes_In. split; [assumption|].
      intros e He Hd.
      assert (Hq : In (src e) (predecessors G n))
        by (apply predecessors_edge; now exists e).
      rewrite Hpred in Hq. destruct Hq.
    - assert (Hq : In q (predecessors G n)) by (rewrite Hpred; now left).
      assert (Hlow : forall q', In q' (predecessors G n) -> In q' out).
      { intros q' Hq'. apply predecessors_edge in Hq'
          as (e & He & <- & <-).
        apply IHk; [specialize (Hacyclic e He); lia|now apply Hclosed]. }
      destruct (Hnb q n (Hlow q Hq)) as [Hin|[q' [Hq' Hnot]]].
      + now apply predecessors_neighbors.
      + assumption.
      + destruct Hnot. now apply Hlow. }
  assert (Hcover : forall n, In n (nodes G) -> In n out)
    by (intros n; apply (Hall (S (rank n))); lia).
  split.
  - apply NoDup_Permutation; [|assumption|].
    + eapply dfs_starts_yields_once; [eassumption|].
      split; [constructor|intros x []].
    + intros x. split; [|apply Hcover].
      apply (dfs_starts_inside G None (fun n => In n (nodes G)) fuel
               (fun n c => closed_neighbors G n c Hclosed) _ _ _ _ Hout);
        [|intros y []].
      intros s Hs. now apply find_source_nodes_In in Hs.
  - intros e He.
    assert (Hd : In (dst e) out) by (apply Hcover; now apply Hclosed).
    apply in_split in Hd as (pre & post & Hsplit).
    assert (Hpf : preds_first G (find_source_nodes G) out).
    { eapply dfs_starts_gated; [apply incl_refl|eassumption|].
      split; [intros x []|]. intros pre' n post' Heq.
      destruct pre'; discriminate. }
    destruct (Hpf pre (dst e) post Hsplit) as [Hsrc|Hpre].
    + apply find_source_nodes_In in Hsrc as [_ Hno].
      now destruct (Hno e He).
    + assert (Hs : In (src e) pre)
        by (apply Hpre, predecessors_edge; now exists e).
      apply in_split in Hs as (l1 & l2 & ->).
      exists l1, l2, post. rewrite Hsplit, <- app_assoc. reflexivity.
Qed.

End DfsMoreTheorems.

Section DfsMoreChecks.
Import gr nxutil_dfs nxutil_edit nxutil_path examples.

Ltac each_of H := cbn in H; repeat (destruct H as [<-|H]); [..|destruct H].

Lemma four_path_closed : closed four_path.
Proof. intros e He. each_of He; split; cbn; auto. Qed.

Lemma four_path_nodes : NoDup (nodes four_path).
Proof. vm_compute. nodup_nat. Qed.

Lemma dfs_topological_sort_covers_witness :
  closed four_path /\ NoDup (nodes four_path)
  /\ exists f : nat, forall fuel : nat, (f <= fuel)%nat ->
       exists out : list Node,
         dfs_topological_sort fuel four_path None None = Some out
         /\ Permutation out (nodes four_path).
Proof.
  split; [exact four_path_closed|]. split; [exact four_path_nodes|].
  exact (dfs_topological_sort_covers four_path four_path_closed
           four_path_nodes).
Defined.

Lemma dfs_topological_sort_sorts_witness :
  acyclic_by four_path (fun n => n)
  /\ exists f : nat, forall fuel : nat, (f <= fuel)%nat ->
       exists out : list Node,
         dfs_topological_sort fuel four_path
           (Some (SourceList (find_source_nodes four_path))) None = Some out
         /\ Permutation out (nodes four_path)
         /\ forall e, In e (edges four_path) ->
              exists l1 l2 l3, out = l1 ++ src e :: l2 ++ dst e :: l3.
Proof.
  assert (Hacyclic : acyclic_by four_path (fun n => n))
    by (intros e He; each_of He; cbn; lia).
  split; [exact Hacyclic|].
  exact (dfs_topological_sort_sorts four_path (fun n => n)
           four_path_closed four_path_nodes Hacyclic).
Defined.

End DfsMoreChecks.

(** ** What the predecessor gate gives *)

Section DfsGate.
Import gr nxutil_dfs.
Variable G : graph.
Variable exempt : list Node -> Node -> Prop.



End DfsGate.

Section DfsGateStarts.
Import gr nxutil_dfs.
Variable G : graph.
Variable starts0 : list Node.


End DfsGateStarts.

Section DfsGateTheorem.
Import gr nxutil_dfs.


End DfsGateTheorem.

(** * Further properties of the edits *)

Section RedirectMore.
Import gr nxutil_edit.

Lemma change_edge_dest_moves (graph : gr.graph) (a b : Node) :
  Permutation (edges (change_edge_dest graph a b))
              (map (move_dst a b) (edges graph)).
Proof.
  rewrite change_edge_dest_edges.
  apply (perm_moved _ (fun e => Nat.eqb (dst e) a)
           (fun e => with_dst e b)).
Qed.

Lemma change_edge_src_moves (graph : gr.graph) (a b : Node) :
  Permutation (edges (change_edge_src graph a b))
              (map (move_src a b) (edges graph)).
Proof.
  rewrite change_edge_src_edges.
  apply (perm_moved _ (fun e => Nat.eqb (src e) a)
           (fun e => with_src e b)).
Qed.

Lemma filter_all (A : Type) (P : A -> bool) (l : list A) :
  (forall x, In x l -> P x = true) -> filter P l = l.
Proof.
  intros Hall. apply forallb_filter_id, forallb_forall. exact Hall.
Qed.

Lemma filter_none (A : Type) (P : A -> bool) (l : list A) :
  (forall x, In x l -> P x = false) -> filter P l = [].
Proof.
  induction l as [|x l IH]; intros Hnone; cbn; [reflexivity|].
  rewrite (Hnone x (or_introl eq_refl)). apply IH.
  intros y Hy. apply Hnone. now right.
Qed.

(** After [change_edge_dest(graph, node_a, node_b)] with two different
    nodes, no edge goes into [node_a], and the edges into [node_b] are
    those it had, followed by the redirected ones.  The same holds of
    [change_edge_src] and the edges out of the two nodes. *)
Theorem change_edge_degrees (graph : gr.graph) (node_a node_b : Node)
        (Hab : node_a <> node_b) :
  (in_edges (change_edge_dest graph node_a node_b) node_a = []
   /\ in_edges (change_edge_dest graph node_a node_b) node_b
      = in_edges graph node_b
        ++ map (fun e => with_dst e node_b) (in_edges graph node_a))
  /\ (out_edges (change_edge_src graph node_a node_b) node_a = []
      /\ out_edges (change_edge_src graph node_a node_b) node_b
         = out_edges graph node_b
           ++ map (fun e => with_src e node_b) (out_edges graph node_a)).
Proof.
  split; split.
  - unfold in_edges at 1. rewrite change_edge_dest_edges, filter_app.
    rewrite filter_twice, !filter_none; [reflexivity| |].
    + intros e He. apply in_map_iff in He as [x [<- _]].
      destruct (with_dst_fields x node_b) as (_ & -> & _).
      apply Nat.eqb_neq. congruence.
    + intros e _. destruct (Nat.eqb (dst e) node_a); reflexivity.
  - unfold in_edges at 1. rewrite change_edge_dest_edges, filter_app.
    rewrite filter_twice. f_equal.
    + apply filter_ext. intros e.
      destruct (Nat.eqb_spec (dst e) node_b) as [Hb|Hb];
        [|apply andb_false_r].
      rewrite andb_true_r. apply negb_true_iff, Nat.eqb_neq. congruence.
    + apply filter_all. intros e He. apply in_map_iff in He as [x [<- _]].
      destruct (with_dst_fields x node_b) as (_ & -> & _).
      apply Nat.eqb_refl.
  - unfold out_edges at 1. rewrite change_edge_src_edges, filter_app.
    rewrite filter_twice, !filter_none; [reflexivity| |].
    + intros e He. apply in_map_iff in He as [x [<- _]].
      destruct (with_src_fields x node_b) as (-> & _).
      apply Nat.eqb_neq. congruence.
    + intros e _. destruct (Nat.eqb (src e) node_a); reflexivity.
  - unfold out_edges at 1. rewrite change_edge_src_edges, filter_app.
    rewrite filter_twice. f_equal.
    + apply filter_ext. intros e.
      destruct (Nat.eqb_spec (src e) node_b) as [Hb|Hb];
        [|apply andb_false_r].
      rewrite andb_true_r. apply negb_true_iff, Nat.eqb_neq. congruence.
    + apply filter_all. intros e He. apply in_map_iff in He as [x [<- _]].
      destruct (with_src_fields x node_b) as (-> & _).
      apply Nat.eqb_refl.
Qed.

(** Redirecting the edges into [node_a] to a node [node_b] that has no
    edge at it, and then the edges into [node_b] back to [node_a], gives
    back the edges of the graph, in some order.  The same holds of
    [change_edge_src]. *)
Theorem change_edge_back (graph : gr.graph) (node_a node_b : Node)
        (Hin : in_edges graph node_b = [])
        (Hout : out_edges graph node_b = []) :
  Permutation
    (edges (change_edge_dest (change_edge_dest graph node_a node_b)
                             node_b node_a))
    (edges graph)
  /\ Permutation
       (edges (change_edge_src (change_edge_src graph node_a node_b)
                               node_b node_a))
       (edges graph).
Proof.
  split.
  - rewrite change_edge_dest_moves.
    rewrite (Permutation_map _ (change_edge_dest_moves graph node_a node_b)).
    rewrite map_map. rewrite <- (map_id (edges graph)) at 2.
    apply Permutation_refl'. apply map_ext_in. intros e He.
    destruct (Nat.eq_dec (dst e) node_a) as [Ha|Ha].
    + rewrite (move_dst_eq _ _ _ Ha).
      rewrite move_dst_eq by apply with_dst_fields.
      rewrite <- Ha. apply with_dst_back.
    + rewrite (move_dst_ne _ _ _ Ha). apply move_dst_ne. intros Hb.
      assert (Hin' : In e (in_edges graph node_b))
        by (apply filter_In; split; [assumption|now apply Nat.eqb_eq]).
      rewrite Hin in Hin'. destruct Hin'.
  - rewrite change_edge_src_moves.
    rewrite (Permutation_map _ (change_edge_src_moves graph node_a node_b)).
    rewrite map_map. rewrite <- (map_id (edges graph)) at 2.
    apply Permutation_refl'. apply map_ext_in. intros e He.
    destruct (Nat.eq_dec (src e) node_a) as [Ha|Ha].
    + rewrite (move_src_eq _ _ _ Ha).
      rewrite move_src_eq by apply with_src_fields.
      rewrite <- Ha. apply with_src_back.
    + rewrite (move_src_ne _ _ _ Ha). apply move_src_ne. intros Hb.
      assert (Hin' : In e (out_edges graph node_b))
        by (apply filter_In; split; [assumption|now apply Nat.eqb_eq]).
      rewrite Hout in Hin'. destruct Hin'.
Qed.

(** [change_edge_dest] and [change_edge_src] can be done in either order:
    the edges of the graph are the same afterwards, up to their order. *)
Theorem change_edge_commute (graph : gr.graph) (a b c d : Node) :
  Permutation
    (edges (change_edge_src (change_edge_dest graph a b) c d))
    (edges (change_edge_dest (change_edge_src graph c d) a b)).
Proof.
  transitivity (map (move_src c d) (map (move_dst a b) (edges graph))).
  { rewrite change_edge_src_moves.
    apply Permutation_map, change_edge_dest_moves. }
  transitivity (map (move_dst a b) (map (move_src c d) (edges graph))).
  2:{ symmetry. rewrite change_edge_dest_moves.
      apply Permutation_map, change_edge_src_moves. }
  rewrite !map_map. apply Permutation_refl'. apply map_ext. intros e.
  assert (Hsd : forall x, src (with_dst e x) = src e)
    by (intros x; apply with_dst_fields).
  assert (Hds : forall x, dst (with_src e x) = dst e)
    by (intros x; apply with_src_fields).
  destruct (Nat.eq_dec (dst e) a) as [Hd|Hd],
           (Nat.eq_dec (src e) c) as [Hs|Hs].
  - rewrite (move_src_eq c d e Hs), (move_dst_eq a b e Hd).
    rewrite move_src_eq by now rewrite Hsd.
    rewrite move_dst_eq by now rewrite Hds.
    now destruct e.
  - rewrite (move_src_ne c d e Hs), (move_dst_eq a b e Hd).
    apply move_src_ne. now rewrite Hsd.
  - rewrite (move_dst_ne a b e Hd), (move_src_eq c d e Hs).
    symmetry. apply move_dst_ne. now rewrite Hds.
  - now rewrite (move_src_ne c d e Hs), (move_dst_ne a b e Hd),
      (move_src_ne c d e Hs).
Qed.

Lemma add_node_present (g : graph) (n : Node) :
  In n (nodes g) -> add_node g n = g.
Proof. intros Hn. unfold add_node. apply mem_In in Hn. now rewrite Hn. Qed.

Lemma redirect_nodes_same (f : edge -> edge) (L : list edge) :
  forall g,
    (forall e, In e L -> In (src (f e)) (nodes g)
                         /\ In (dst (f e)) (nodes g)) ->
    nodes (redirect f L g) = nodes g.
Proof.
  induction L as [|e L IH]; intros g HL; [reflexivity|].
  change (redirect f (e :: L) g)
    with (redirect f L (add_edge (remove_edge g e) (f e))).
  destruct (HL e (or_introl eq_refl)) as [Hs Hd].
  assert (Hn : nodes (add_edge (remove_edge g e) (f e)) = nodes g).
  { unfold add_edge. cbn [nodes].
    rewrite (add_node_present (remove_edge g e) (src (f e)) Hs).
    now rewrite (add_node_present (remove_edge g e) (dst (f e)) Hd). }
  rewrite IH; [assumption|]. intros x Hx. rewrite Hn. apply HL. now right.
Qed.

(** On a graph whose edges join nodes of the graph, redirecting edges to a
    node of the graph leaves the nodes as they are, keeps the number of
    edges, and leaves every edge joining nodes of the graph. *)
Theorem change_edge_keeps (graph : gr.graph) (node_a node_b : Node)
        (Hclosed : closed graph) (Hb : In node_b (nodes graph)) :
  (nodes (change_edge_dest graph node_a node_b) = nodes graph
   /\ length (edges (change_edge_dest graph node_a node_b))
      = length (edges graph)
   /\ closed (change_edge_dest graph node_a node_b))
  /\ (nodes (change_edge_src graph node_a node_b) = nodes graph
      /\ length (edges (change_edge_src graph node_a node_b))
         = length (edges graph)
      /\ closed (change_edge_src graph node_a node_b)).
Proof.
  split; split.
  - apply redirect_nodes_same. intros e He.
    apply filter_In in He as [He _].
    destruct (with_dst_fields e node_b) as (-> & -> & _).
    split; [now apply Hclosed|assumption].
  - split; [|now apply closed_redirect].
    rewrite (Permutation_length (change_edge_dest_moves graph _ _)).
    apply length_map.
  - apply redirect_nodes_same. intros e He.
    apply filter_In in He as [He _].
    destruct (with_src_fields e node_b) as (-> & -> & _).
    split; [assumption|now apply Hclosed].
  - split; [|now apply closed_redirect].
    rewrite (Permutation_length (change_edge_src_moves graph _ _)).
    apply length_map.
Qed.

End RedirectMore.

Section PathGraphMore.
Import gr nxutil_edit nxutil_path.

Lemma add_path_edges_edges (l : list Node) :
  forall g, edges (add_path_edges g l) = edges g ++ consecutive l.
Proof.
  induction l as [|a l IH]; intros g; [cbn; now rewrite app_nil_r|].
  destruct l as [|b l]; [cbn; now rewrite app_nil_r|].
  change (add_path_edges g (a :: b :: l))
    with (add_path_edges (add_edge g (Edge a b None)) (b :: l)).
  rewrite IH. cbn [edges add_edge consecutive].
  now rewrite <- app_assoc.
Qed.

Lemma add_edge_nodes_same (g : graph) (e : edge) :
  In (src e) (nodes g) -> In (dst e) (nodes g) ->
  nodes (add_edge g e) = nodes g.
Proof.
  intros Hs Hd. unfold add_edge. cbn [nodes].
  now rewrite (add_node_present g (src e) Hs), (add_node_present g _ Hd).
Qed.

Lemma add_path_edges_nodes (l : list Node) :
  forall g, (forall x, In x l -> In x (nodes g)) ->
            nodes (add_path_edges g l) = nodes g.
Proof.
  induction l as [|a l IH]; intros g Hl; [reflexivity|].
  destruct l as [|b l]; [reflexivity|].
  change (add_path_edges g (a :: b :: l))
    with (add_path_edges (add_edge g (Edge a b None)) (b :: l)).
  assert (Hn : nodes (add_edge g (Edge a b None)) = nodes g).
  { apply add_edge_nodes_same; apply Hl; cbn; auto. }
  rewrite IH; [assumption|].
  intros x Hx. rewrite Hn. apply Hl. now right.
Qed.

Lemma add_nodes_from_fresh (l : list Node) :
  forall g, NoDup l -> (forall x, In x l -> ~ In x (nodes g)) ->
            nodes (add_nodes_from g l) = nodes g ++ l.
Proof.
  induction l as [|a l IH]; intros g Hnd Hfresh;
    [cbn; now rewrite app_nil_r|].
  inversion Hnd as [|? ? Ha Hnd']; subst.
  change (add_nodes_from g (a :: l)) with (add_nodes_from (add_node g a) l).
  assert (Hadd : nodes (add_node g a) = nodes g ++ [a]).
  { unfold add_node.
    assert (Hm : mem a (nodes g) = false)
      by (apply mem_not_In, Hfresh; now left).
    now rewrite Hm. }
  rewrite IH; [rewrite Hadd, <- app_assoc; reflexivity|assumption|].
  intros x Hx. rewrite Hadd. intros Hin. apply in_app_or in Hin.
  destruct Hin as [Hin|[<-|[]]]; [|contradiction].
  apply (Hfresh x); [now right|assumption].
Qed.

Lemma node_path_graph_nodes (input_nodes : list Node) :
  NoDup input_nodes -> nodes (node_path_graph input_nodes) = input_nodes.
Proof.
  intros Hnd. unfold node_path_graph. rewrite add_path_edges_nodes.
  - now rewrite add_nodes_from_fresh by (auto; intros x _ []).
  - intros x Hx. apply add_nodes_from_nodes. now right.
Qed.

Lemma node_path_graph_edges (input_nodes : list Node) :
  edges (node_path_graph input_nodes) = consecutive input_nodes.
Proof.
  unfold node_path_graph.
  now rewrite add_path_edges_edges, add_nodes_from_edges.
Qed.

(** [node_path_graph] of a list of different nodes has these nodes, in
    their order, and one edge with no payload from each node to the next,
    in the order of the path; it has one edge less than it has nodes. *)
Theorem node_path_graph_path (input_nodes : list Node)
        (Hnd : NoDup input_nodes) :
  nodes (node_path_graph input_nodes) = input_nodes
  /\ edges (node_path_graph input_nodes) = consecutive input_nodes
  /\ length (edges (node_path_graph input_nodes))
     = Nat.pred (length input_nodes).
Proof.
  split; [now apply node_path_graph_nodes|].
  split; [apply node_path_graph_edges|].
  rewrite node_path_graph_edges. clear Hnd.
  induction input_nodes as [|a l IH]; [reflexivity|].
  destruct l as [|b l]; [reflexivity|].
  change (consecutive (a :: b :: l))
    with (Edge a b None :: consecutive (b :: l)).
  change (length (Edge a b None :: consecutive (b :: l)))
    with (S (length (consecutive (b :: l)))).
  rewrite IH. reflexivity.
Qed.

Lemma in_degree_zero (g : graph) (n : Node) :
  Nat.eqb (in_degree g n) 0 = true
  <-> forall e, In e (edges g) -> dst e <> n.
Proof.
  unfold in_degree, in_edges. rewrite Nat.eqb_eq, length_zero_iff_nil.
  split.
  - intros H0 e He Hd.
    assert (Hin : In e (filter (fun e => Nat.eqb (dst e) n) (edges g)))
      by (apply filter_In; split; [assumption|now apply Nat.eqb_eq]).
    rewrite H0 in Hin. destruct Hin.
  - intros Hno. apply filter_none. intros e He.
    apply Nat.eqb_neq. auto.
Qed.

Lemma out_degree_zero (g : graph) (n : Node) :
  Nat.eqb (out_degree g n) 0 = true
  <-> forall e, In e (edges g) -> src e <> n.
Proof.
  unfold out_degree, out_edges. rewrite Nat.eqb_eq, length_zero_iff_nil.
  split.
  - intros H0 e He Hd.
    assert (Hin : In e (filter (fun e => Nat.eqb (src e) n) (edges g)))
      by (apply filter_In; split; [assumption|now apply Nat.eqb_eq]).
    rewrite H0 in Hin. destruct Hin.
  - intros Hno. apply filter_none. intros e He.
    apply Nat.eqb_neq. auto.
Qed.

Lemma filter_only (P : Node -> bool) (l : list Node) (x : Node) :
  NoDup l -> In x l -> P x = true ->
  (forall y, In y l -> y <> x -> P y = false) ->
  filter P l = [x].
Proof.
  induction l as [|a l IH]; intros Hnd Hx Hpx Hothers; [destruct Hx|].
  inversion Hnd as [|? ? Ha Hnd']; subst. cbn.
  destruct Hx as [->|Hx].
  - rewrite Hpx. f_equal. apply filter_none. intros y Hy.
    apply Hothers; [now right|]. intros ->. contradiction.
  - rewrite (Hothers a (or_introl eq_refl)) by (intros ->; contradiction).
    apply IH; auto. intros y Hy. apply Hothers. now right.
Qed.

Lemma consecutive_dst (l : list Node) :
  forall a e, In e (consecutive (a :: l)) -> In (dst e) l.
Proof.
  induction l as [|b l IH]; intros a e He; [destruct He|].
  cbn in He. destruct He as [<-|He]; [now left|].
  right. now apply (IH b).
Qed.

Lemma consecutive_into (l : list Node) :
  forall a y, In y l -> exists e, In e (consecutive (a :: l)) /\ dst e = y.
Proof.
  induction l as [|b l IH]; intros a y Hy; [destruct Hy|].
  destruct Hy as [->|Hy].
  - exists (Edge a y None). split; [now left|reflexivity].
  - destruct (IH b y Hy) as [e [He Hd]]. exists e.
    split; [now right|assumption].
Qed.

Lemma last_default (l : list Node) :
  forall c a b, last (c :: l) a = last (c :: l) b.
Proof.
  induction l as [|d l IH]; intros c a b; [reflexivity|].
  change (last (c :: d :: l) a) with (last (d :: l) a).
  change (last (c :: d :: l) b) with (last (d :: l) b).
  apply IH.
Qed.

Lemma last_cons (l : list Node) (a b : Node) :
  last (b :: l) a = last l b.
Proof.
  destruct l as [|c l]; [reflexivity|].
  change (last (b :: c :: l) a) with (last (c :: l) a).
  apply last_default.
Qed.

Lemma last_In (l : list Node) : forall a, In (last l a) (a :: l).
Proof.
  induction l as [|b l IH]; intros a; [now left|].
  right. rewrite last_cons. apply IH.
Qed.

Lemma consecutive_src (l : list Node) :
  forall a e, NoDup (a :: l) -> In e (consecutive (a :: l)) ->
              src e <> last l a.
Proof.
  induction l as [|b l IH]; intros a e Hnd He; [destruct He|].
  inversion Hnd as [|? ? Ha Hnd']; subst.
  rewrite last_cons. cbn in He. destruct He as [<-|He].
  - cbn. intros ->. apply Ha. apply last_In.
  - now apply IH.
Qed.

Lemma consecutive_out_of (l : list Node) :
  forall a x, In x (a :: l) -> x <> last l a ->
              exists e, In e (consecutive (a :: l)) /\ src e = x.
Proof.
  induction l as [|b l IH]; intros a x Hx Hlast.
  - destruct Hx as [<-|[]]. now destruct Hlast.
  - rewrite last_cons in Hlast. destruct Hx as [<-|Hx].
    + exists (Edge a b None). split; [now left|reflexivity].
    + destruct (IH b x Hx Hlast) as [e [He Hs]]. exists e.
      split; [now right|assumption].
Qed.

Lemma path_graph_sources (a : Node) (l : list Node) :
  NoDup (a :: l) -> find_source_nodes (node_path_graph (a :: l)) = [a].
Proof.
  intros Hnd. unfold find_source_nodes.
  rewrite (node_path_graph_nodes _ Hnd).
  apply filter_only; [assumption|now left| |].
  - apply in_degree_zero. rewrite node_path_graph_edges. intros e Hin Hd.
    apply consecutive_dst in Hin. rewrite Hd in Hin.
    now inversion Hnd.
  - intros y Hy Hne. destruct Hy as [->|Hy]; [now destruct Hne|].
    destruct (consecutive_into l a y Hy) as [e [Hin Hd]].
    destruct (Nat.eqb (in_degree _ y) 0) eqn:E; [|reflexivity].
    pose proof (proj1 (in_degree_zero _ _) E) as E'.
    rewrite node_path_graph_edges in E'. now destruct (E' e Hin).
Qed.

Lemma path_graph_sinks (a : Node) (l : list Node) :
  NoDup (a :: l) ->
  find_sink_nodes (node_path_graph (a :: l)) = [last l a].
Proof.
  intros Hnd. unfold find_sink_nodes.
  rewrite (node_path_graph_nodes _ Hnd).
  apply filter_only; [assumption|apply last_In| |].
  - apply out_degree_zero. rewrite node_path_graph_edges. intros e Hin.
    now apply consecutive_src.
  - intros y Hy Hne.
    destruct (consecutive_out_of l a y Hy Hne) as [e [Hin Hs]].
    destruct (Nat.eqb (out_degree _ y) 0) eqn:E; [|reflexivity].
    pose proof (proj1 (out_degree_zero _ _) E) as E'.
    rewrite node_path_graph_edges in E'. now destruct (E' e Hin).
Qed.

(** The path graph through different nodes has one node with no edge into
    it, the first of the path, and one node with no edge out of it, the
    last of the path. *)
Theorem node_path_graph_ends (a : Node) (l : list Node)
        (Hnd : NoDup (a :: l)) :
  find_source_nodes (node_path_graph (a :: l)) = [a]
  /\ find_sink_nodes (node_path_graph (a :: l)) = [last l a].
Proof.
  split.
  - now apply path_graph_sources.
  - now apply path_graph_sinks.
Qed.

(** [replace_subgraph] never rejects two path graphs through different
    nodes: it returns [True], with the first and last nodes of the paths
    as sources and sinks. *)
Theorem replace_subgraph_paths (graph : gr.graph) (a b : Node)
        (l1 l2 : list Node)
        (Hold : NoDup (a :: l1)) (Hnew : NoDup (b :: l2)) :
  replace_subgraph graph (node_path_graph (a :: l1))
                   (node_path_graph (b :: l2))
  = (true, splice graph (node_path_graph (a :: l1))
                  (node_path_graph (b :: l2)) a (last l1 a) b (last l2 b)).
Proof.
  pose proof (path_graph_sources a l1 Hold) as Hs1.
  pose proof (path_graph_sinks a l1 Hold) as Hk1.
  pose proof (path_graph_sources b l2 Hnew) as Hs2.
  pose proof (path_graph_sinks b l2 Hnew) as Hk2.
  now apply replace_subgraph_accepts.
Qed.

End PathGraphMore.

Section SourcesMore.
Import gr nxutil_edit.

Lemma least_by (f : Node -> nat) (l : list Node) :
  l <> [] -> exists n, In n l /\ forall m, In m l -> (f n <= f m)%nat.
Proof.
  induction l as [|a l IH]; intros Hne; [now destruct Hne|].
  destruct l as [|b l].
  - exists a. split; [now left|]. intros m [<-|[]]. lia.
  - destruct IH as [n [Hn Hmin]]; [discriminate|].
    destruct (le_lt_dec (f a) (f n)) as [Hle|Hlt].
    + exists a. split; [now left|]. intros m [<-|Hm]; [lia|].
      specialize (Hmin m Hm). lia.
    + exists n. split; [now right|]. intros m [<-|Hm]; [lia|].
      now apply Hmin.
Qed.

Lemma greatest_by (f : Node -> nat) (l : list Node) :
  l <> [] -> exists n, In n l /\ forall m, In m l -> (f m <= f n)%nat.
Proof.
  induction l as [|a l IH]; intros Hne; [now destruct Hne|].
  destruct l as [|b l].
  - exists a. split; [now left|]. intros m [<-|[]]. lia.
  - destruct IH as [n [Hn Hmax]]; [discriminate|].
    destruct (le_lt_dec (f n) (f a)) as [Hle|Hlt].
    + exists a. split; [now left|]. intros m [<-|Hm]; [lia|].
      specialize (Hmax m Hm). lia.
    + exists n. split; [now right|]. intros m [<-|Hm]; [lia|].
      now apply Hmax.
Qed.

(** A graph with a node, without cycles, and with edges that join nodes of
    the graph, has a node that [find_source_nodes] returns and a node that
    [find_sink_nodes] returns: [replace_subgraph] can reject such a graph
    only for having several sources or several sinks. *)
Theorem acyclic_has_ends (G : graph) (rank : Node -> nat)
        (Hclosed : closed G) (Hacyclic : acyclic_by G rank)
        (Hnode : nodes G <> []) :
  find_source_nodes G <> [] /\ find_sink_nodes G <> [].
Proof.
  split.
  - destruct (least_by rank (nodes G) Hnode) as [n [Hn Hmin]].
    assert (Hin : In n (find_source_nodes G)).
    { apply find_source_nodes_In. split; [assumption|].
      intros e He Hd. specialize (Hacyclic e He).
      specialize (Hmin (src e) (proj1 (Hclosed e He))).
      rewrite Hd in Hacyclic. lia. }
    intros H0. rewrite H0 in Hin. destruct Hin.
  - destruct (greatest_by rank (nodes G) Hnode) as [n [Hn Hmax]].
    assert (Hin : In n (find_sink_nodes G)).
    { apply find_sink_nodes_In. split; [assumption|].
      intros e He Hs. specialize (Hacyclic e He).
      specialize (Hmax (dst e) (proj2 (Hclosed e He))).
      rewrite Hs in Hacyclic. lia. }
    intros H0. rewrite H0 in Hin. destruct Hin.
Qed.

End SourcesMore.

Section ReplaceMore.
Import gr nxutil_edit.

Lemma nodup_add_node (g : graph) (n : Node) :
  NoDup (nodes g) -> NoDup (nodes (add_node g n)).
Proof.
  intros Hnd. unfold add_node. destruct (mem n (nodes g)) eqn:Hn;
    [assumption|].
  apply mem_not_In in Hn. cbn. apply NoDup_app. repeat split.
  - assumption.
  - constructor; [intros []|constructor].
  - intros x Hx [<-|[]]. contradiction.
Qed.

Lemma nodup_add_edge (g : graph) (e : edge) :
  NoDup (nodes g) -> NoDup (nodes (add_edge g e)).
Proof.
  intros Hnd. unfold add_edge. cbn [nodes].
  now apply nodup_add_node, nodup_add_node.
Qed.

Lemma nodup_redirect (f : edge -> edge) (L : list edge) :
  forall g, NoDup (nodes g) -> NoDup (nodes (redirect f L g)).
Proof.
  induction L as [|e L IH]; intros g Hnd; [assumption|].
  apply IH. now apply nodup_add_edge.
Qed.

Lemma nodup_add_nodes_from (ns : list Node) :
  forall g, NoDup (nodes g) -> NoDup (nodes (add_nodes_from g ns)).
Proof.
  induction ns as [|n ns IH]; intros g Hnd; [assumption|].
  apply IH. now apply nodup_add_node.
Qed.

Lemma nodup_add_edges (l : list edge) :
  forall g, NoDup (nodes g) -> NoDup (nodes (fold_left add_edge l g)).
Proof.
  induction l as [|e l IH]; intros g Hnd; [assumption|].
  apply IH. now apply nodup_add_edge.
Qed.

Lemma nodup_splice (graph old new : gr.graph) (os ok ns nk : Node) :
  NoDup (nodes graph) -> NoDup (nodes (splice graph old new os ok ns nk)).
Proof.
  intros Hnd. unfold splice. rewrite remove_nodes_from_nodes.
  apply NoDup_filter. unfold change_edge_src, change_edge_dest.
  apply (nodup_redirect (fun e => with_src e nk)).
  apply (nodup_redirect (fun e => with_dst e ns)).
  now apply nodup_add_edges, nodup_add_nodes_from.
Qed.

(** Whatever [replace_subgraph] returns, it keeps a well-formed graph
    well-formed: when no node occurs twice and every edge joins nodes of
    the graph before the call, the same holds after it, so that no edge is
    left at a removed node. *)
Theorem replace_subgraph_keeps (graph old new : gr.graph)
        (Hclosed : closed graph) (Hnodes : NoDup (nodes graph)) :
  closed (snd (replace_subgraph graph old new))
  /\ NoDup (nodes (snd (replace_subgraph graph old new))).
Proof.
  unfold replace_subgraph.
  destruct (find_source_nodes old) as [|a [|? ?]]; auto.
  destruct (find_sink_nodes old) as [|b [|? ?]]; auto.
  destruct (find_source_nodes new) as [|c [|? ?]]; auto.
  destruct (find_sink_nodes new) as [|d [|? ?]]; auto.
  cbn [snd]. split; [now apply closed_splice|now apply nodup_splice].
Qed.

Lemma outside_redirected_dst (O : list Node) (a b : Node)
      (E : list edge) :
  In a O -> In b O ->
  filter (outside O) (redirected_dst a b E) = filter (outside O) E.
Proof.
  intros Ha Hb. unfold redirected_dst. rewrite filter_app, filter_twice.
  rewrite (filter_none _ (outside O) (map _ _)).
  - rewrite app_nil_r. apply filter_ext. intros e.
    destruct (outside O e) eqn:Ho; [|apply andb_false_r].
    rewrite andb_true_r. apply outside_true in Ho as [_ Hd].
    apply negb_true_iff, Nat.eqb_neq. intros Heq. apply Hd.
    now rewrite Heq.
  - intros e He. apply in_map_iff in He as [x [<- _]].
    apply outside_dst_in. destruct (with_dst_fields x b) as (_ & -> & _).
    assumption.
Qed.

Lemma outside_redirected_src (O : list Node) (a b : Node)
      (E : list edge) :
  In a O -> In b O ->
  filter (outside O) (redirected_src a b E) = filter (outside O) E.
Proof.
  intros Ha Hb. unfold redirected_src. rewrite filter_app, filter_twice.
  rewrite (filter_none _ (outside O) (map _ _)).
  - rewrite app_nil_r. apply filter_ext. intros e.
    destruct (outside O e) eqn:Ho; [|apply andb_false_r].
    rewrite andb_true_r. apply outside_true in Ho as [Hs _].
    apply negb_true_iff, Nat.eqb_neq. intros Heq. apply Hs.
    now rewrite Heq.
  - intros e He. apply in_map_iff in He as [x [<- _]].
    apply outside_src_in. destruct (with_src_fields x b) as (-> & _).
    assumption.
Qed.

(** Replacing a subgraph by itself removes it.  When [old] has one source
    and one sink and its edges join its own nodes,
    [replace_subgraph(graph, old, old)] returns [True] and leaves exactly
    the edges of the graph that touch no node of [old], in their order; no
    node of [old] is left. *)
Theorem replace_subgraph_self (graph old : gr.graph) (os ok : Node)
        (Hos : find_source_nodes old = [os])
        (Hok : find_sink_nodes old = [ok])
        (Hold : closed old) :
  exists graph' : gr.graph,
    replace_subgraph graph old old = (true, graph')
    /\ edges graph' = filter (outside (nodes old)) (edges graph)
    /\ forall n, In n (nodes old) -> ~ In n (nodes graph').
Proof.
  exists (splice graph old old os ok os ok).
  split; [now apply replace_subgraph_accepts|].
  pose proof (unique_source_In _ _ Hos) as Hos_in.
  pose proof (unique_sink_In _ _ Hok) as Hok_in.
  split; [|intros n; apply splice_nodes_old].
  rewrite splice_edges.
  rewrite outside_redirected_src, outside_redirected_dst by assumption.
  rewrite filter_app, (filter_none _ _ (edges old)); [apply app_nil_r|].
  intros e He. apply outside_src_in. now apply Hold.
Qed.

End ReplaceMore.

Section EditMoreChecks.
Import gr nxutil_edit nxutil_path examples.

Ltac each_of H := cbn in H; repeat (destruct H as [<-|H]); [..|destruct H].

Lemma change_edge_degrees_witness :
  (1 <> 9)%nat
  /\ in_edges (change_edge_dest four_path 1%nat 9%nat) 1%nat = []
  /\ in_edges (change_edge_dest four_path 1%nat 9%nat) 9%nat
     = [Edge 0%nat 9%nat None].
Proof.
  assert (Hab : (1 <> 9)%nat) by discriminate.
  split; [exact Hab|].
  exact (proj1 (change_edge_degrees four_path 1%nat 9%nat Hab)).
Defined.

Lemma change_edge_back_witness :
  in_edges four_path 9%nat = [] /\ out_edges four_path 9%nat = []
  /\ Permutation
       (edges (change_edge_dest (change_edge_dest four_path 1%nat 9%nat)
                                9%nat 1%nat))
       (edges four_path)
  /\ Permutation
       (edges (change_edge_src (change_edge_src four_path 1%nat 9%nat)
                               9%nat 1%nat))
       (edges four_path).
Proof.
  split; [reflexivity|]. split; [reflexivity|].
  exact (change_edge_back four_path 1%nat 9%nat eq_refl eq_refl).
Defined.

Lemma change_edge_keeps_witness :
  closed four_path /\ In 3%nat (nodes four_path)
  /\ nodes (change_edge_dest four_path 1%nat 3%nat) = nodes four_path
  /\ length (edges (change_edge_dest four_path 1%nat 3%nat))
     = length (edges four_path).
Proof.
  assert (Hb : In 3%nat (nodes four_path)) by (cbn; auto).
  split; [exact four_path_closed|]. split; [exact Hb|].
  destruct (change_edge_keeps four_path 1%nat 3%nat four_path_closed Hb)
    as [(Hn & Hl & _) _].
  split; [exact Hn|exact Hl].
Defined.

Lemma node_path_graph_path_witness :
  NoDup [4; 2; 7]%nat
  /\ nodes (node_path_graph [4; 2; 7]%nat) = [4; 2; 7]%nat
  /\ edges (node_path_graph [4; 2; 7]%nat)
     = [Edge 4%nat 2%nat None; Edge 2%nat 7%nat None]
  /\ length (edges (node_path_graph [4; 2; 7]%nat)) = 2%nat.
Proof.
  assert (Hnd : NoDup [4; 2; 7]%nat) by nodup_nat.
  split; [exact Hnd|].
  exact (node_path_graph_path [4; 2; 7]%nat Hnd).
Defined.

Lemma node_path_graph_ends_witness :
  NoDup [4; 2; 7]%nat
  /\ find_source_nodes (node_path_graph [4; 2; 7]%nat) = [4%nat]
  /\ find_sink_nodes (node_path_graph [4; 2; 7]%nat) = [7%nat].
Proof.
  assert (Hnd : NoDup [4; 2; 7]%nat) by nodup_nat.
  split; [exact Hnd|].
  exact (node_path_graph_ends 4%nat [2; 7]%nat Hnd).
Defined.

Lemma replace_subgraph_paths_witness :
  NoDup [1; 2]%nat /\ NoDup [7; 8; 9]%nat
  /\ fst (replace_subgraph four_path (node_path_graph [1; 2]%nat)
                           (node_path_graph [7; 8; 9]%nat)) = true.
Proof.
  assert (Hold : NoDup [1; 2]%nat) by nodup_nat.
  assert (Hnew : NoDup [7; 8; 9]%nat) by nodup_nat.
  split; [exact Hold|]. split; [exact Hnew|].
  exact (f_equal fst (replace_subgraph_paths four_path 1%nat 7%nat
                        [2%nat] [8; 9]%nat Hold Hnew)).
Defined.

Lemma acyclic_has_ends_witness :
  closed four_path /\ acyclic_by four_path (fun n => n)
  /\ nodes four_path <> []
  /\ find_source_nodes four_path <> [] /\ find_sink_nodes four_path <> [].
Proof.
  assert (Hacyclic : acyclic_by four_path (fun n => n))
    by (intros e He; each_of He; cbn; lia).
  assert (Hnode : nodes four_path <> []) by discriminate.
  split; [exact four_path_closed|]. split; [exact Hacyclic|].
  split; [exact Hnode|].
  exact (acyclic_has_ends four_path (fun n => n) four_path_closed
           Hacyclic Hnode).
Defined.

Lemma replace_subgraph_keeps_witness :
  closed four_path /\ NoDup (nodes four_path)
  /\ closed (snd (replace_subgraph four_path (node_path_graph [1; 2]%nat)
                                   (node_path_graph [7; 8; 9]%nat)))
  /\ NoDup (nodes (snd (replace_subgraph four_path
                          (node_path_graph [1; 2]%nat)
                          (node_path_graph [7; 8; 9]%nat)))).
Proof.
  split; [exact four_path_closed|]. split; [exact four_path_nodes|].
  exact (replace_subgraph_keeps four_path (node_path_graph [1; 2]%nat)
           (node_path_graph [7; 8; 9]%nat) four_path_closed
           four_path_nodes).
Defined.

Lemma replace_subgraph_self_witness :
  closed (node_path_graph [1; 2]%nat)
  /\ exists graph' : gr.graph,
       replace_subgraph four_path (node_path_graph [1; 2]%nat)
                        (node_path_graph [1; 2]%nat) = (true, graph')
       /\ edges graph'
          = filter (outside (nodes (node_path_graph [1; 2]%nat)))
                   (edges four_path)
       /\ forall n, In n (nodes (node_path_graph [1; 2]%nat)) ->
                    ~ In n (nodes graph').
Proof.
  assert (Hold : closed (node_path_graph [1; 2]%nat))
    by (intros e He; each_of He; split; cbn; auto).
  split; [exact Hold|].
  exact (replace_subgraph_self four_path (node_path_graph [1; 2]%nat)
           1%nat 2%nat eq_refl eq_refl Hold).
Defined.

End EditMoreChecks.

(** * Further properties of [merge_maps] *)

Section MergeMore.
Import gr nxutil_edit nxutil_merge.
Import (notations) String.

Lemma for_each_raises (A S : Type) (body : S -> A -> result S) (x : exn)
      (l : list A) :
  (forall s a, In a l ->
               (exists s', body s a = Ok s') \/ body s a = Raise x) ->
  (exists a, In a l /\ forall s, body s a = Raise x) ->
  forall s, for_each body l s = Raise x.
Proof.
  induction l as [|a l IH]; intros Hstep [b [Hb Hraise]] s;
    [destruct Hb|].
  cbn. destruct (Hstep s a (or_introl eq_refl)) as [[s' Hs']|Hr].
  - rewrite Hs'. cbn. apply IH.
    + intros s0 a0 Ha0. apply Hstep. now right.
    + destruct Hb as [<-|Hb]; [|now exists b].
      rewrite Hraise in Hs'. discriminate.
  - now rewrite Hr.
Qed.

Lemma for_each_ok_inv (A S : Type) (body : S -> A -> result S)
      (Inv : S -> Prop) (l : list A) :
  (forall s a s1, In a l -> body s a = Ok s1 -> Inv s -> Inv s1) ->
  forall s s', for_each body l s = Ok s' -> Inv s -> Inv s'.
Proof.
  induction l as [|a l IH]; intros Hstep s s' Hrun Hs; cbn in Hrun.
  - now injection Hrun as <-.
  - destruct (body s a) as [s1|] eqn:Hb; [|discriminate]. cbn in Hrun.
    apply (IH (fun s0 a0 s2 Ha0 => Hstep s0 a0 s2 (or_intror Ha0))
              s1 s' Hrun).
    now apply (Hstep s a s1 (or_introl eq_refl) Hb).
Qed.

Lemma for_each_ok_at (A S : Type) (body : S -> A -> result S)
      (P : S -> Prop) (l : list A) (a : A) :
  In a l ->
  (forall s b s1, In b l -> body s b = Ok s1 -> P s -> P s1) ->
  (forall s s1, body s a = Ok s1 -> P s1) ->
  forall s s', for_each body l s = Ok s' -> P s'.
Proof.
  induction l as [|b l IH]; intros Ha Hkeep Hmake s s' Hrun;
    [destruct Ha|].
  cbn in Hrun. destruct (body s b) as [s1|] eqn:Hb; [|discriminate].
  cbn in Hrun.
  assert (Hkeep' : forall s0 b0 s2, In b0 l -> body s0 b0 = Ok s2 ->
                                    P s0 -> P s2)
    by (intros s0 b0 s2 Hb0; apply Hkeep; now right).
  destruct Ha as [->|Ha].
  - apply (for_each_ok_inv _ _ body P l Hkeep' s1 s' Hrun).
    now apply (Hmake s).
  - now apply (IH Ha Hkeep' Hmake s1).
Qed.

Lemma first_match_In (attr : edge -> option Conn) (name : String.string)
      (inner : list edge) (e : edge) :
  first_match attr name inner = Ok e -> In e inner.
Proof.
  unfold first_match. destruct (forallb _ inner); [|discriminate].
  destruct (filter _ inner) as [|x l] eqn:Hf; [discriminate|].
  intros Heq. injection Heq as <-.
  assert (Hin : In x (filter (fun e => match attr e with
                                       | Some c => conn_is name c
                                       | None => false
                                       end) inner))
    by (rewrite Hf; now left).
  now apply filter_In in Hin.
Qed.

Lemma first_match_none (attr : edge -> option Conn) (name : String.string)
      (inner : list edge) :
  (forall e, In e inner -> attr e <> None) ->
  (forall e, In e inner -> attr e <> Some (Some name)) ->
  first_match attr name inner = Raise IndexError.
Proof.
  intros Hall Hno. unfold first_match.
  assert (Hfa : forallb (fun e => match attr e with
                                  | Some _ => true
                                  | None => false
                                  end) inner = true).
  { apply forallb_forall. intros x Hx. specialize (Hall x Hx).
    now destruct (attr x). }
  rewrite Hfa. rewrite filter_none; [reflexivity|].
  intros e He. specialize (Hno e He).
  destruct (attr e) as [[s|]|]; try reflexivity.
  cbn. destruct (String.eqb_spec s name) as [->|]; [|reflexivity].
  now destruct Hno.
Qed.

(** One round of the first loop, on an edge with connectors whose
    destination connector has a name, against inner edges with connectors:
    it succeeds or raises [IndexError]. *)
Lemma redirect_inner_in_cases (merged_entry : Node)
      (inner_in_edges : list edge) (graph : gr.graph) (edge : gr.edge)
      (name : String.string) :
  (forall e, In e inner_in_edges -> is_connector_edge e = true) ->
  is_connector_edge edge = true ->
  dst_conn edge = Some (Some name) ->
  (exists graph',
      redirect_inner_in merged_entry inner_in_edges graph edge = Ok graph')
  \/ redirect_inner_in merged_entry inner_in_edges graph edge
     = Raise IndexError.
Proof.
  intros Hall Hedge Hdc.
  destruct (connector_edge_attrs edge Hedge) as (esc & edc & Hesc & Hedc).
  unfold redirect_inner_in, get_dst_conn, get_src_conn.
  rewrite Hdc. cbn [bind slice_from].
  destruct (first_match src_conn _ inner_in_edges) as [ie|x] eqn:Hfm.
  - left. cbn [bind]. rewrite Hesc.
    destruct (connector_edge_attrs ie (Hall ie (first_match_In _ _ _ _ Hfm)))
      as (isc & idc & _ & Hidc).
    rewrite Hidc. cbn [bind]. eauto.
  - right. cbn [bind]. f_equal.
    unfold first_match in Hfm.
    destruct (forallb _ inner_in_edges) eqn:Hfa.
    + destruct (filter _ inner_in_edges); [congruence|discriminate].
    + exfalso.
      assert (Htrue : forallb (fun e => match src_conn e with
                                        | Some _ => true
                                        | None => false
                                        end) inner_in_edges = true).
      { apply forallb_forall. intros e He.
        destruct (connector_edge_attrs e (Hall e He)) as (sc & dc & -> & _).
        reflexivity. }
      congruence.
Qed.

Lemma redirect_inner_in_missing (merged_entry : Node)
      (inner_in_edges : list edge) (graph : gr.graph) (edge : gr.edge)
      (name : String.string) :
  (forall e, In e inner_in_edges -> is_connector_edge e = true) ->
  dst_conn edge = Some (Some name) ->
  (forall e, In e inner_in_edges ->
             src_conn e
             <> Some (Some (String.append "OUT_" (string_drop 3 name)))) ->
  redirect_inner_in merged_entry inner_in_edges graph edge
  = Raise IndexError.
Proof.
  intros Hall Hdc Hno.
  unfold redirect_inner_in, get_dst_conn.
  rewrite Hdc. cbn [bind slice_from].
  rewrite first_match_none; [reflexivity| |assumption].
  intros e He. destruct (connector_edge_attrs e (Hall e He))
    as (sc & dc & -> & _). discriminate.
Qed.

(** What a successful round of the first loop did to the graph. *)
Lemma redirect_inner_in_inv (merged_entry : Node)
      (inner_in_edges : list edge) (graph graph' : gr.graph)
      (edge : gr.edge) :
  redirect_inner_in merged_entry inner_in_edges graph edge = Ok graph' ->
  exists name inner_edge edge_src_conn inner_dst_conn,
    dst_conn edge = Some (Some name)
    /\ first_match src_conn
         (String.append "OUT_" (string_drop 3 name)) inner_in_edges
       = Ok inner_edge
    /\ src_conn edge = Some edge_src_conn
    /\ dst_conn inner_edge = Some inner_dst_conn
    /\ graph'
       = add_edge (remove_edge (remove_edge graph edge) inner_edge)
           (MultiConnectorEdge merged_entry edge_src_conn (dst inner_edge)
                               inner_dst_conn (data inner_edge)).
Proof.
  unfold redirect_inner_in, get_dst_conn, get_src_conn. intros Hrun.
  destruct (dst_conn edge) as [[name|]|] eqn:Hdc; try discriminate.
  cbn [bind slice_from] in Hrun.
  destruct (first_match src_conn _ inner_in_edges) as [ie|] eqn:Hfm;
    [|discriminate].
  cbn [bind] in Hrun.
  destruct (src_conn edge) as [esc|] eqn:Hsc; [|discriminate].
  destruct (dst_conn ie) as [idc|] eqn:Hidc; [|discriminate].
  cbn [bind] in Hrun. injection Hrun as <-.
  exists name, ie, esc, idc. repeat split; assumption || reflexivity.
Qed.

Lemma redirect_inner_out_inv (merged_exit : Node)
      (inner_out_edges : list edge) (graph graph' : gr.graph)
      (edge : gr.edge) :
  redirect_inner_out merged_exit inner_out_edges graph edge = Ok graph' ->
  exists inner_edge new_edge,
    In inner_edge inner_out_edges
    /\ graph'
       = add_edge (remove_edge (remove_edge graph edge) inner_edge)
                  new_edge.
Proof.
  unfold redirect_inner_out, get_dst_conn, get_src_conn. intros Hrun.
  destruct (src_conn edge) as [[name|]|]; try discriminate.
  cbn [bind slice_from] in Hrun.
  destruct (first_match dst_conn _ inner_out_edges) as [ie|] eqn:Hfm;
    [|discriminate].
  cbn [bind] in Hrun.
  destruct (src_conn ie) as [isc|]; [|discriminate].
  destruct (dst_conn edge) as [edc|]; [|discriminate].
  cbn [bind] in Hrun. injection Hrun as <-.
  eexists. eexists. split; [eapply first_match_In; eassumption|].
  reflexivity.
Qed.

End MergeMore.

Section MergeRest.
Import gr nxutil_edit nxutil_merge.
Import (notations) String.

Lemma add_nodes_from_out_edges (g : gr.graph) (ns : list Node) (n : Node) :
  out_edges (add_nodes_from g ns) n = out_edges g n.
Proof. unfold out_edges. now rewrite add_nodes_from_edges. Qed.

Lemma add_nodes_from_edges_between (g : gr.graph) (ns : list Node)
      (a b : Node) :
  edges_between (add_nodes_from g ns) a b = edges_between g a b.
Proof. unfold edges_between. now rewrite add_nodes_from_edges. Qed.

(** The steps of a run of [merge_maps] that returns. *)
Lemma merge_maps_run (Params Ranges : Type) (graph : gr.graph)
      (outer_map_entry outer_map_exit
       inner_map_entry inner_map_exit : dace_nodes.MapNode Params Ranges)
      (param_merge : Params -> Params -> Params)
      (range_merge : Ranges -> Ranges -> Ranges)
      (entry_id exit_id : Node) (graph' : gr.graph)
      (merged : dace_nodes.MapNode Params Ranges
                * dace_nodes.MapNode Params Ranges) :
  merge_maps Params Ranges graph outer_map_entry outer_map_exit
             inner_map_entry inner_map_exit param_merge range_merge
             entry_id exit_id = Ok (graph', merged) ->
  exists g1 g2,
    for_each (redirect_inner_in entry_id
                (out_edges graph (dace_nodes.ident _ _ inner_map_entry)))
             (edges_between graph (dace_nodes.ident _ _ outer_map_entry)
                            (dace_nodes.ident _ _ inner_map_entry))
             (add_nodes_from graph [entry_id; exit_id]) = Ok g1
    /\ for_each (redirect_inner_out exit_id
                   (in_edges g1 (dace_nodes.ident _ _ inner_map_exit)))
                (edges_between g1 (dace_nodes.ident _ _ inner_map_exit)
                               (dace_nodes.ident _ _ outer_map_exit))
                g1 = Ok g2
    /\ graph'
       = remove_nodes_from
           (change_edge_src
              (change_edge_dest g2 (dace_nodes.ident _ _ outer_map_entry)
                                entry_id)
              (dace_nodes.ident _ _ outer_map_exit) exit_id)
           [dace_nodes.ident _ _ outer_map_entry;
            dace_nodes.ident _ _ outer_map_exit;
            dace_nodes.ident _ _ inner_map_entry;
            dace_nodes.ident _ _ inner_map_exit].
Proof.
  unfold merge_maps. cbv zeta.
  rewrite add_nodes_from_out_edges, add_nodes_from_edges_between.
  destruct (for_each (redirect_inner_in entry_id _) _ _)
    as [g1|] eqn:H1; [|discriminate].
  cbn [bind].
  destruct (for_each (redirect_inner_out exit_id _) _ _)
    as [g2|] eqn:H2; [|discriminate].
  cbn [bind]. intros Heq. injection Heq as <- _.
  exists g1, g2. auto.
Qed.

Lemma conn_is_true (name : String.string) (c : Conn) :
  conn_is name c = true <-> c = Some name.
Proof.
  destruct c as [s|]; cbn.
  - rewrite String.eqb_eq. split; [now intros ->|congruence].
  - split; discriminate.
Qed.

Lemma first_match_attr (attr : edge -> option Conn) (name : String.string)
      (inner : list edge) (e : edge) :
  first_match attr name inner = Ok e ->
  In e inner /\ attr e = Some (Some name).
Proof.
  unfold first_match. destruct (forallb _ inner); [|discriminate].
  destruct (filter _ inner) as [|x l] eqn:Hf; [discriminate|].
  intros Heq. injection Heq as <-.
  assert (Hin : In x (filter (fun e => match attr e with
                                       | Some c => conn_is name c
                                       | None => false
                                       end) inner))
    by (rewrite Hf; now left).
  apply filter_In in Hin as [Hin Hc]. split; [assumption|].
  destruct (attr x) as [c|]; [|discriminate].
  apply conn_is_true in Hc. now subst c.
Qed.

(** The comprehension takes the first edge with the connector. *)
Lemma first_match_first (attr : edge -> option Conn) (name : String.string)
      (before after : list edge) (inner e : edge) :
  first_match attr name (before ++ inner :: after) = Ok e ->
  (forall x, In x before -> attr x <> Some (Some name)) ->
  attr inner = Some (Some name) ->
  e = inner.
Proof.
  unfold first_match. intros Hrun Hbefore Hinner.
  destruct (forallb _ (before ++ inner :: after)); [|discriminate].
  rewrite filter_app in Hrun.
  rewrite (filter_none _ _ before) in Hrun.
  - cbn in Hrun. rewrite Hinner in Hrun.
    rewrite (proj2 (conn_is_true name (Some name)) eq_refl) in Hrun.
    now injection Hrun as <-.
  - intros x Hx. specialize (Hbefore x Hx).
    destruct (attr x) as [c|]; [|reflexivity].
    destruct (conn_is name c) eqn:Hc; [|reflexivity].
    apply conn_is_true in Hc. now subst c.
Qed.

Lemma for_each_ok_each (A S : Type) (body : S -> A -> result S)
      (l : list A) :
  forall s s', for_each body l s = Ok s' ->
               forall a, In a l -> exists s0 s1, body s0 a = Ok s1.
Proof.
  induction l as [|b l IH]; intros s s' Hrun a Ha; [destruct Ha|].
  cbn in Hrun. destruct (body s b) as [s1|] eqn:Hb; [|discriminate].
  cbn in Hrun. destruct Ha as [<-|Ha].
  - now exists s, s1.
  - exact (IH s1 s' Hrun a Ha).
Qed.

(** What a successful round of the second loop found. *)
Lemma redirect_inner_out_match (merged_exit : Node)
      (inner_out_edges : list edge) (graph graph' : gr.graph)
      (edge : gr.edge) :
  redirect_inner_out merged_exit inner_out_edges graph edge = Ok graph' ->
  exists name inner_edge,
    src_conn edge = Some (Some name)
    /\ first_match dst_conn
         (String.append "IN_" (string_drop 4 name)) inner_out_edges
       = Ok inner_edge.
Proof.
  unfold redirect_inner_out, get_dst_conn, get_src_conn. intros Hrun.
  destruct (src_conn edge) as [[name|]|] eqn:Hsc; try discriminate.
  cbn [bind slice_from] in Hrun.
  destruct (first_match dst_conn _ inner_out_edges) as [ie|] eqn:Hfm;
    [|discriminate].
  exists name, ie. split; [reflexivity|assumption].
Qed.

Lemma swap_keeps (e0 edge inner new_edge : gr.edge) (g : gr.graph) :
  e0 <> edge -> e0 <> inner -> In e0 (edges g) ->
  In e0 (edges (add_edge (remove_edge (remove_edge g edge) inner)
                         new_edge)).
Proof.
  intros H1 H2 Hin. cbn. apply in_or_app. left.
  apply remove_first_other; [|assumption].
  now apply remove_first_other.
Qed.

Lemma swap_nodes (n : Node) (edge inner new_edge : gr.edge)
      (g : gr.graph) :
  In n (nodes g) ->
  In n (nodes (add_edge (remove_edge (remove_edge g edge) inner)
                        new_edge)).
Proof. intros Hn. apply add_edge_nodes. now left. Qed.

Variable graph : gr.graph.
Variables oe ox ie ix entry_id exit_id : Node.

(** An edge that a loop does not take out stays in the graph through the
    loop. *)
Lemma merge_loop_in_keep (e0 : edge) (g0 g1 : gr.graph) :
  src e0 <> ie ->
  src e0 <> oe \/ dst e0 <> ie ->
  for_each (redirect_inner_in entry_id (out_edges graph ie))
           (edges_between graph oe ie) g0 = Ok g1 ->
  In e0 (edges g0) -> In e0 (edges g1).
Proof.
  intros Hsi Hfirst H1 Hin0.
  apply (for_each_ok_inv _ _ (redirect_inner_in entry_id
                                                (out_edges graph ie))
                         (fun g => In e0 (edges g))
                         (edges_between graph oe ie)) with (s := g0);
    [|exact H1|exact Hin0].
  intros g edge g' Hedge Hrun Hin.
  apply redirect_inner_in_inv in Hrun
    as (name & inner & sc & dc & _ & Hfm & _ & _ & ->).
  apply first_match_In, filter_In in Hfm as [_ Hs].
  apply filter_In in Hedge as [_ He].
  apply andb_true_iff in He as [Hes Hed].
  apply Nat.eqb_eq in Hs, Hes, Hed.
  apply swap_keeps; [| |assumption]; intros ->.
  - destruct Hfirst; contradiction.
  - contradiction.
Qed.

Lemma merge_loop_out_keep (e0 : edge) (g1 g2 : gr.graph) :
  dst e0 <> ix ->
  src e0 <> ix \/ dst e0 <> ox ->
  for_each (redirect_inner_out exit_id (in_edges g1 ix))
           (edges_between g1 ix ox) g1 = Ok g2 ->
  In e0 (edges g1) -> In e0 (edges g2).
Proof.
  intros Hdx Hsecond H2 Hin0.
  apply (for_each_ok_inv _ _ (redirect_inner_out exit_id
                                                 (in_edges g1 ix))
                         (fun g => In e0 (edges g))
                         (edges_between g1 ix ox)) with (s := g1);
    [|exact H2|exact Hin0].
  intros g edge g' Hedge Hrun Hin.
  apply redirect_inner_out_inv in Hrun as (inner & new_edge & Hi & ->).
  apply filter_In in Hi as [_ Hd].
  apply filter_In in Hedge as [_ He].
  apply andb_true_iff in He as [Hes Hed].
  apply Nat.eqb_eq in Hd, Hes, Hed.
  apply swap_keeps; [| |assumption]; intros ->.
  - destruct Hsecond; contradiction.
  - contradiction.
Qed.

Lemma merge_loop_in_keep_outside (e0 : edge) (g0 g1 : gr.graph) :
  outside [oe; ox; ie; ix] e0 = true ->
  for_each (redirect_inner_in entry_id (out_edges graph ie))
           (edges_between graph oe ie) g0 = Ok g1 ->
  In e0 (edges g0) -> In e0 (edges g1).
Proof.
  intros Ho. apply outside_true in Ho as [Hs Hd].
  apply merge_loop_in_keep.
  - intros Heq. apply Hs. rewrite Heq. cbn. auto.
  - left. intros Heq. apply Hs. rewrite Heq. cbn. auto.
Qed.

Lemma merge_loop_out_keep_outside (e0 : edge) (g1 g2 : gr.graph) :
  outside [oe; ox; ie; ix] e0 = true ->
  for_each (redirect_inner_out exit_id (in_edges g1 ix))
           (edges_between g1 ix ox) g1 = Ok g2 ->
  In e0 (edges g1) -> In e0 (edges g2).
Proof.
  intros Ho. apply outside_true in Ho as [Hs Hd].
  apply merge_loop_out_keep.
  - intros Heq. apply Hd. rewrite Heq. cbn. auto.
  - left. intros Heq. apply Hs. rewrite Heq. cbn. auto.
Qed.

Lemma merge_tail_keeps (e0 : edge) (g2 : gr.graph) :
  outside [oe; ox; ie; ix] e0 = true ->
  In e0 (edges g2) ->
  In e0 (edges (remove_nodes_from
                  (change_edge_src (change_edge_dest g2 oe entry_id)
                                   ox exit_id) [oe; ox; ie; ix])).
Proof.
  intros Ho Hin. rewrite remove_nodes_from_edges. apply filter_In.
  split; [|assumption].
  pose proof (proj1 (outside_true _ _) Ho) as [Hs Hd].
  rewrite change_edge_src_edges.
  apply (redirected_src_other ox exit_id);
    [|intros Heq; apply Hs; rewrite Heq; cbn; auto].
  rewrite change_edge_dest_edges.
  apply (redirected_dst_other oe entry_id);
    [assumption|intros Heq; apply Hd; rewrite Heq; cbn; auto].
Qed.

Lemma merge_tail_moves_dst (e : edge) (g2 : gr.graph) :
  In e (edges g2) -> dst e = oe ->
  ~ In (src e) [oe; ox; ie; ix] -> ~ In entry_id [oe; ox; ie; ix] ->
  In (with_dst e entry_id)
     (edges (remove_nodes_from
               (change_edge_src (change_edge_dest g2 oe entry_id)
                                ox exit_id) [oe; ox; ie; ix])).
Proof.
  intros Hin Hd Hs Hentry.
  destruct (with_dst_fields e entry_id) as (Hfs & Hfd & _).
  rewrite remove_nodes_from_edges. apply filter_In. split.
  - rewrite change_edge_src_edges.
    apply (redirected_src_other ox exit_id).
    + rewrite change_edge_dest_edges.
      now apply (redirected_dst_moved oe entry_id).
    + rewrite Hfs. intros Heq. apply Hs. rewrite Heq. cbn. auto.
  - apply outside_true. now rewrite Hfs, Hfd.
Qed.

Lemma merge_tail_moves_src (e : edge) (g2 : gr.graph) :
  In e (edges g2) -> src e = ox ->
  ~ In (dst e) [oe; ox; ie; ix] -> ~ In exit_id [oe; ox; ie; ix] ->
  In (with_src e exit_id)
     (edges (remove_nodes_from
               (change_edge_src (change_edge_dest g2 oe entry_id)
                                ox exit_id) [oe; ox; ie; ix])).
Proof.
  intros Hin Hs Hd Hexit.
  destruct (with_src_fields e exit_id) as (Hfs & Hfd & _).
  rewrite remove_nodes_from_edges. apply filter_In. split.
  - rewrite change_edge_src_edges.
    apply (redirected_src_moved ox exit_id); [|assumption].
    rewrite change_edge_dest_edges.
    apply (redirected_dst_other oe entry_id); [assumption|].
    intros Heq. apply Hd. rewrite Heq. cbn. auto.
  - apply outside_true. now rewrite Hfs, Hfd.
Qed.

Lemma merge_loops_nodes (n : Node) (g0 g1 g2 : gr.graph) :
  for_each (redirect_inner_in entry_id (out_edges graph ie))
           (edges_between graph oe ie) g0 = Ok g1 ->
  for_each (redirect_inner_out exit_id (in_edges g1 ix))
           (edges_between g1 ix ox) g1 = Ok g2 ->
  In n (nodes g0) -> In n (nodes g2).
Proof.
  intros H1 H2 Hn.
  apply (for_each_ok_inv _ _ (redirect_inner_out exit_id (in_edges g1 ix))
                         (fun g => In n (nodes g))
                         (edges_between g1 ix ox)) with (s := g1);
    [|exact H2|].
  - intros g edge g' _ Hrun Hin.
    apply redirect_inner_out_inv in Hrun as (inner & new_edge & _ & ->).
    now apply swap_nodes.
  - apply (for_each_ok_inv _ _ (redirect_inner_in entry_id
                                                  (out_edges graph ie))
                           (fun g => In n (nodes g))
                           (edges_between graph oe ie)) with (s := g0);
      [|exact H1|exact Hn].
    intros g edge g' _ Hrun Hin.
    apply redirect_inner_in_inv in Hrun
      as (name & inner & sc & dc & _ & _ & _ & _ & ->).
    now apply swap_nodes.
Qed.

Lemma merge_tail_nodes (n : Node) (g2 : gr.graph) :
  In n (nodes g2) -> ~ In n [oe; ox; ie; ix] ->
  In n (nodes (remove_nodes_from
                 (change_edge_src (change_edge_dest g2 oe entry_id)
                                  ox exit_id) [oe; ox; ie; ix])).
Proof.
  intros Hn Hout. rewrite remove_nodes_from_nodes. apply filter_In. split.
  - unfold change_edge_src, change_edge_dest.
    now apply redirect_nodes_mono, redirect_nodes_mono.
  - now apply negb_true_iff, mem_not_In.
Qed.

(** The first loop leaves the exit side as the second loop expects it: the
    edges from the inner to the outer exit are as in [graph], and an edge
    into the inner exit has the connector of one that was there in
    [graph]. *)
Lemma merge_loop_exit_side (g0 g1 : gr.graph) :
  ix <> oe -> ix <> ie -> ix <> entry_id ->
  edges g0 = edges graph ->
  for_each (redirect_inner_in entry_id (out_edges graph ie))
           (edges_between graph oe ie) g0 = Ok g1 ->
  edges_between g1 ix ox = edges_between graph ix ox
  /\ forall e, In e (in_edges g1 ix) ->
               exists e0, In e0 (in_edges graph ix)
                          /\ dst_conn e0 = dst_conn e.
Proof.
  intros Hoe Hie Hid Hg0 H1.
  apply (for_each_ok_inv _ _ (redirect_inner_in entry_id
                                                (out_edges graph ie))
           (fun g => edges_between g ix ox = edges_between graph ix ox
                     /\ forall e, In e (in_edges g ix) ->
                                  exists e0, In e0 (in_edges graph ix)
                                             /\ dst_conn e0 = dst_conn e)
           (edges_between graph oe ie)) with (s := g0); [|exact H1|].
  - intros g edge g' Hedge Hrun [Hb Hk].
    apply redirect_inner_in_inv in Hrun
      as (name & inner & sc & dc & _ & Hfm & _ & Hdc & ->).
    apply first_match_In, filter_In in Hfm as [Hinner Hs].
    apply filter_In in Hedge as [_ He].
    apply andb_true_iff in He as [Hes _].
    apply Nat.eqb_eq in Hs, Hes.
    assert (Hnot : forall x, ix <> src x ->
                     Nat.eqb (src x) ix && Nat.eqb (dst x) ox = false).
    { intros x Hx. apply andb_false_iff. left. apply Nat.eqb_neq. auto. }
    split.
    + unfold edges_between in *. cbn [edges add_edge remove_edge].
      rewrite filter_app. cbn [filter src dst].
      rewrite (proj2 (Nat.eqb_neq entry_id ix)) by auto.
      cbn [andb]. rewrite app_nil_r.
      rewrite !filter_remove_first; [assumption| |];
        apply Hnot; congruence.
    + intros e He. unfold in_edges in He.
      apply filter_In in He as [He Hd].
      cbn [edges add_edge remove_edge] in He.
      apply in_app_or in He as [He|[<-|[]]].
      * apply Hk. apply filter_In. split; [|assumption].
        eapply remove_first_In, remove_first_In. eassumption.
      * cbn in Hd. exists inner. split; [|now rewrite Hdc].
        apply filter_In. now split.
  - unfold edges_between, in_edges. rewrite Hg0. split; [reflexivity|].
    intros e He. now exists e.
Qed.

End MergeRest.

Section MergeMoreTheorems.
Import gr nxutil_edit nxutil_merge.
Import (notations) String.

(** When [merge_maps] returns, what is away from the two maps is left
    alone: every edge of the graph that touches none of the two entries and
    two exits is still in the graph, every other node of the graph is still
    a node, and the new entry and the new exit are nodes of the graph. *)
Theorem merge_maps_keeps_rest (Params Ranges : Type) (graph : gr.graph)
        (outer_map_entry outer_map_exit
         inner_map_entry inner_map_exit : dace_nodes.MapNode Params Ranges)
        (param_merge : Params -> Params -> Params)
        (range_merge : Ranges -> Ranges -> Ranges)
        (entry_id exit_id : Node) (graph' : gr.graph)
        (merged : dace_nodes.MapNode Params Ranges
                  * dace_nodes.MapNode Params Ranges)
        (Hrun : merge_maps Params Ranges graph outer_map_entry
                           outer_map_exit inner_map_entry inner_map_exit
                           param_merge range_merge entry_id exit_id
                = Ok (graph', merged))
        (Hnew : ~ In entry_id [dace_nodes.ident _ _ outer_map_entry;
                               dace_nodes.ident _ _ outer_map_exit;
                               dace_nodes.ident _ _ inner_map_entry;
                               dace_nodes.ident _ _ inner_map_exit]
                /\ ~ In exit_id [dace_nodes.ident _ _ outer_map_entry;
                                 dace_nodes.ident _ _ outer_map_exit;
                                 dace_nodes.ident _ _ inner_map_entry;
                                 dace_nodes.ident _ _ inner_map_exit]) :
  let four := [dace_nodes.ident _ _ outer_map_entry;
               dace_nodes.ident _ _ outer_map_exit;
               dace_nodes.ident _ _ inner_map_entry;
               dace_nodes.ident _ _ inner_map_exit] in
  (forall e, In e (edges graph) ->
             ~ In (src e) four -> ~ In (dst e) four ->
             In e (edges graph'))
  /\ (forall n, In n (nodes graph) -> ~ In n four -> In n (nodes graph'))
  /\ In entry_id (nodes graph')
  /\ In exit_id (nodes graph').
Proof.
  intros four.
  destruct (merge_maps_run _ _ _ _ _ _ _ _ _ _ _ _ _ Hrun)
    as (g1 & g2 & H1 & H2 & ->).
  assert (Hnodes : forall n,
             In n (nodes (add_nodes_from graph [entry_id; exit_id])) ->
             ~ In n four ->
             In n (nodes (remove_nodes_from
                            (change_edge_src
                               (change_edge_dest
                                  g2 (dace_nodes.ident _ _ outer_map_entry)
                                  entry_id)
                               (dace_nodes.ident _ _ outer_map_exit)
                               exit_id) four))).
  { intros n Hn Hout. apply merge_tail_nodes; [|exact Hout].
    eapply merge_loops_nodes; [exact H1|exact H2|exact Hn]. }
  split; [|split; [|split]].
  - intros e He Hs Hd.
    assert (Ho : outside four e = true) by (now apply outside_true).
    apply merge_tail_keeps; [exact Ho|].
    eapply merge_loop_out_keep_outside; [exact Ho|exact H2|].
    eapply merge_loop_in_keep_outside; [exact Ho|exact H1|].
    now rewrite add_nodes_from_edges.
  - intros n Hn Hout. apply Hnodes; [|exact Hout].
    apply add_nodes_from_nodes. now left.
  - apply Hnodes; [|exact (proj1 Hnew)].
    apply add_nodes_from_nodes. right. cbn. auto.
  - apply Hnodes; [|exact (proj2 Hnew)].
    apply add_nodes_from_nodes. right. cbn. auto.
Qed.

(** When [merge_maps] returns, the data that went from the outer entry
    through connector [IN_k] of the inner entry goes straight from the new
    entry to where the inner entry sent it: for an edge from the outer to
    the inner entry into [IN_k], and the first edge [inner] out of the
    inner entry from [OUT_k], the graph has an edge from the new entry,
    with the source connector of the former, to the destination of
    [inner], with its destination connector and its payload. *)
Theorem merge_maps_rewires (Params Ranges : Type) (graph : gr.graph)
        (outer_map_entry outer_map_exit
         inner_map_entry inner_map_exit : dace_nodes.MapNode Params Ranges)
        (param_merge : Params -> Params -> Params)
        (range_merge : Ranges -> Ranges -> Ranges)
        (entry_id exit_id : Node) (graph' : gr.graph)
        (merged : dace_nodes.MapNode Params Ranges
                  * dace_nodes.MapNode Params Ranges)
        (edge inner : gr.edge) (name : String.string)
        (before after : list gr.edge)
        (Hrun : merge_maps Params Ranges graph outer_map_entry
                           outer_map_exit inner_map_entry inner_map_exit
                           param_merge range_merge entry_id exit_id
                = Ok (graph', merged))
        (Hedge : In edge (edges_between graph
                            (dace_nodes.ident _ _ outer_map_entry)
                            (dace_nodes.ident _ _ inner_map_entry)))
        (Hname : dst_conn edge = Some (Some name))
        (Hsplit : out_edges graph (dace_nodes.ident _ _ inner_map_entry)
                  = before ++ inner :: after)
        (Hbefore : forall e, In e before ->
                     src_conn e
                     <> Some (Some (String.append "OUT_"
                                      (string_drop 3 name))))
        (Hinner : src_conn inner
                  = Some (Some (String.append "OUT_" (string_drop 3 name))))
        (Hentry : ~ In entry_id [dace_nodes.ident _ _ outer_map_entry;
                                 dace_nodes.ident _ _ outer_map_exit;
                                 dace_nodes.ident _ _ inner_map_entry;
                                 dace_nodes.ident _ _ inner_map_exit])
        (Hdst : ~ In (dst inner) [dace_nodes.ident _ _ outer_map_entry;
                                  dace_nodes.ident _ _ outer_map_exit;
                                  dace_nodes.ident _ _ inner_map_entry;
                                  dace_nodes.ident _ _ inner_map_exit]) :
  exists edge_src_conn inner_dst_conn,
    src_conn edge = Some edge_src_conn
    /\ dst_conn inner = Some inner_dst_conn
    /\ In (MultiConnectorEdge entry_id edge_src_conn (dst inner)
                              inner_dst_conn (data inner))
          (edges graph').
Proof.
  destruct (merge_maps_run _ _ _ _ _ _ _ _ _ _ _ _ _ Hrun)
    as (g1 & g2 & H1 & H2 & ->).
  destruct (for_each_ok_each _ _ _ _ _ _ H1 edge Hedge) as (s0 & s1 & Hb).
  apply redirect_inner_in_inv in Hb
    as (name' & inner' & sc & dc & Hname' & Hfm & Hsc & Hdc & _).
  assert (name' = name) by congruence. subst name'.
  rewrite Hsplit in Hfm.
  apply (first_match_first _ _ _ _ _ _ Hfm Hbefore) in Hinner as Heq.
  subst inner'.
  exists sc, dc. split; [assumption|]. split; [assumption|].
  set (new_edge := MultiConnectorEdge entry_id sc (dst inner) dc
                                      (data inner)).
  assert (Ho : outside [dace_nodes.ident _ _ outer_map_entry;
                        dace_nodes.ident _ _ outer_map_exit;
                        dace_nodes.ident _ _ inner_map_entry;
                        dace_nodes.ident _ _ inner_map_exit] new_edge
               = true) by (now apply outside_true).
  apply merge_tail_keeps; [exact Ho|].
  assert (Hg1 : In new_edge (edges g1)).
  { apply (for_each_ok_at _ _
             (redirect_inner_in entry_id
                (out_edges graph (dace_nodes.ident _ _ inner_map_entry)))
             (fun g => In new_edge (edges g)) _ edge Hedge)
      with (s := add_nodes_from graph [entry_id; exit_id]);
      [| |exact H1].
    - intros g b g' Hb' Hstep Hin.
      apply redirect_inner_in_inv in Hstep
        as (nm & inr & sc' & dc' & _ & Hfm' & _ & _ & ->).
      apply first_match_In, filter_In in Hfm' as [_ Hs].
      apply filter_In in Hb' as [_ He].
      apply andb_true_iff in He as [Hes _].
      apply Nat.eqb_eq in Hs, Hes.
      apply outside_true in Ho as [Hos _].
      apply swap_keeps; [| |assumption]; intros Heq; apply Hos;
        rewrite Heq; [rewrite Hes|rewrite Hs]; cbn; auto.
    - intros g g' Hstep.
      apply redirect_inner_in_inv in Hstep
        as (nm & inr & sc' & dc' & Hnm & Hfm' & Hsc' & Hdc' & ->).
      assert (nm = name) by congruence. subst nm.
      rewrite Hsplit in Hfm'.
      apply (first_match_first _ _ _ _ _ _ Hfm' Hbefore) in Hinner
        as Heq.
      subst inr.
      assert (sc' = sc) by congruence.
      assert (dc' = dc) by congruence. subst sc' dc'.
      cbn. apply in_or_app. right. now left. }
  eapply merge_loop_out_keep_outside; [exact Ho|exact H2|exact Hg1].
Qed.

(** When [merge_maps] returns, the edges that entered the outer entry now
    enter the new entry and the edges that left the outer exit now leave
    the new exit, each with the other end, the connectors and the payload
    it had; this for the edges whose other end is none of the four old
    nodes. *)
Theorem merge_maps_outer_edges (Params Ranges : Type) (graph : gr.graph)
        (outer_map_entry outer_map_exit
         inner_map_entry inner_map_exit : dace_nodes.MapNode Params Ranges)
        (param_merge : Params -> Params -> Params)
        (range_merge : Ranges -> Ranges -> Ranges)
        (entry_id exit_id : Node) (graph' : gr.graph)
        (merged : dace_nodes.MapNode Params Ranges
                  * dace_nodes.MapNode Params Ranges)
        (Hrun : merge_maps Params Ranges graph outer_map_entry
                           outer_map_exit inner_map_entry inner_map_exit
                           param_merge range_merge entry_id exit_id
                = Ok (graph', merged))
        (Hdistinct : dace_nodes.ident _ _ outer_map_entry
                     <> dace_nodes.ident _ _ inner_map_exit
                     /\ dace_nodes.ident _ _ outer_map_exit
                        <> dace_nodes.ident _ _ inner_map_entry)
        (Hnew : ~ In entry_id [dace_nodes.ident _ _ outer_map_entry;
                               dace_nodes.ident _ _ outer_map_exit;
                               dace_nodes.ident _ _ inner_map_entry;
                               dace_nodes.ident _ _ inner_map_exit]
                /\ ~ In exit_id [dace_nodes.ident _ _ outer_map_entry;
                                 dace_nodes.ident _ _ outer_map_exit;
                                 dace_nodes.ident _ _ inner_map_entry;
                                 dace_nodes.ident _ _ inner_map_exit]) :
  let four := [dace_nodes.ident _ _ outer_map_entry;
               dace_nodes.ident _ _ outer_map_exit;
               dace_nodes.ident _ _ inner_map_entry;
               dace_nodes.ident _ _ inner_map_exit] in
  (forall e, In e (edges graph) ->
             dst e = dace_nodes.ident _ _ outer_map_entry ->
             ~ In (src e) four ->
             In (with_dst e entry_id) (edges graph'))
  /\ (forall e, In e (edges graph) ->
                src e = dace_nodes.ident _ _ outer_map_exit ->
                ~ In (dst e) four ->
                In (with_src e exit_id) (edges graph')).
Proof.
  intros four.
  destruct (merge_maps_run _ _ _ _ _ _ _ _ _ _ _ _ _ Hrun)
    as (g1 & g2 & H1 & H2 & ->).
  destruct Hdistinct as [Hoe Hox]. destruct Hnew as [Hentry Hexit].
  split; intros e He Hend Hother.
  - apply merge_tail_moves_dst; [|assumption|assumption|assumption].
    eapply merge_loop_out_keep; [| |exact H2|].
    + now rewrite Hend.
    + left. intros Heq. apply Hother. rewrite Heq. cbn. auto.
    + eapply merge_loop_in_keep; [| |exact H1|].
      * intros Heq. apply Hother. rewrite Heq. cbn. auto.
      * left. intros Heq. apply Hother. rewrite Heq. cbn. auto.
      * now rewrite add_nodes_from_edges.
  - apply merge_tail_moves_src; [|assumption|assumption|assumption].
    eapply merge_loop_out_keep; [| |exact H2|].
    + intros Heq. apply Hother. rewrite Heq. cbn. auto.
    + right. intros Heq. apply Hother. rewrite Heq. cbn. auto.
    + eapply merge_loop_in_keep; [| |exact H1|].
      * now rewrite Hend.
      * right. intros Heq. apply Hother. rewrite Heq. cbn. auto.
      * now rewrite add_nodes_from_edges.
Qed.

(** A connector without its match makes [merge_maps] raise [IndexError]:
    in a connector-typed graph in which every edge from the outer to the
    inner entry arrives at a named connector, if one of them arrives at
    [IN_k] and no edge leaves the inner entry from [OUT_k], the list
    comprehension is empty and its element [0] does not exist. *)
Theorem merge_maps_unmatched (Params Ranges : Type) (graph : gr.graph)
        (outer_map_entry outer_map_exit
         inner_map_entry inner_map_exit : dace_nodes.MapNode Params Ranges)
        (param_merge : Params -> Params -> Params)
        (range_merge : Ranges -> Ranges -> Ranges)
        (entry_id exit_id : Node)
        (edge : gr.edge) (name : String.string)
        (Hconnector : forall e, In e (edges graph) ->
                                is_connector_edge e = true)
        (Hnamed : forall e,
            In e (edges_between graph
                    (dace_nodes.ident _ _ outer_map_entry)
                    (dace_nodes.ident _ _ inner_map_entry)) ->
            exists k, dst_conn e = Some (Some k))
        (Hedge : In edge (edges_between graph
                            (dace_nodes.ident _ _ outer_map_entry)
                            (dace_nodes.ident _ _ inner_map_entry)))
        (Hname : dst_conn edge = Some (Some name))
        (Hmissing : forall inner,
            In inner (out_edges graph
                        (dace_nodes.ident _ _ inner_map_entry)) ->
            src_conn inner
            <> Some (Some (String.append "OUT_" (string_drop 3 name)))) :
  merge_maps Params Ranges graph outer_map_entry outer_map_exit
             inner_map_entry inner_map_exit param_merge range_merge
             entry_id exit_id
  = Raise IndexError.
Proof.
  assert (Hall : forall e,
             In e (out_edges graph (dace_nodes.ident _ _ inner_map_entry))
             -> is_connector_edge e = true).
  { intros e He. apply filter_In in He as [He _]. now apply Hconnector. }
  unfold merge_maps. cbv zeta.
  rewrite add_nodes_from_out_edges, add_nodes_from_edges_between.
  rewrite (for_each_raises _ _
             (redirect_inner_in entry_id
                (out_edges graph (dace_nodes.ident _ _ inner_map_entry)))
             IndexError).
  - reflexivity.
  - intros s a Ha. destruct (Hnamed a Ha) as [k Hk].
    apply (redirect_inner_in_cases _ _ _ _ k); [exact Hall| |exact Hk].
    apply Hconnector. now apply filter_In in Ha as [Ha _].
  - exists edge. split; [exact Hedge|]. intros s.
    now apply (redirect_inner_in_missing _ _ _ _ name).
Qed.

(** [merge_maps] returns only when the connectors match.  If it returns,
    every edge from the outer to the inner entry arrives at a named
    connector [IN_k] and some edge leaves the inner entry from [OUT_k];
    and, when the inner exit is neither of the two entries nor the new
    entry, every edge from the inner to the outer exit leaves from a named
    connector [OUT_k] and some edge arrives at the inner exit at
    [IN_k]. *)
Theorem merge_maps_needs_matches (Params Ranges : Type) (graph : gr.graph)
        (outer_map_entry outer_map_exit
         inner_map_entry inner_map_exit : dace_nodes.MapNode Params Ranges)
        (param_merge : Params -> Params -> Params)
        (range_merge : Ranges -> Ranges -> Ranges)
        (entry_id exit_id : Node) (graph' : gr.graph)
        (merged : dace_nodes.MapNode Params Ranges
                  * dace_nodes.MapNode Params Ranges)
        (Hrun : merge_maps Params Ranges graph outer_map_entry
                           outer_map_exit inner_map_entry inner_map_exit
                           param_merge range_merge entry_id exit_id
                = Ok (graph', merged))
        (Hexit : dace_nodes.ident _ _ inner_map_exit
                 <> dace_nodes.ident _ _ outer_map_entry
                 /\ dace_nodes.ident _ _ inner_map_exit
                    <> dace_nodes.ident _ _ inner_map_entry
                 /\ dace_nodes.ident _ _ inner_map_exit <> entry_id) :
  (forall edge,
      In edge (edges_between graph
                 (dace_nodes.ident _ _ outer_map_entry)
                 (dace_nodes.ident _ _ inner_map_entry)) ->
      exists name,
        dst_conn edge = Some (Some name)
        /\ exists inner,
             In inner (out_edges graph
                         (dace_nodes.ident _ _ inner_map_entry))
             /\ src_conn inner
                = Some (Some (String.append "OUT_" (string_drop 3 name))))
  /\ (forall edge,
         In edge (edges_between graph
                    (dace_nodes.ident _ _ inner_map_exit)
                    (dace_nodes.ident _ _ outer_map_exit)) ->
         exists name,
           src_conn edge = Some (Some name)
           /\ exists inner,
                In inner (in_edges graph
                            (dace_nodes.ident _ _ inner_map_exit))
                /\ dst_conn inner
                   = Some (Some (String.append "IN_"
                                   (string_drop 4 name)))).
Proof.
  destruct (merge_maps_run _ _ _ _ _ _ _ _ _ _ _ _ _ Hrun)
    as (g1 & g2 & H1 & H2 & _).
  destruct Hexit as (Hoe & Hie & Hid).
  split; intros edge Hedge.
  - destruct (for_each_ok_each _ _ _ _ _ _ H1 edge Hedge)
      as (s0 & s1 & Hb).
    apply redirect_inner_in_inv in Hb
      as (name & inner & sc & dc & Hname & Hfm & _).
    apply first_match_attr in Hfm as [Hinner Hattr].
    exists name. split; [assumption|]. now exists inner.
  - destruct (merge_loop_exit_side graph _
                (dace_nodes.ident _ _ outer_map_exit) _ _ entry_id
                _ g1 Hoe Hie Hid
                (add_nodes_from_edges [entry_id; exit_id] graph) H1)
      as [Hbetween Hkept].
    rewrite <- Hbetween in Hedge.
    destruct (for_each_ok_each _ _ _ _ _ _ H2 edge Hedge)
      as (s0 & s1 & Hb).
    apply redirect_inner_out_match in Hb as (name & inner & Hname & Hfm).
    apply first_match_attr in Hfm as [Hinner Hattr].
    destruct (Hkept inner Hinner) as (e0 & He0 & Hdc).
    exists name. split; [assumption|]. exists e0.
    split; [assumption|congruence].
Qed.

End MergeMoreTheorems.

Section MergeMoreChecks.
Import gr nxutil_edit nxutil_merge.
Import (notations) String.

Ltac each_edge H := cbn in H; repeat (destruct H as [<-|H]); [..|destruct H].

Lemma nested_maps_new_nodes :
  ~ In 7%nat [1; 5; 2; 4]%nat /\ ~ In 8%nat [1; 5; 2; 4]%nat.
Proof. split; intros [H|[H|[H|[H|[]]]]]; discriminate. Qed.

Lemma merge_maps_keeps_rest_witness :
  (~ In 7%nat [1; 5; 2; 4]%nat /\ ~ In 8%nat [1; 5; 2; 4]%nat)
  /\ exists merged,
       merge_maps _ _ nested_maps.graph
                  nested_maps.outer_map_entry nested_maps.outer_map_exit
                  nested_maps.inner_map_entry nested_maps.inner_map_exit
                  nested_maps.param_merge nested_maps.range_merge
                  7%nat 8%nat
       = Ok (nested_maps.merged_graph, merged)
       /\ (forall e, In e (edges nested_maps.graph) ->
                     ~ In (src e) [1; 5; 2; 4]%nat ->
                     ~ In (dst e) [1; 5; 2; 4]%nat ->
                     In e (edges nested_maps.merged_graph))
       /\ (forall n, In n (nodes nested_maps.graph) ->
                     ~ In n [1; 5; 2; 4]%nat ->
                     In n (nodes nested_maps.merged_graph))
       /\ In 7%nat (nodes nested_maps.merged_graph)
       /\ In 8%nat (nodes nested_maps.merged_graph).
Proof.
  split; [exact nested_maps_new_nodes|].
  eexists. split; [reflexivity|].
  exact (merge_maps_keeps_rest nested_maps.Params nested_maps.Ranges
           nested_maps.graph
           nested_maps.outer_map_entry nested_maps.outer_map_exit
           nested_maps.inner_map_entry nested_maps.inner_map_exit
           nested_maps.param_merge nested_maps.range_merge 7%nat 8%nat
           nested_maps.merged_graph _ eq_refl nested_maps_new_nodes).
Defined.

Lemma merge_maps_rewires_witness :
  In (MultiConnectorEdge 1%nat (Some "OUT_0"%string) 2%nat
                         (Some "IN_0"%string) (Some 11%nat))
     (edges_between nested_maps.graph 1%nat 2%nat)
  /\ out_edges nested_maps.graph 2%nat
     = [] ++ [MultiConnectorEdge 2%nat (Some "OUT_0"%string) 3%nat
                                 (Some "in"%string) (Some 12%nat)]
  /\ ~ In 7%nat [1; 5; 2; 4]%nat
  /\ ~ In 3%nat [1; 5; 2; 4]%nat
  /\ exists merged,
       merge_maps _ _ nested_maps.graph
                  nested_maps.outer_map_entry nested_maps.outer_map_exit
                  nested_maps.inner_map_entry nested_maps.inner_map_exit
                  nested_maps.param_merge nested_maps.range_merge
                  7%nat 8%nat
       = Ok (nested_maps.merged_graph, merged)
       /\ exists edge_src_conn inner_dst_conn,
            edge_src_conn = Some "OUT_0"%string
            /\ inner_dst_conn = Some "in"%string
            /\ In (MultiConnectorEdge 7%nat edge_src_conn 3%nat
                                      inner_dst_conn (Some 12%nat))
                  (edges nested_maps.merged_graph).
Proof.
  pose (edge := MultiConnectorEdge 1%nat (Some "OUT_0"%string) 2%nat
                                   (Some "IN_0"%string) (Some 11%nat)).
  pose (inner := MultiConnectorEdge 2%nat (Some "OUT_0"%string) 3%nat
                                    (Some "in"%string) (Some 12%nat)).
  assert (Hedge : In edge (edges_between nested_maps.graph 1%nat 2%nat))
    by (left; reflexivity).
  assert (Hdst : ~ In (dst inner) [1; 5; 2; 4]%nat)
    by (intros [H|[H|[H|[H|[]]]]]; discriminate).
  split; [exact Hedge|]. split; [reflexivity|].
  split; [exact (proj1 nested_maps_new_nodes)|].
  split; [exact Hdst|].
  eexists. split; [reflexivity|].
  destruct (merge_maps_rewires nested_maps.Params nested_maps.Ranges
              nested_maps.graph
              nested_maps.outer_map_entry nested_maps.outer_map_exit
              nested_maps.inner_map_entry nested_maps.inner_map_exit
              nested_maps.param_merge nested_maps.range_merge 7%nat 8%nat
              nested_maps.merged_graph _ edge inner "IN_0"%string [] []
              eq_refl Hedge eq_refl eq_refl
              (fun e (H : In e []) => match H with end) eq_refl
              (proj1 nested_maps_new_nodes) Hdst)
    as (sc & dc & Hsc & Hdc & Hnew).
  exists sc, dc. cbn in Hsc, Hdc.
  split; [congruence|]. split; [congruence|exact Hnew].
Defined.

Lemma merge_maps_outer_edges_witness :
  (1 <> 4 /\ 5 <> 2)%nat
  /\ (~ In 7%nat [1; 5; 2; 4]%nat /\ ~ In 8%nat [1; 5; 2; 4]%nat)
  /\ exists merged,
       merge_maps _ _ nested_maps.graph
                  nested_maps.outer_map_entry nested_maps.outer_map_exit
                  nested_maps.inner_map_entry nested_maps.inner_map_exit
                  nested_maps.param_merge nested_maps.range_merge
                  7%nat 8%nat
       = Ok (nested_maps.merged_graph, merged)
       /\ (forall e, In e (edges nested_maps.graph) ->
                     dst e = 1%nat ->
                     ~ In (src e) [1; 5; 2; 4]%nat ->
                     In (with_dst e 7%nat)
                        (edges nested_maps.merged_graph))
       /\ (forall e, In e (edges nested_maps.graph) ->
                     src e = 5%nat ->
                     ~ In (dst e) [1; 5; 2; 4]%nat ->
                     In (with_src e 8%nat)
                        (edges nested_maps.merged_graph)).
Proof.
  assert (Hdistinct : (1 <> 4 /\ 5 <> 2)%nat) by (split; discriminate).
  split; [exact Hdistinct|]. split; [exact nested_maps_new_nodes|].
  eexists. split; [reflexivity|].
  exact (merge_maps_outer_edges nested_maps.Params nested_maps.Ranges
           nested_maps.graph
           nested_maps.outer_map_entry nested_maps.outer_map_exit
           nested_maps.inner_map_entry nested_maps.inner_map_exit
           nested_maps.param_merge nested_maps.range_merge 7%nat 8%nat
           nested_maps.merged_graph _ eq_refl Hdistinct
           nested_maps_new_nodes).
Defined.

Lemma merge_maps_unmatched_witness :
  (forall e, In e (edges mismatched_maps.graph) ->
             is_connector_edge e = true)
  /\ (forall e, In e (edges_between mismatched_maps.graph 1%nat 2%nat) ->
                exists k, dst_conn e = Some (Some k))
  /\ In (MultiConnectorEdge 1%nat (Some "OUT_0"%string) 2%nat
                            (Some "IN_0"%string) (Some 11%nat))
        (edges_between mismatched_maps.graph 1%nat 2%nat)
  /\ (forall inner, In inner (out_edges mismatched_maps.graph 2%nat) ->
                    src_conn inner <> Some (Some "OUT_0"%string))
  /\ merge_maps _ _ mismatched_maps.graph
                nested_maps.outer_map_entry nested_maps.outer_map_exit
                nested_maps.inner_map_entry nested_maps.inner_map_exit
                nested_maps.param_merge nested_maps.range_merge
                7%nat 8%nat
     = Raise IndexError.
Proof.
  pose (edge := MultiConnectorEdge 1%nat (Some "OUT_0"%string) 2%nat
                                   (Some "IN_0"%string) (Some 11%nat)).
  assert (Hconnector : forall e, In e (edges mismatched_maps.graph) ->
                                 is_connector_edge e = true)
    by (intros e He; each_edge He; reflexivity).
  assert (Hnamed : forall e,
             In e (edges_between mismatched_maps.graph 1%nat 2%nat) ->
             exists k, dst_conn e = Some (Some k))
    by (intros e He; each_edge He; now exists "IN_0"%string).
  assert (Hedge : In edge (edges_between mismatched_maps.graph 1%nat 2%nat))
    by (left; reflexivity).
  assert (Hmissing : forall inner,
             In inner (out_edges mismatched_maps.graph 2%nat) ->
             src_conn inner <> Some (Some "OUT_0"%string))
    by (intros inner Hi; each_edge Hi; discriminate).
  split; [exact Hconnector|]. split; [exact Hnamed|].
  split; [exact Hedge|]. split; [exact Hmissing|].
  exact (merge_maps_unmatched nested_maps.Params nested_maps.Ranges
           mismatched_maps.graph
           nested_maps.outer_map_entry nested_maps.outer_map_exit
           nested_maps.inner_map_entry nested_maps.inner_map_exit
           nested_maps.param_merge nested_maps.range_merge 7%nat 8%nat
           edge "IN_0"%string Hconnector Hnamed Hedge eq_refl Hmissing).
Defined.

Lemma merge_maps_needs_matches_witness :
  (4 <> 1 /\ 4 <> 2 /\ 4 <> 7)%nat
  /\ exists merged,
       merge_maps _ _ nested_maps.graph
                  nested_maps.outer_map_entry nested_maps.outer_map_exit
                  nested_maps.inner_map_entry nested_maps.inner_map_exit
                  nested_maps.param_merge nested_maps.range_merge
                  7%nat 8%nat
       = Ok (nested_maps.merged_graph, merged)
       /\ (forall edge,
              In edge (edges_between nested_maps.graph 1%nat 2%nat) ->
              exists name,
                dst_conn edge = Some (Some name)
                /\ exists inner,
                     In inner (out_edges nested_maps.graph 2%nat)
                     /\ src_conn inner
                        = Some (Some (String.append "OUT_"
                                        (string_drop 3 name))))
       /\ (forall edge,
              In edge (edges_between nested_maps.graph 4%nat 5%nat) ->
              exists name,
                src_conn edge = Some (Some name)
                /\ exists inner,
                     In inner (in_edges nested_maps.graph 4%nat)
                     /\ dst_conn inner
                        = Some (Some (String.append "IN_"
                                        (string_drop 4 name)))).
Proof.
  assert (Hexit : (4 <> 1 /\ 4 <> 2 /\ 4 <> 7)%nat)
    by (repeat split; discriminate).
  split; [exact Hexit|].
  eexists. split; [reflexivity|].
  exact (merge_maps_needs_matches nested_maps.Params nested_maps.Ranges
           nested_maps.graph
           nested_maps.outer_map_entry nested_maps.outer_map_exit
           nested_maps.inner_map_entry nested_maps.inner_map_exit
           nested_maps.param_merge nested_maps.range_merge 7%nat 8%nat
           nested_maps.merged_graph _ eq_refl Hexit).
Defined.

End MergeMoreChecks.
